(** * LeaseSet.cpp (libi2pd): decoding, reconciliation and construction of
      lease sets, as a shallow embedding.

    Integers of the source are [Z] with the wrap-around of their C++ type
    written out ([u64], [u32], [u16]); buffer offsets and lengths ([size_t])
    are [nat], they stay far below 2^64 (an identity is at most 387 + 65535
    bytes, a lease count at most 255).  A buffer is a [list byte]; its
    length is the [len] argument that accompanies the pointer in the source.
    Every read of a buffer goes through [read_bytes], which reports the
    first index touched at or past the length instead of a value. *)

From Stdlib Require Import ZArith Lia Strings.Byte.
From stdpp Require Import base option list gmap.

Local Open Scope Z_scope.

(** ** Fixed-width integers *)

Definition u64 (x : Z) : Z := x mod 2 ^ 64.
Definition u32 (x : Z) : Z := x mod 2 ^ 32.
Definition u16 (x : Z) : Z := x mod 2 ^ 16.

Definition byte_val (b : byte) : Z := Z.of_N (Byte.to_N b).
Definition byte_nat (b : byte) : nat := N.to_nat (Byte.to_N b).
Definition byte_of_Z (z : Z) : byte :=
  default x00 (Byte.of_N (Z.to_N (z mod 256))).

(** bufbe16toh, bufbe32toh, bufbe64toh of I2PEndian.h: the big-endian value
    of the bytes at a pointer. *)
Definition be_decode (bs : list byte) : Z :=
  foldl (λ acc b, acc * 256 + byte_val b) 0 bs.

(** htobe16buf, htobe32buf, htobe64buf: the [n] low-order bytes of [v],
    most significant first (the conversion to the n-byte type truncates). *)
Fixpoint be_encode (n : nat) (v : Z) : list byte :=
  match n with
  | O => []
  | S n' => byte_of_Z (v / 256 ^ Z.of_nat n') :: be_encode n' v
  end.

(** ** Reads of a buffer *)

Inductive result (A : Type) : Type :=
  | Ok (a : A)
  | OutOfBounds (index : nat).
Arguments Ok {A} a.
Arguments OutOfBounds {A} index.

#[global] Instance result_ret : MRet result := λ A a, Ok a.
#[global] Instance result_bind : MBind result := λ A B f m,
  match m with
  | Ok a => f a
  | OutOfBounds i => OutOfBounds i
  end.

(** The outcome is a value: no read went past the length. *)
Definition succeeded {A} (r : result A) : bool :=
  match r with
  | Ok _ => true
  | OutOfBounds _ => false
  end.

(** [n] bytes starting at offset [off] of a buffer of [length buf] bytes.
    When they are not all inside the buffer the outcome names the first
    index read at or past the length. *)
Definition read_bytes (buf : list byte) (off n : nat) : result (list byte) :=
  if bool_decide (n = 0 ∨ off + n ≤ length buf)%nat
  then Ok (take n (drop off buf))
  else OutOfBounds (off `max` length buf)%nat.

Definition read8 (buf : list byte) (off : nat) : result byte :=
  match buf !! off with
  | Some b => Ok b
  | None => OutOfBounds off
  end.

#[global] Instance result_fmap : FMap result := λ A B f m,
  match m with
  | Ok a => Ok (f a)
  | OutOfBounds i => OutOfBounds i
  end.

Definition bufbe16toh (buf : list byte) (off : nat) : result Z :=
  be_decode <$> read_bytes buf off 2.
Definition bufbe32toh (buf : list byte) (off : nat) : result Z :=
  be_decode <$> read_bytes buf off 4.
Definition bufbe64toh (buf : list byte) (off : nat) : result Z :=
  be_decode <$> read_bytes buf off 8.

(** ** Collaborators (Identity.h, Signature.h, NetDb.hpp, Tunnel.h)

    Only their use is in LeaseSet.cpp; they are taken as given. *)

(** An [IdentityEx] once constructed: its lengths, its signature check
    [Verify data signature] and its serialisation. *)
Record IdentityEx := {
  GetFullLen : nat;
  GetSigningPublicKeyLen : nat;
  GetSignatureLen : nat;
  Verify : list byte → list byte → bool;
  ToBuffer : list byte
}.

(** An [i2p::crypto::Verifier]; [SetPublicKey] followed by [Verify] is
    [VerifyWith key data signature]. *)
Record Verifier := {
  GetPublicKeyLen : nat;
  VerifierSignatureLen : nat;
  VerifyWith : list byte → list byte → list byte → bool
}.

Record Encryptor := {
  encryptorKeyType : Z;
  encryptorKey : list byte
}.

Record InboundTunnel := {
  GetNextIdentHash : list byte;
  GetNextTunnelID : Z;
  GetCreationTime : Z
}.

(** What the headers and the collaborators fix and LeaseSet.cpp only uses:
    the constants of LeaseSet.h and Tunnel.h whose values appear nowhere in
    the file, the [IdentityEx(buf, len)] constructor, the verifier and
    encryptor factories, the router lookup of the network database and the
    store-type tags. *)
Class Env := {
  MAX_NUM_LEASES : nat;
  LEASE_ENDDATE_THRESHOLD : Z;
  TUNNEL_EXPIRATION_TIMEOUT : Z;
  TUNNEL_EXPIRATION_THRESHOLD : Z;
  IdentityEx_FromBuffer : list byte → IdentityEx;
  CreateVerifier : Z → option Verifier;
  CreateEncryptor : Z → list byte → option Encryptor;
  FindRouter : list byte → bool;
  NETDB_STORE_TYPE_STANDARD_LEASESET2 : byte;
  NETDB_STORE_TYPE_ENCRYPTED_LEASESET2 : byte;
  NETDB_STORE_TYPE_META_LEASESET2 : byte
}.

(** Modelled from the spec: the constants LEASE_SIZE and LEASE2_SIZE of
    LeaseSet.h, which is not among the sources; the spec gives the legacy
    lease as 44 bytes (32 + 4 + 8) and the v2 lease as 40 bytes
    (32 + 4 + 4), as do the comments of the decoders. *)
Definition LEASE_SIZE : nat := 44.
Definition LEASE2_SIZE : nat := 40.

(** ** Data model *)

Record Lease := mkLease {
  tunnelGateway : list byte;
  tunnelID : Z;
  endDate : Z;
  isUpdated : bool
}.

#[global] Instance Lease_inhabited : Inhabited Lease :=
  populate (mkLease [] 0 0 false).

Definition set_endDate (e : Z) (l : Lease) : Lease :=
  mkLease (tunnelGateway l) (tunnelID l) e (isUpdated l).
Definition set_isUpdated (b : bool) (l : Lease) : Lease :=
  mkLease (tunnelGateway l) (tunnelID l) (endDate l) b.

#[global] Instance byte_eq_dec : EqDecision byte.
Proof.
  intros a b. destruct (decide (Byte.to_N a = Byte.to_N b)) as [E|N].
  - left. apply (f_equal Byte.of_N) in E. rewrite !Byte.of_to_N in E. congruence.
  - right. congruence.
Defined.

#[global] Instance byte_countable : Countable byte :=
  inj_countable Byte.to_N Byte.of_N Byte.of_to_N.

(** Modelled from the spec: the comparator LeaseCmp of LeaseSet.h, which is
    not among the sources; the spec keys the set of leases by the pair
    (gateway, tunnelId) and two leases are the same element iff the pair
    matches, whatever their end dates. *)
Abbreviation LeaseKey := (list byte * Z)%type.
Definition lease_key (l : Lease) : LeaseKey := (tunnelGateway l, tunnelID l).

(** A [LeaseSet] object together with the two pieces of the outside its
    methods touch: [heap] holds the [Lease] objects the [shared_ptr]s of
    [m_Leases] (and of any other holder) point to, a pointer being an index
    into it, and [netdb_requests] the destinations handed to
    [netdb.RequestDestination].  [m_Leases] is the
    [std::set<std::shared_ptr<Lease>, LeaseCmp>]: at most one pointer per
    key; a loop over the set visits its elements in the order of
    [map_to_list], which like that of [LeaseCmp] depends on the keys only,
    and no property below depends on it.  An object stays in [heap] after
    it has left the set: whoever holds a pointer to it can still read it.
    [m_BufferLen] is [length m_Buffer]. *)
Record LeaseSet := mkLeaseSet {
  m_IsValid : bool;
  m_StoreLeases : bool;
  m_ExpirationTime : Z;
  m_Buffer : list byte;
  m_Identity : option IdentityEx;
  m_EncryptionKey : list byte;
  m_Leases : gmap LeaseKey nat;
  heap : list Lease;
  netdb_requests : list (list byte)
}.

Definition SetIsValid (v : bool) (s : LeaseSet) : LeaseSet :=
  mkLeaseSet v (m_StoreLeases s) (m_ExpirationTime s) (m_Buffer s)
    (m_Identity s) (m_EncryptionKey s) (m_Leases s) (heap s) (netdb_requests s).
Definition SetStoreLeases (v : bool) (s : LeaseSet) : LeaseSet :=
  mkLeaseSet (m_IsValid s) v (m_ExpirationTime s) (m_Buffer s)
    (m_Identity s) (m_EncryptionKey s) (m_Leases s) (heap s) (netdb_requests s).
Definition SetExpirationTime (t : Z) (s : LeaseSet) : LeaseSet :=
  mkLeaseSet (m_IsValid s) (m_StoreLeases s) t (m_Buffer s)
    (m_Identity s) (m_EncryptionKey s) (m_Leases s) (heap s) (netdb_requests s).
Definition SetBuffer (buf : list byte) (s : LeaseSet) : LeaseSet :=
  mkLeaseSet (m_IsValid s) (m_StoreLeases s) (m_ExpirationTime s) buf
    (m_Identity s) (m_EncryptionKey s) (m_Leases s) (heap s) (netdb_requests s).
Definition SetIdentity (i : IdentityEx) (s : LeaseSet) : LeaseSet :=
  mkLeaseSet (m_IsValid s) (m_StoreLeases s) (m_ExpirationTime s) (m_Buffer s)
    (Some i) (m_EncryptionKey s) (m_Leases s) (heap s) (netdb_requests s).
Definition SetEncryptionKey (k : list byte) (s : LeaseSet) : LeaseSet :=
  mkLeaseSet (m_IsValid s) (m_StoreLeases s) (m_ExpirationTime s) (m_Buffer s)
    (m_Identity s) k (m_Leases s) (heap s) (netdb_requests s).
Definition set_Leases (m : gmap LeaseKey nat) (s : LeaseSet) : LeaseSet :=
  mkLeaseSet (m_IsValid s) (m_StoreLeases s) (m_ExpirationTime s) (m_Buffer s)
    (m_Identity s) (m_EncryptionKey s) m (heap s) (netdb_requests s).
Definition set_heap (h : list Lease) (s : LeaseSet) : LeaseSet :=
  mkLeaseSet (m_IsValid s) (m_StoreLeases s) (m_ExpirationTime s) (m_Buffer s)
    (m_Identity s) (m_EncryptionKey s) (m_Leases s) h (netdb_requests s).
Definition RequestDestination (gw : list byte) (s : LeaseSet) : LeaseSet :=
  mkLeaseSet (m_IsValid s) (m_StoreLeases s) (m_ExpirationTime s) (m_Buffer s)
    (m_Identity s) (m_EncryptionKey s) (m_Leases s) (heap s)
    (netdb_requests s ++ [gw]).

(** [LeaseSet::LeaseSet (bool storeLeases)] *)
Definition LeaseSet_empty (storeLeases : bool) (h : list Lease) : LeaseSet :=
  mkLeaseSet false storeLeases 0 [] None [] ∅ h [].

(** ** The reconciliation engine *)

Section Engine.
Context `{!Env}.

(** [LeaseSet::UpdateLeasesBegin] *)
Definition UpdateLeasesBegin (s : LeaseSet) : LeaseSet :=
  if m_StoreLeases s then
    set_heap
      (foldl (λ h kp, alter (set_isUpdated false) kp.2 h) (heap s)
         (map_to_list (m_Leases s))) s
  else set_Leases ∅ s.

(** [LeaseSet::UpdateLeasesEnd]: one turn of the loop, then the loop over
    the elements of the set. *)
Definition prune_step (s : LeaseSet) (kp : LeaseKey * nat) : LeaseSet :=
  if isUpdated (heap s !!! kp.2) then s
  else set_Leases (delete kp.1 (m_Leases s))
         (set_heap (alter (set_endDate 0) kp.2 (heap s)) s).

Definition UpdateLeasesEnd (s : LeaseSet) : LeaseSet :=
  if m_StoreLeases s then foldl prune_step s (map_to_list (m_Leases s))
  else s.

(** [m_Leases.insert (std::make_shared<Lease>(lease))] followed by the two
    assignments through [ret.first]: an element with the key of [lease]
    keeps its object and has its end date overwritten, otherwise a new
    object, a copy of [lease], enters the set; either way it is marked. *)
Definition insert_lease (lease : Lease) (s : LeaseSet) : LeaseSet :=
  match m_Leases s !! lease_key lease with
  | Some p =>
      set_heap
        (alter (λ l, set_isUpdated true (set_endDate (endDate lease) l)) p
           (heap s)) s
  | None =>
      set_Leases (<[lease_key lease := length (heap s)]> (m_Leases s))
        (set_heap (heap s ++ [set_isUpdated true lease]) s)
  end.

(** [LeaseSet::UpdateLease] *)
Definition UpdateLease (lease : Lease) (ts : Z) (s : LeaseSet) : LeaseSet :=
  if ts <? u64 (endDate lease + LEASE_ENDDATE_THRESHOLD) then
    let s :=
      if m_ExpirationTime s <? endDate lease
      then SetExpirationTime (endDate lease) s else s in
    if m_StoreLeases s then
      let s := insert_lease lease s in
      if FindRouter (tunnelGateway lease) then s
      else RequestDestination (tunnelGateway lease) s
    else s
  else s.

(** ** Legacy decode *)

(** The loop of [LeaseSet::ReadFromBuffer] over the [n] leases that remain,
    [leases] being the offset of the running pointer; it returns the
    record and the offset after the last lease. *)
Fixpoint ReadLeases (n : nat) (leases : nat) (ts : Z) (s : LeaseSet)
    : result (LeaseSet * nat) :=
  match n with
  | O => Ok (s, leases)
  | S n' =>
      gw ← read_bytes (m_Buffer s) leases 32;
      let leases := (leases + 32)%nat in
      tid ← bufbe32toh (m_Buffer s) leases;
      let leases := (leases + 4)%nat in
      ed ← bufbe64toh (m_Buffer s) leases;
      let leases := (leases + 8)%nat in
      ReadLeases n' leases ts (UpdateLease (mkLease gw tid ed false) ts s)
  end.

(** The identity [LeaseSet::ReadFromBuffer] works with: read from the
    buffer when asked to or when the record has none yet. *)
Definition decode_identity (readIdentity : bool) (s : LeaseSet) : IdentityEx :=
  match m_Identity s with
  | Some i => if readIdentity then IdentityEx_FromBuffer (m_Buffer s) else i
  | None => IdentityEx_FromBuffer (m_Buffer s)
  end.

(** [LeaseSet::ReadFromBuffer (bool readIdentity, bool verifySignature)],
    [ts] being the clock read by the call. *)
Definition ReadFromBuffer (readIdentity verifySignature : bool) (ts : Z)
    (s : LeaseSet) : result LeaseSet :=
  let ident := decode_identity readIdentity s in
  let s := SetIdentity ident s in
  let size := GetFullLen ident in
  if bool_decide (length (m_Buffer s) < size)%nat then Ok (SetIsValid false s)
  else
    key ← read_bytes (m_Buffer s) size 256;
    let s := SetEncryptionKey key s in
    let size := (size + 256)%nat in
    let size := (size + GetSigningPublicKeyLen ident)%nat in
    num ← read8 (m_Buffer s) size;
    let num := byte_nat num in
    let size := (size + 1)%nat in
    if bool_decide (num = 0 ∨ MAX_NUM_LEASES < num)%nat
    then Ok (SetIsValid false s)
    else
      let s := UpdateLeasesBegin s in
      let s := SetExpirationTime 0 s in
      '(s, leases) ← ReadLeases num size ts s;
      if bool_decide (m_ExpirationTime s = 0) then Ok (SetIsValid false s)
      else
        let s :=
          SetExpirationTime
            (u64 (m_ExpirationTime s + LEASE_ENDDATE_THRESHOLD)) s in
        let s := UpdateLeasesEnd s in
        if verifySignature then
          signature ← read_bytes (m_Buffer s) leases (GetSignatureLen ident);
          if Verify ident (take leases (m_Buffer s)) signature then Ok s
          else Ok (SetIsValid false s)
        else Ok s.

(** [LeaseSet::LeaseSet (const uint8_t * buf, size_t len, bool storeLeases)];
    [h] is the heap the object is created in.  The constructor calls
    [ReadFromBuffer ()] with the default arguments of its declaration in
    LeaseSet.h, taken to be [true] for both; the new record has no identity,
    so the identity is read whatever the first one is. *)
Definition LeaseSet_FromBuffer (buf : list byte) (storeLeases : bool)
    (ts : Z) (h : list Lease) : result LeaseSet :=
  ReadFromBuffer true true ts (mkLeaseSet true storeLeases 0 buf None [] ∅ h []).

(** [LeaseSet::Update] *)
Definition Update (buf : list byte) (verifySignature : bool) (ts : Z)
    (s : LeaseSet) : result LeaseSet :=
  ReadFromBuffer false verifySignature ts (SetBuffer buf s).

(** [LeaseSet::PopulateLeases]: [ReadFromBuffer (false)], the signature
    being checked by default. *)
Definition PopulateLeases (ts : Z) (s : LeaseSet) : result LeaseSet :=
  ReadFromBuffer false true ts (SetStoreLeases true s).

(** The loop of [LeaseSetBufferValidate]: [n] leases remain, [leases] is
    the offset of the running pointer, [expires] the maximum so far. *)
Fixpoint ValidateLeases (buf : list byte) (n : nat) (leases : nat)
    (expires : Z) : result (Z * nat) :=
  match n with
  | O => Ok (expires, leases)
  | S n' =>
      let leases := (leases + 36)%nat in
      ed ← bufbe64toh buf leases;
      let leases := (leases + 8)%nat in
      ValidateLeases buf n' leases (if expires <? ed then ed else expires)
  end.

(** [LeaseSetBufferValidate]: the returned flag and, where the function
    assigns it, the value left in [expires] ([None]: not assigned). *)
Definition LeaseSetBufferValidate (ptr : list byte) : result (bool * option Z) :=
  let ident := IdentityEx_FromBuffer ptr in
  let size := GetFullLen ident in
  if bool_decide (length ptr < size)%nat then Ok (false, None)
  else
    let size := (size + 256)%nat in
    let size := (size + GetSigningPublicKeyLen ident)%nat in
    numLeases ← read8 ptr size;
    let numLeases := byte_nat numLeases in
    let size := (size + 1)%nat in
    if bool_decide (numLeases = 0 ∨ MAX_NUM_LEASES < numLeases)%nat
    then Ok (false, None)
    else
      '(expires, leases) ← ValidateLeases ptr numLeases size 0;
      signature ← read_bytes ptr leases (GetSignatureLen ident);
      Ok (Verify ident (take leases ptr) signature, Some expires).

(** ** Freshness, expiration and selection *)

(** The loop of [LeaseSet::ExtractTimestamp]. *)
Fixpoint ExtractLeases (buf : list byte) (n : nat) (size : nat)
    (timestamp : Z) : result Z :=
  match n with
  | O => Ok timestamp
  | S n' =>
      let size := (size + 36)%nat in
      ed ← bufbe64toh buf size;
      let size := (size + 8)%nat in
      ExtractLeases buf n' size
        (if (timestamp =? 0) || (ed <? timestamp) then ed else timestamp)
  end.

(** [LeaseSet::ExtractTimestamp (buf, len)] with [len = length buf]. *)
Definition ExtractTimestamp (buf : list byte) (s : LeaseSet) : result Z :=
  match m_Identity s with
  | None => Ok 0
  | Some ident =>
      let len := length buf in
      let size := GetFullLen ident in
      if bool_decide (len < size)%nat then Ok 0
      else
        let size := (size + 256)%nat in
        let size := (size + GetSigningPublicKeyLen ident)%nat in
        if bool_decide (len < size)%nat then Ok 0
        else
          num ← read8 buf size;
          let num := byte_nat num in
          let size := (size + 1)%nat in
          if bool_decide (len < size + num * LEASE_SIZE)%nat then Ok 0
          else ExtractLeases buf num size 0
  end.

(** [LeaseSet::IsNewer]; C++ leaves open which operand of [>] is evaluated
    first, the candidate is here. *)
Definition IsNewer (buf : list byte) (s : LeaseSet) : result bool :=
  candidate ← ExtractTimestamp buf s;
  current ← ExtractTimestamp (m_Buffer s) s;
  Ok (current <? candidate).

(** [LeaseSet::ExpiresSoon]; [now] is the clock and [rnd] the value
    [rand ()] returns when it is called. *)
Definition ExpiresSoon (dlt fudge : Z) (now rnd : Z) (s : LeaseSet) : bool :=
  let now := if fudge =? 0 then now else u64 (now + rnd mod fudge) in
  if m_ExpirationTime s <=? now then true
  else u64 (m_ExpirationTime s - now) <=? dlt.

(** [LeaseSet::GetNonExpiredLeasesExcluding]: the pointers pushed to the
    returned vector. *)
Definition GetNonExpiredLeasesExcluding (exclude : Lease → bool)
    (withThreshold : bool) (ts : Z) (s : LeaseSet) : list nat :=
  foldl
    (λ leases kp,
       let it := heap s !!! kp.2 in
       let endDate :=
         if withThreshold then u64 (endDate it + LEASE_ENDDATE_THRESHOLD)
         else u64 (endDate it - LEASE_ENDDATE_THRESHOLD) in
       if (ts <? endDate) && negb (exclude it) then leases ++ [kp.2]
       else leases)
    [] (map_to_list (m_Leases s)).

(** [LeaseSet::GetNonExpiredLeases] *)
Definition GetNonExpiredLeases (withThreshold : bool) (ts : Z)
    (s : LeaseSet) : list nat :=
  GetNonExpiredLeasesExcluding (λ _, false) withThreshold ts s.

(** [LeaseSet::HasExpiredLeases] *)
Definition HasExpiredLeases (ts : Z) (s : LeaseSet) : bool :=
  existsb (λ kp : LeaseKey * nat, endDate (heap s !!! kp.2) <=? ts)
    (map_to_list (m_Leases s)).

(** [LeaseSet::IsExpired] *)
Definition IsExpired (ts : Z) (s : LeaseSet) : bool :=
  if m_StoreLeases s && bool_decide (m_Leases s = ∅) then true
  else m_ExpirationTime s <? ts.

End Engine.

(** ** LeaseSet2 decode *)

(** A [LeaseSet2]: the [LeaseSet] it derives from and its own members. *)
Record LeaseSet2 := mkLeaseSet2 {
  base : LeaseSet;
  m_StoreType : byte;
  m_Encryptor : option Encryptor
}.

Definition set_base (b : LeaseSet) (s : LeaseSet2) : LeaseSet2 :=
  mkLeaseSet2 b (m_StoreType s) (m_Encryptor s).
Definition set_Encryptor (e : option Encryptor) (s : LeaseSet2) : LeaseSet2 :=
  mkLeaseSet2 (base s) (m_StoreType s) e.

(** What the template parameter of [LeaseSet2::VerifySignature] has to
    offer: a signature length and a check of a signature over data. *)
Class SignatureVerifier (V : Type) := {
  signature_len : V → nat;
  verify_signature : V → list byte → list byte → bool
}.

#[global] Instance IdentityEx_verifier : SignatureVerifier IdentityEx :=
  {| signature_len := GetSignatureLen; verify_signature := Verify |}.

(** A [Verifier] after [SetPublicKey (key)]. *)
#[global] Instance keyed_verifier : SignatureVerifier (Verifier * list byte) :=
  {| signature_len v := VerifierSignatureLen v.1;
     verify_signature v := VerifyWith v.1 v.2 |}.

(** A read inside the part of a buffer that starts at [offset] reports its
    index in the whole buffer. *)
Definition at_offset {A} (offset : nat) (r : result A) : result A :=
  match r with
  | Ok a => Ok a
  | OutOfBounds i => OutOfBounds (offset + i)
  end.

Section LeaseSet2.
Context `{!Env}.

(** [LeaseSet2::VerifySignature]: the byte before the buffer holds the
    store type while the signature is checked, so the signed data is that
    byte followed by the first [signatureOffset] bytes. *)
Definition VerifySignature `{!SignatureVerifier V} (verifier : V)
    (storeType : byte) (buf : list byte) (signatureOffset : nat)
    : result bool :=
  if bool_decide (length buf < signatureOffset + signature_len verifier)%nat
  then Ok false
  else
    signature ← read_bytes buf signatureOffset (signature_len verifier);
    Ok (verify_signature verifier (storeType :: take signatureOffset buf)
          signature).

(** The loops of [ReadStandardLS2TypeSpecificPart]; the offset they return
    is [None] where the source leaves with [return 0]. *)
Fixpoint ReadKeySections (buf : list byte) (n : nat) (offset : nat)
    (s : LeaseSet2) : result (option nat * LeaseSet2) :=
  match n with
  | O => Ok (Some offset, s)
  | S n' =>
      keyType ← bufbe16toh buf offset;
      let offset := (offset + 2)%nat in
      if bool_decide (length buf ≤ offset + 2)%nat then Ok (None, s)
      else
        encryptionKeyLen ← bufbe16toh buf offset;
        let offset := (offset + 2)%nat in
        if bool_decide (length buf ≤ offset + Z.to_nat encryptionKeyLen)%nat
        then Ok (None, s)
        else
          let s :=
            match m_Encryptor s with
            | None =>
                if m_StoreLeases (base s)
                then set_Encryptor (CreateEncryptor keyType (drop offset buf)) s
                else s
            | Some _ => s
            end in
          ReadKeySections buf n' (offset + Z.to_nat encryptionKeyLen)%nat s
  end.

Fixpoint ReadLeases2 (buf : list byte) (n : nat) (offset : nat) (ts : Z)
    (s : LeaseSet) : result (option nat * LeaseSet) :=
  match n with
  | O => Ok (Some offset, s)
  | S n' =>
      if bool_decide (length buf < offset + LEASE2_SIZE)%nat then Ok (None, s)
      else
        gw ← read_bytes buf offset 32;
        let offset := (offset + 32)%nat in
        tid ← bufbe32toh buf offset;
        let offset := (offset + 4)%nat in
        ed ← bufbe32toh buf offset;
        let offset := (offset + 4)%nat in
        ReadLeases2 buf n' offset ts
          (UpdateLease (mkLease gw tid (ed * 1000) false) ts s)
  end.

(** [LeaseSet2::ReadStandardLS2TypeSpecificPart (buf, len)]: the returned
    size and the record. *)
Definition ReadStandardLS2TypeSpecificPart (buf : list byte) (ts : Z)
    (s : LeaseSet2) : result (nat * LeaseSet2) :=
  let offset := 0%nat in
  propertiesLen ← bufbe16toh buf offset;
  let offset := (offset + 2)%nat in
  let offset := (offset + Z.to_nat propertiesLen)%nat in
  if bool_decide (length buf ≤ offset + 1)%nat then Ok (0%nat, s)
  else
    numKeySections ← read8 buf offset;
    let offset := (offset + 1)%nat in
    '(r, s) ← ReadKeySections buf (byte_nat numKeySections) offset s;
    match r with
    | None => Ok (0%nat, s)
    | Some offset =>
        if bool_decide (length buf ≤ offset + 1)%nat then Ok (0%nat, s)
        else
          numLeases ← read8 buf offset;
          let numLeases := byte_nat numLeases in
          let offset := (offset + 1)%nat in
          if m_StoreLeases (base s) then
            let b := UpdateLeasesBegin (base s) in
            '(r, b) ← ReadLeases2 buf numLeases offset ts b;
            match r with
            | None => Ok (0%nat, set_base b s)
            | Some offset => Ok (offset, set_base (UpdateLeasesEnd b) s)
            end
          else Ok ((offset + numLeases * LEASE2_SIZE)%nat, s)
    end.

Fixpoint ReadMetaEntries (buf : list byte) (n : nat) (offset : nat)
    : option nat :=
  match n with
  | O => Some offset
  | S n' =>
      if bool_decide (length buf ≤ offset + 40)%nat then None
      else ReadMetaEntries buf n' (offset + 32 + 3 + 1 + 4)%nat
  end.

Fixpoint ReadMetaRevocations (buf : list byte) (n : nat) (offset : nat)
    : option nat :=
  match n with
  | O => Some offset
  | S n' =>
      if bool_decide (length buf < offset + 32)%nat then None
      else ReadMetaRevocations buf n' (offset + 32)%nat
  end.

(** [LeaseSet2::ReadMetaLS2TypeSpecificPart (buf, len)] *)
Definition ReadMetaLS2TypeSpecificPart (buf : list byte) : result nat :=
  let offset := 0%nat in
  propertiesLen ← bufbe16toh buf offset;
  let offset := (offset + 2)%nat in
  let offset := (offset + Z.to_nat propertiesLen)%nat in
  if bool_decide (length buf ≤ offset + 1)%nat then Ok 0%nat
  else
    numEntries ← read8 buf offset;
    let offset := (offset + 1)%nat in
    match ReadMetaEntries buf (byte_nat numEntries) offset with
    | None => Ok 0%nat
    | Some offset =>
        if bool_decide (length buf ≤ offset + 1)%nat then Ok 0%nat
        else
          numRevocations ← read8 buf offset;
          let offset := (offset + 1)%nat in
          match ReadMetaRevocations buf (byte_nat numRevocations) offset with
          | None => Ok 0%nat
          | Some offset => Ok offset
          end
    end.

(** The offline-key block of [LeaseSet2::ReadFromBuffer] and of
    [LeaseSet2::ReadFromBufferEncrypted], [signer] being the identity or
    the blinded verifier that certifies the offline key: [None] where the
    source returns, otherwise the keyed offline verifier and the offset
    after the block. *)
Definition ReadOfflineKey `{!SignatureVerifier V} (signer : V)
    (buf : list byte) (offset : nat)
    : result (option (Verifier * list byte * nat)) :=
  if bool_decide (length buf ≤ offset + 6)%nat then Ok None
  else
    let signedData := offset in
    let offset := (offset + 4)%nat in
    keyType ← bufbe16toh buf offset;
    let offset := (offset + 2)%nat in
    match CreateVerifier keyType with
    | None => Ok None
    | Some offlineVerifier =>
        let keyLen := GetPublicKeyLen offlineVerifier in
        if bool_decide (length buf ≤ offset + keyLen)%nat then Ok None
        else
          key ← read_bytes buf offset keyLen;
          let offset := (offset + keyLen)%nat in
          if bool_decide (length buf ≤ offset + signature_len signer)%nat
          then Ok None
          else
            signedBytes ← read_bytes buf signedData (keyLen + 6);
            signature ← read_bytes buf offset (signature_len signer);
            if verify_signature signer signedBytes signature
            then Ok (Some (offlineVerifier, key,
                           (offset + signature_len signer)%nat))
            else Ok None
    end.

(** [LeaseSet2::ReadFromBuffer (buf, len)] *)
Definition ReadFromBuffer2 (buf : list byte) (ts : Z) (s : LeaseSet2)
    : result LeaseSet2 :=
  let identity := IdentityEx_FromBuffer buf in
  let s := set_base (SetIdentity identity (base s)) s in
  let offset := GetFullLen identity in
  if bool_decide (length buf ≤ offset + 8)%nat then Ok s
  else
    timestamp ← bufbe32toh buf offset;
    let offset := (offset + 4)%nat in
    expires ← bufbe16toh buf offset;
    let offset := (offset + 2)%nat in
    let s :=
      set_base (SetExpirationTime (u32 (timestamp + expires) * 1000) (base s)) s in
    flags ← bufbe16toh buf offset;
    let offset := (offset + 2)%nat in
    offline ←
      (if Z.testbit flags 0 then
         r ← ReadOfflineKey identity buf offset;
         Ok (match r with
             | None => None
             | Some (v, key, offset) => Some (Some (v, key), offset)
             end)
       else Ok (Some (None, offset)));
    match offline with
    | None => Ok s
    | Some (offlineVerifier, offset) =>
        '(sz, s) ←
          (if bool_decide (m_StoreType s = NETDB_STORE_TYPE_STANDARD_LEASESET2)
           then at_offset offset
                  (ReadStandardLS2TypeSpecificPart (drop offset buf) ts s)
           else if bool_decide (m_StoreType s = NETDB_STORE_TYPE_META_LEASESET2)
           then sz ← at_offset offset
                       (ReadMetaLS2TypeSpecificPart (drop offset buf));
                Ok (sz, s)
           else Ok (0%nat, s));
        if bool_decide (sz = 0%nat) then Ok s
        else
          let offset := (offset + sz)%nat in
          verified ←
            match offlineVerifier with
            | Some v => VerifySignature v (m_StoreType s) buf offset
            | None => VerifySignature identity (m_StoreType s) buf offset
            end;
          Ok (set_base (SetIsValid verified (base s)) s)
    end.

(** [LeaseSet2::ReadFromBufferEncrypted (buf, len)] *)
Definition ReadFromBufferEncrypted (buf : list byte) (s : LeaseSet2)
    : result LeaseSet2 :=
  let offset := 0%nat in
  blindedKeyType ← bufbe16toh buf offset;
  let offset := (offset + 2)%nat in
  match CreateVerifier blindedKeyType with
  | None => Ok s
  | Some blindedVerifier =>
      let blindedKeyLen := GetPublicKeyLen blindedVerifier in
      if bool_decide (length buf ≤ offset + blindedKeyLen)%nat then Ok s
      else
        blindedKey ← read_bytes buf offset blindedKeyLen;
        let blinded := (blindedVerifier, blindedKey) in
        let offset := (offset + blindedKeyLen)%nat in
        if bool_decide (length buf ≤ offset + 8)%nat then Ok s
        else
          timestamp ← bufbe32toh buf offset;
          let offset := (offset + 4)%nat in
          expires ← bufbe16toh buf offset;
          let offset := (offset + 2)%nat in
          let s :=
            set_base
              (SetExpirationTime (u32 (timestamp + expires) * 1000) (base s)) s in
          flags ← bufbe16toh buf offset;
          let offset := (offset + 2)%nat in
          offline ←
            (if Z.testbit flags 0 then
               r ← ReadOfflineKey blinded buf offset;
               Ok (match r with
                   | None => None
                   | Some (v, key, offset) => Some (Some (v, key), offset)
                   end)
             else Ok (Some (None, offset)));
          match offline with
          | None => Ok s
          | Some (offlineVerifier, offset) =>
              if bool_decide (length buf < offset + 2)%nat then Ok s
              else
                lenOuterCiphertext ← bufbe16toh buf offset;
                let offset := (offset + 2 + Z.to_nat lenOuterCiphertext)%nat in
                verified ←
                  match offlineVerifier with
                  | Some v => VerifySignature v (m_StoreType s) buf offset
                  | None => VerifySignature blinded (m_StoreType s) buf offset
                  end;
                Ok (set_base (SetIsValid verified (base s)) s)
          end
  end.

(** [LeaseSet2::LeaseSet2 (storeType, buf, len, storeLeases)]; [h] is the
    heap the object is created in. *)
Definition LeaseSet2_FromBuffer (storeType : byte) (buf : list byte)
    (storeLeases : bool) (ts : Z) (h : list Lease) : result LeaseSet2 :=
  let s :=
    mkLeaseSet2 (SetBuffer buf (LeaseSet_empty storeLeases h)) storeType None in
  if bool_decide (storeType = NETDB_STORE_TYPE_ENCRYPTED_LEASESET2)
  then ReadFromBufferEncrypted buf s
  else ReadFromBuffer2 buf ts s.

End LeaseSet2.

(** ** Construction of the local LeaseSet2 *)

Record LocalLeaseSet := mkLocalLeaseSet {
  local_ExpirationTime : Z;
  local_Identity : IdentityEx;
  local_Buffer : list byte;
  local_BufferLen : nat
}.

Section LocalLeaseSet2.
Context `{!Env}.

(** One turn of the lease loop of [LocalLeaseSet2::LocalLeaseSet2]: the 40
    bytes written for a tunnel and the running maximum [expirationTime], a
    [uint32_t] of seconds, as is [ts]. *)
Definition local_lease2 (t : InboundTunnel) (expirationTime : Z)
    : list byte * Z :=
  let ts :=
    u32 (GetCreationTime t + TUNNEL_EXPIRATION_TIMEOUT
         - TUNNEL_EXPIRATION_THRESHOLD) in
  (take 32 (GetNextIdentHash t) ++ be_encode 4 (GetNextTunnelID t)
     ++ be_encode 4 ts,
   if expirationTime <? ts then ts else expirationTime).

Definition local_leases2 (tunnels : list InboundTunnel) : list byte * Z :=
  foldl (λ acc t, let r := local_lease2 t acc.2 in (acc.1 ++ r.1, r.2))
    ([], 0) tunnels.

(** [LocalLeaseSet2::LocalLeaseSet2]; [timestamp] is what
    [GetSecondsSinceEpoch ()], a [uint64_t], returns.  [m_Buffer] has
    [m_BufferLen + 1] bytes, the first being the store type; the bytes kept
    for the signature are not written by the constructor and stand here as
    zeros.  [expires] is the difference of a [uint32_t] and a [uint64_t],
    hence a [uint64_t]. *)
Definition LocalLeaseSet2_new (storeType : byte) (identity : IdentityEx)
    (keyType keyLen : Z) (encryptionPublicKey : list byte)
    (tunnels : list InboundTunnel) (timestamp : Z) : result LocalLeaseSet :=
  let num := length tunnels in
  let num := if bool_decide (MAX_NUM_LEASES < num)%nat then MAX_NUM_LEASES else num in
  let bufferLen :=
    (GetFullLen identity + 4 + 2 + 2 + 2 + 1 + 2 + 2 + Z.to_nat keyLen + 1
     + num * LEASE2_SIZE + GetSignatureLen identity)%nat in
  key ← read_bytes encryptionPublicKey 0 (Z.to_nat keyLen);
  let '(leases, expirationTime) := local_leases2 (take num tunnels) in
  let expires := u64 (expirationTime - timestamp) in
  let expiresBuf := be_encode 2 (if 0 <? expires then expires else 0) in
  Ok (mkLocalLeaseSet (expirationTime * 1000) identity
        ([storeType] ++ ToBuffer identity
           ++ be_encode 4 timestamp ++ expiresBuf
           ++ be_encode 2 0 ++ be_encode 2 0
           ++ [byte_of_Z 1] ++ be_encode 2 keyType ++ be_encode 2 keyLen
           ++ key
           ++ [byte_of_Z (Z.of_nat num)] ++ leases
           ++ replicate (GetSignatureLen identity) x00)
        bufferLen).

(** The two bytes at [expiresBuf]: after the store type, the identity and
    the published timestamp. *)
Definition local_expires_field (l : LocalLeaseSet) : list byte :=
  take 2 (drop (1 + length (ToBuffer (local_Identity l)) + 4) (local_Buffer l)).

End LocalLeaseSet2.

(** ** Construction of the legacy local LeaseSet *)

Section LocalLeaseSet.
Context `{!Env}.

(** The lease loop of the legacy [LocalLeaseSet::LocalLeaseSet].
    [GetCreationTime] is a [uint32_t] of seconds and the two tunnel
    constants are [int]s, so the advertised end of a tunnel is computed in
    32 bits before it becomes the [uint64_t] [ts], which is then taken to
    milliseconds; [currentTime] is a [uint64_t] of milliseconds, and so
    are the difference, its double and the quotient (the divisor must not
    be 0). *)
Definition local_lease_ts (t : InboundTunnel) : Z :=
  u64 (u32 (GetCreationTime t + TUNNEL_EXPIRATION_TIMEOUT
            - TUNNEL_EXPIRATION_THRESHOLD) * 1000).

Definition local_lease_end_date (currentTime : Z) (t : InboundTunnel) : Z :=
  u64 (local_lease_ts t
       + u64 (u64 (currentTime - GetCreationTime t * 1000) * 2)
         / u64 TUNNEL_EXPIRATION_TIMEOUT).

(** One turn: the 44 bytes written for a tunnel and the running maximum
    [m_ExpirationTime]. *)
Definition local_lease (currentTime : Z) (t : InboundTunnel)
    (expirationTime : Z) : list byte * Z :=
  (take 32 (GetNextIdentHash t) ++ be_encode 4 (GetNextTunnelID t)
     ++ be_encode 8 (local_lease_end_date currentTime t),
   if expirationTime <? local_lease_ts t then local_lease_ts t
   else expirationTime).

Definition local_leases (currentTime : Z) (tunnels : list InboundTunnel)
    : list byte * Z :=
  foldl (λ acc t, let r := local_lease currentTime t acc.2 in
                  (acc.1 ++ r.1, r.2))
    ([], 0) tunnels.

(** [LocalLeaseSet::LocalLeaseSet (identity, encryptionPublicKey, tunnels)];
    [currentTime] is what [GetMillisecondsSinceEpoch ()] returns.  The
    bytes are listed in the order they are written; those kept for the
    signature are not written by the constructor and stand here as
    zeros. *)
Definition LocalLeaseSet_new (identity : IdentityEx)
    (encryptionPublicKey : list byte) (tunnels : list InboundTunnel)
    (currentTime : Z) : result LocalLeaseSet :=
  let num := length tunnels in
  let num := if bool_decide (MAX_NUM_LEASES < num)%nat then MAX_NUM_LEASES else num in
  let signingKeyLen := GetSigningPublicKeyLen identity in
  let bufferLen :=
    (GetFullLen identity + 256 + signingKeyLen + 1 + num * LEASE_SIZE
     + GetSignatureLen identity)%nat in
  key ← read_bytes encryptionPublicKey 0 256;
  let '(leases, expirationTime) := local_leases currentTime (take num tunnels) in
  Ok (mkLocalLeaseSet expirationTime identity
        (ToBuffer identity ++ key ++ replicate signingKeyLen x00
           ++ [byte_of_Z (Z.of_nat num)] ++ leases
           ++ replicate (GetSignatureLen identity) x00)
        bufferLen).

(** [LocalLeaseSet::LocalLeaseSet (identity, buf, len)], [None] standing
    for a null [buf]. *)
Definition LocalLeaseSet_FromBuffer (identity : IdentityEx)
    (buf : option (list byte)) : LocalLeaseSet :=
  match buf with
  | Some b => mkLocalLeaseSet 0 identity b (length b)
  | None => mkLocalLeaseSet 0 identity [] 0
  end.

(** [LocalLeaseSet::IsExpired] *)
Definition LocalLeaseSet_IsExpired (ts : Z) (l : LocalLeaseSet) : bool :=
  local_ExpirationTime l <? ts.

End LocalLeaseSet.

(** ** Reference notions used to state the properties *)

(** The offset of the lease count in a legacy buffer headed by [ident]. *)
Definition legacy_count_offset (ident : IdentityEx) : nat :=
  GetFullLen ident + 256 + GetSigningPublicKeyLen ident.

(** The end dates of the leases a legacy buffer declares, in wire order:
    lease [i] starts [i * LEASE_SIZE] bytes after the count and its end
    date is its last eight bytes. *)
Definition legacy_end_dates (ident : IdentityEx) (buf : list byte) : list Z :=
  match buf !! legacy_count_offset ident with
  | None => []
  | Some num =>
      (λ i : nat, be_decode
         (take 8 (drop (legacy_count_offset ident + 1 + i * LEASE_SIZE + 36) buf)))
        <$> seq 0 (byte_nat num)
  end.

(** A legacy buffer holds its identity, keys, lease count and every lease
    it declares within its length. *)
Definition legacy_fits (ident : IdentityEx) (buf : list byte) : Prop :=
  ∃ num, buf !! legacy_count_offset ident = Some num ∧
    (legacy_count_offset ident + 1 + byte_nat num * LEASE_SIZE ≤ length buf)%nat.

(** The minimum end date the spec speaks of, 0 for no lease at all. *)
Definition spec_min_end_date (eds : list Z) : Z :=
  match eds with
  | [] => 0
  | e :: eds => foldl Z.min e eds
  end.

(** The update of the running timestamp in a turn of the loop of
    [ExtractTimestamp]. *)
Definition extract_step (timestamp ed : Z) : Z :=
  if (timestamp =? 0) || (ed <? timestamp) then ed else timestamp.

(** The maximum end date, 0 for no lease at all. *)
Definition spec_max_end_date (eds : list Z) : Z := foldl Z.max 0 eds.

(** *** The reconciliation *)

Section EngineNotions.
Context `{!Env}.

(** The test of [UpdateLease]: the lease has not expired at clock [ts]. *)
Definition unexpired (ts : Z) (l : Lease) : bool :=
  ts <? u64 (endDate l + LEASE_ENDDATE_THRESHOLD).

(** [q] is one of the pointers held in the set of leases. *)
Definition points_to (s : LeaseSet) (q : nat) : Prop :=
  q ∈ (map_to_list (m_Leases s)).*2.

#[global] Instance points_to_dec (s : LeaseSet) (q : nat) :
  Decision (points_to s q).
Proof. unfold points_to. apply _. Defined.

(** What a [std::set] ordered by [LeaseCmp] guarantees: every pointer of
    the set is stored under the key of the lease it points to. *)
Definition leases_keyed (s : LeaseSet) : Prop :=
  ∀ k p, m_Leases s !! k = Some p →
    ∃ l, heap s !! p = Some l ∧ lease_key l = k.

(** The [n] leases a legacy buffer holds from offset [off] on, as the loop
    of [ReadFromBuffer] reads them. *)
Definition parse_leases (buf : list byte) (off n : nat) : list Lease :=
  (λ i : nat,
     mkLease (take 32 (drop (off + i * LEASE_SIZE) buf))
       (be_decode (take 4 (drop (off + i * LEASE_SIZE + 32) buf)))
       (be_decode (take 8 (drop (off + i * LEASE_SIZE + 36) buf)))
       false) <$> seq 0 n.

(** [UpdateLease] for each lease of a list in turn. *)
Definition apply_leases (ts : Z) (ls : list Lease) (s : LeaseSet) : LeaseSet :=
  foldl (λ s l, UpdateLease l ts s) s ls.

(** The record [ReadFromBuffer] is left with after its loop over [ls], and
    after the whole reconciliation when some lease has not expired. *)
Definition legacy_loop (ts : Z) (ls : list Lease) (s : LeaseSet) : LeaseSet :=
  apply_leases ts ls (SetExpirationTime 0 (UpdateLeasesBegin s)).

Definition reconcile_legacy (ts : Z) (ls : list Lease) (s : LeaseSet)
    : LeaseSet :=
  let s := legacy_loop ts ls s in
  UpdateLeasesEnd
    (SetExpirationTime (u64 (m_ExpirationTime s + LEASE_ENDDATE_THRESHOLD)) s).

(** The leases of [ls] unexpired at [ts], by key, a later one replacing an
    earlier one of the same key, all marked. *)
Definition final_view (ts : Z) (ls : list Lease) : gmap LeaseKey Lease :=
  foldl (λ M l, if unexpired ts l
                then <[lease_key l := set_isUpdated true l]> M else M) ∅ ls.

(** What holds of the record [s] while the loop over the leases runs, [s0]
    being the record the loop started from and [F] the leases taken so
    far: the set is keyed, the pointers of [s0] are still there, the keys
    are those of [s0] and of [F], every object of the set is the lease [F]
    has for its key or else what it was in [s0], objects outside the set
    are as in [s0], and nothing was allocated if [s0] had all keys of [F]. *)
Definition loop_inv (s0 : LeaseSet) (F : gmap LeaseKey Lease) (s : LeaseSet)
    : Prop :=
  m_StoreLeases s = true ∧
  leases_keyed s ∧
  (∀ k p, m_Leases s0 !! k = Some p → m_Leases s !! k = Some p) ∧
  (∀ k, is_Some (m_Leases s !! k) →
        is_Some (m_Leases s0 !! k) ∨ is_Some (F !! k)) ∧
  (∀ k, is_Some (F !! k) → is_Some (m_Leases s !! k)) ∧
  (∀ k p, m_Leases s !! k = Some p →
     heap s !! p = match F !! k with
                   | Some x => Some x
                   | None => heap s0 !! p
                   end) ∧
  (∀ q, ¬ points_to s q → heap s !! q = heap s0 !! q) ∧
  ((∀ k, is_Some (F !! k) → is_Some (m_Leases s0 !! k)) →
     m_Leases s = m_Leases s0 ∧ length (heap s) = length (heap s0)) ∧
  (∀ k x, F !! k = Some x → isUpdated x = true).

(** The record [ReadFromBuffer] has once the identity and the encryption
    key are read, the leases its buffer declares and the offset at which
    they end and the signature starts. *)
Definition legacy_header_read (readIdentity : bool) (s : LeaseSet) : LeaseSet :=
  let ident := decode_identity readIdentity s in
  SetEncryptionKey (take 256 (drop (GetFullLen ident) (m_Buffer s)))
    (SetIdentity ident s).

Definition legacy_leases (ident : IdentityEx) (buf : list byte) : list Lease :=
  match buf !! legacy_count_offset ident with
  | None => []
  | Some num => parse_leases buf (legacy_count_offset ident + 1) (byte_nat num)
  end.

Definition legacy_signature_offset (ident : IdentityEx) (buf : list byte) : nat :=
  match buf !! legacy_count_offset ident with
  | None => 0
  | Some num => legacy_count_offset ident + 1 + byte_nat num * LEASE_SIZE
  end.

(** What a legacy buffer cut before its signature looks like to the
    decoders, [ident] being the identity they read from it: the identity
    fits, and either the buffer ends at or before the lease count, or the
    count is there, in range, and the leases it declares are not all
    there. *)
Definition cut_before_signature (ident : IdentityEx) (buf : list byte) : Prop :=
  (GetFullLen ident ≤ length buf)%nat ∧
  ((length buf ≤ legacy_count_offset ident)%nat ∨
   ∃ num, buf !! legacy_count_offset ident = Some num ∧
     (0 < byte_nat num ≤ MAX_NUM_LEASES)%nat ∧
     (length buf < legacy_count_offset ident + 1 + byte_nat num * LEASE_SIZE)%nat).

(** [m_ExpirationTime] after the loop over [ls], which starts from 0. *)
Definition loop_expiration (ts : Z) (ls : list Lease) : Z :=
  foldl (λ e l, if unexpired ts l && (e <? endDate l) then endDate l else e)
    0 ls.

(** [leases_keyed] as a check that can be run. *)
Definition leases_keyedb (s : LeaseSet) : bool :=
  forallb
    (λ kp : LeaseKey * nat,
       match heap s !! kp.2 with
       | Some l => bool_decide (lease_key l = kp.1)
       | None => false
       end)
    (map_to_list (m_Leases s)).

(** Two records hold the same leases: the same mode, the same pointers and
    the same objects. *)
Definition same_leases (s s' : LeaseSet) : Prop :=
  m_StoreLeases s = m_StoreLeases s' ∧ m_Leases s = m_Leases s' ∧
  heap s = heap s'.

(** What [UpdateLeasesEnd] does to the object of an element it visits. *)
Definition prune_mark (x : Lease) : Lease :=
  if isUpdated x then x else set_endDate 0 x.

(** The gateways [UpdateLease] asks the network database for while the
    leases [ls] are read at clock [ts]: those of the unexpired leases whose
    gateway it does not know, one request per lease, in wire order. *)
Definition requested_gateways (ts : Z) (ls : list Lease) : list (list byte) :=
  tunnelGateway <$>
    filter (λ l, unexpired ts l = true ∧ FindRouter (tunnelGateway l) = false) ls.

(** The expiration time the header of a standard or meta LeaseSet2
    declares, in milliseconds: published timestamp plus [expires], both in
    seconds and added in 32 bits. *)
Definition ls2_header_expiration (buf : list byte) : Z :=
  let offset := GetFullLen (IdentityEx_FromBuffer buf) in
  u32 (be_decode (take 4 (drop offset buf))
       + be_decode (take 2 (drop (offset + 4) buf))) * 1000.

End EngineNotions.

(** *** LeaseSet2 *)

(** [buf], received under store type [storeType], carries at some offset a
    signature that [verifier] accepts for the store type followed by the
    bytes before the signature. *)
Definition ls2_signed_by `{!SignatureVerifier V} (verifier : V)
    (storeType : byte) (buf : list byte) : Prop :=
  ∃ offset : nat,
    (offset + signature_len verifier ≤ length buf)%nat ∧
    verify_signature verifier (storeType :: take offset buf)
      (take (signature_len verifier) (drop offset buf)) = true.

Section LeaseSet2Notions.
Context `{!Env}.

(** The offline-key block at [offset] of [buf] (expiry, key type, key,
    signature) gives the verifier [v] keyed with [key], certified by
    [signer]: [v] is made for the key type of the block, [key] are the
    bytes after the type, and [signer] accepts the signature that follows
    for the block up to there; the signature ends before the end of the
    buffer. *)
Definition ls2_offline_key `{!SignatureVerifier V} (signer : V)
    (buf : list byte) (offset : nat) (v : Verifier) (key : list byte) : Prop :=
  (∃ keyType, bufbe16toh buf (offset + 4) = Ok keyType ∧
              CreateVerifier keyType = Some v) ∧
  key = take (GetPublicKeyLen v) (drop (offset + 6) buf) ∧
  (offset + 6 + GetPublicKeyLen v + signature_len signer < length buf)%nat ∧
  verify_signature signer (take (GetPublicKeyLen v + 6) (drop offset buf))
    (take (signature_len signer) (drop (offset + 6 + GetPublicKeyLen v) buf))
  = true.

End LeaseSet2Notions.



(** Modelled from the spec: the constructor leaves the buffer unsigned and
    the signature is written by its caller, over the bytes the constructor
    keeps for it at the end of the buffer.  A local LeaseSet2 as it is
    published: its buffer after the first byte, the store type, which a
    receiver is given apart from the buffer, with [signature] in place. *)
Definition ls2_published (l : LocalLeaseSet) (signature : list byte)
    : list byte :=
  take (local_BufferLen l - length signature) (drop 1 (local_Buffer l))
    ++ signature.

(** Modelled from the spec: the constructor leaves the buffer unsigned and
    the signature is written by its caller, over the bytes the constructor
    keeps for it at the end of the buffer.  A legacy local LeaseSet as it
    is published: its buffer with [signature] in place. *)
Definition ls_published (l : LocalLeaseSet) (signature : list byte)
    : list byte :=
  take (local_BufferLen l - length signature) (local_Buffer l) ++ signature.


(** ** Sample collaborators and buffers

    A fixed environment to run the decoders on: identities of 387 bytes
    with a 128-byte signing key and 40-byte signatures, a signature being
    accepted when it consists of forty bytes 01; sixteen leases at most and
    a threshold of 51 seconds; ten-minute tunnels advertised until one
    minute before they expire. *)

Definition sample_identity : IdentityEx :=
  {| GetFullLen := 387;
     GetSigningPublicKeyLen := 128;
     GetSignatureLen := 40;
     Verify := λ _ signature, bool_decide (signature = replicate 40 x01);
     ToBuffer := replicate 387 x00 |}.

Definition sample_env : Env :=
  {| MAX_NUM_LEASES := 16;
     LEASE_ENDDATE_THRESHOLD := 51000;
     TUNNEL_EXPIRATION_TIMEOUT := 660;
     TUNNEL_EXPIRATION_THRESHOLD := 60;
     IdentityEx_FromBuffer := λ _, sample_identity;
     CreateVerifier := λ _, None;
     CreateEncryptor := λ _ _, None;
     FindRouter := λ _, true;
     NETDB_STORE_TYPE_STANDARD_LEASESET2 := x03;
     NETDB_STORE_TYPE_ENCRYPTED_LEASESET2 := x05;
     NETDB_STORE_TYPE_META_LEASESET2 := x07 |}.

(** A legacy lease on the wire: gateway (32 bytes [gw]), tunnel id, end
    date in milliseconds. *)
Definition sample_lease (gw : byte) (tid ed : Z) : list byte :=
  replicate 32 gw ++ be_encode 4 tid ++ be_encode 8 ed.

(** The bytes of a legacy lease set before its signature: identity,
    encryption key, unused signing key, lease count, leases. *)
Definition sample_legacy_body (leases : list (list byte)) : list byte :=
  replicate 387 x00 ++ replicate 256 x11 ++ replicate 128 x00
    ++ [byte_of_Z (Z.of_nat (length leases))] ++ concat leases.

Definition sample_legacy (leases : list (list byte)) : list byte :=
  sample_legacy_body leases ++ replicate 40 x01.

Definition sample_unsigned (leases : list (list byte)) : list byte :=
  sample_legacy_body leases ++ replicate 40 x00.

(** The record the sample environment decodes from [buf] at clock [ts],
    leases stored, in an empty heap. *)
Definition sample_decoded (buf : list byte) (ts : Z) : LeaseSet :=
  match @LeaseSet_FromBuffer sample_env buf true ts [] with
  | Ok s => s
  | OutOfBounds _ => LeaseSet_empty true []
  end.

Definition sample_100_900 : list byte :=
  sample_legacy [sample_lease x0a 1 100; sample_lease x0b 2 900].
Definition sample_200_300 : list byte :=
  sample_legacy [sample_lease x0a 1 200; sample_lease x0b 2 300].
Definition sample_0_500 : list byte :=
  sample_legacy [sample_lease x0a 1 0; sample_lease x0b 2 500].

(** A record decoded while the clock still read 0, holding one lease that
    ends at millisecond 10. *)
Definition sample_early : LeaseSet :=
  sample_decoded (sample_legacy [sample_lease x0a 1 10]) 0.

(** A tunnel created at second 1700000000 and the local LeaseSet2 built
    from it 630 seconds later, half a minute after the end date it
    advertises. *)
Definition sample_tunnel : InboundTunnel :=
  {| GetNextIdentHash := replicate 32 x0a;
     GetNextTunnelID := 7;
     GetCreationTime := 1700000000 |}.

Definition sample_local : LocalLeaseSet :=
  match @LocalLeaseSet2_new sample_env x03 sample_identity 0 32
          (replicate 32 x22) [sample_tunnel] 1700000630 with
  | Ok l => l
  | OutOfBounds _ => mkLocalLeaseSet 0 sample_identity [] 0
  end.

(** A legacy lease set of two leases, valid when decoded at clock 200000:
    its signature starts at offset 860. *)
Definition sample_two_leases : list byte :=
  sample_legacy [sample_lease x0a 1 300000; sample_lease x0b 2 400000].

Definition sample_late : LeaseSet := sample_decoded sample_two_leases 200000.

(** Both legacy decoders, run on the first [n] bytes of [buf], read at an
    index at or past [n]. *)
Definition reads_past_truncation (buf : list byte) (ts : Z) (n : nat) : bool :=
  match @LeaseSet_FromBuffer sample_env (take n buf) true ts [] with
  | OutOfBounds i => bool_decide (n ≤ i)%nat
  | Ok _ => false
  end &&
  match @LeaseSetBufferValidate sample_env (take n buf) with
  | OutOfBounds i => bool_decide (n ≤ i)%nat
  | Ok _ => false
  end.

(** A v2 lease on the wire: gateway, tunnel id, end date in seconds. *)
Definition sample_lease2 (gw : byte) (tid ed : Z) : list byte :=
  replicate 32 gw ++ be_encode 4 tid ++ be_encode 4 ed.

(** A standard LeaseSet2 published at second 1000 for 600 seconds, without
    offline key or properties, with one 32-byte encryption key, the given
    lease count and leases, and a signature the sample identity accepts. *)
Definition sample_ls2 (count : Z) (leases : list (list byte)) : list byte :=
  replicate 387 x00 ++ be_encode 4 1000 ++ be_encode 2 600 ++ be_encode 2 0
    ++ be_encode 2 0
    ++ [x01] ++ be_encode 2 0 ++ be_encode 2 32 ++ replicate 32 x22
    ++ [byte_of_Z count] ++ concat leases
    ++ replicate 40 x01.

Definition sample_17_leases2 : list (list byte) :=
  (λ i : nat, sample_lease2 x0a (Z.of_nat i) 1500) <$> seq 0 17.

(** The standard LeaseSet2 the sample environment decodes from [buf] at
    clock 200000, leases stored. *)
Definition sample_decoded2 (buf : list byte) : LeaseSet2 :=
  match @LeaseSet2_FromBuffer sample_env x03 buf true 200000 [] with
  | Ok s => s
  | OutOfBounds _ => mkLeaseSet2 (LeaseSet_empty true []) x03 None
  end.

(** A record holding three leases A, B and C, decoded at clock 200000; a
    later lease set with A, its end date moved, and a new lease D; the
    record updated from it at clock 250000; and the same lease set with a
    signature that does not verify. *)
Definition sample_ABC : LeaseSet :=
  sample_decoded
    (sample_legacy [sample_lease x0a 1 300000; sample_lease x0b 2 300000;
                    sample_lease x0c 3 300000])
    200000.

Definition sample_AD : list byte :=
  sample_legacy [sample_lease x0a 1 350000; sample_lease x0d 4 500000].

Definition sample_AD_unsigned : list byte :=
  sample_unsigned [sample_lease x0a 1 350000; sample_lease x0d 4 500000].

Definition sample_updated : LeaseSet :=
  match @Update sample_env sample_AD true 250000 sample_ABC with
  | Ok s => s
  | OutOfBounds _ => LeaseSet_empty true []
  end.

Definition sample_lease_A : Lease := mkLease (replicate 32 x0a) 1 300000 true.
Definition sample_lease_B : Lease := mkLease (replicate 32 x0b) 2 300000 true.
Definition sample_lease_C : Lease := mkLease (replicate 32 x0c) 3 300000 true.
Definition sample_lease_A' : Lease := mkLease (replicate 32 x0a) 1 350000 false.
Definition sample_lease_D : Lease := mkLease (replicate 32 x0d) 4 500000 false.

(** The sample lease set of two leases decoded at clock 200000 without
    storing its leases. *)
Definition sample_not_stored : LeaseSet :=
  match @LeaseSet_FromBuffer sample_env sample_two_leases false 200000 [] with
  | Ok s => s
  | OutOfBounds _ => LeaseSet_empty false []
  end.

(** The sample LeaseSet2 without leases, decoded without storing leases. *)
Definition sample_decoded2_unstored : LeaseSet2 :=
  match @LeaseSet2_FromBuffer sample_env x03 (sample_ls2 0 []) false 200000 []
  with
  | Ok s => s
  | OutOfBounds _ => mkLeaseSet2 (LeaseSet_empty false []) x03 None
  end.

(** Two tunnels created 100 seconds apart and the legacy local lease set
    built from them at a given clock, in milliseconds. *)
Definition sample_tunnel_b : InboundTunnel :=
  {| GetNextIdentHash := replicate 32 x0b;
     GetNextTunnelID := 8;
     GetCreationTime := 1700000100 |}.

Definition sample_tunnels : list InboundTunnel := [sample_tunnel; sample_tunnel_b].

Definition sample_local_legacy (currentTime : Z) : LocalLeaseSet :=
  match @LocalLeaseSet_new sample_env sample_identity (replicate 256 x11)
          sample_tunnels currentTime with
  | Ok l => l
  | OutOfBounds _ => mkLocalLeaseSet 0 sample_identity [] 0
  end.

(** The local LeaseSet2 built from the sample tunnel 500 seconds after its
    creation, 100 seconds before the end date it advertises. *)
Definition sample_local2 : LocalLeaseSet :=
  match @LocalLeaseSet2_new sample_env x03 sample_identity 0 32
          (replicate 32 x22) [sample_tunnel] 1700000500 with
  | Ok l => l
  | OutOfBounds _ => mkLocalLeaseSet 0 sample_identity [] 0
  end.

(** A standard LeaseSet2 whose header gives second 1600 as its expiration
    and whose only lease ends at second 1700. *)
Definition sample_ls2_late_lease : list byte :=
  sample_ls2 1 [sample_lease2 x0a 1 1700].

(** A record that knows no gateway: every lookup in the network database
    fails. *)
Definition sample_env_unknown : Env :=
  {| MAX_NUM_LEASES := 16;
     LEASE_ENDDATE_THRESHOLD := 51000;
     TUNNEL_EXPIRATION_TIMEOUT := 660;
     TUNNEL_EXPIRATION_THRESHOLD := 60;
     IdentityEx_FromBuffer := λ _, sample_identity;
     CreateVerifier := λ _, None;
     CreateEncryptor := λ _ _, None;
     FindRouter := λ _, false;
     NETDB_STORE_TYPE_STANDARD_LEASESET2 := x03;
     NETDB_STORE_TYPE_ENCRYPTED_LEASESET2 := x05;
     NETDB_STORE_TYPE_META_LEASESET2 := x07 |}.

(** The lease set with A and D decoded by a record that stores leases
    while no gateway is known. *)
Definition sample_gateways_unknown : LeaseSet :=
  match @LeaseSet_FromBuffer sample_env_unknown sample_AD true 250000 [] with
  | Ok s => s
  | OutOfBounds _ => LeaseSet_empty true []
  end.

(** ** Properties *)

Section ReadLemmas.

Lemma read_bytes_ok (buf : list byte) (off n : nat) :
  (off + n ≤ length buf)%nat →
  read_bytes buf off n = Ok (take n (drop off buf)).
Proof.
  intros H. unfold read_bytes. rewrite bool_decide_eq_true_2; [done|by right].
Qed.

Lemma read_bytes_oob (buf : list byte) (off n : nat) :
  (0 < n)%nat → (length buf < off + n)%nat →
  read_bytes buf off n = OutOfBounds (off `max` length buf).
Proof.
  intros H0 H. unfold read_bytes. rewrite bool_decide_eq_false_2; [done|lia].
Qed.

Lemma read_bytes_index (buf : list byte) (off n i : nat) :
  read_bytes buf off n = OutOfBounds i → (length buf ≤ i)%nat.
Proof.
  unfold read_bytes. case_bool_decide; [done|]. intros [= <-]. lia.
Qed.

Lemma read8_index (buf : list byte) (off i : nat) :
  read8 buf off = OutOfBounds i → (length buf ≤ i)%nat.
Proof.
  unfold read8. destruct (buf !! off) eqn:E; [done|].
  intros [= <-]. by apply lookup_ge_None.
Qed.

Lemma bufbe64toh_ok (buf : list byte) (off : nat) :
  (off + 8 ≤ length buf)%nat →
  bufbe64toh buf off = Ok (be_decode (take 8 (drop off buf))).
Proof. intros H. unfold bufbe64toh. by rewrite read_bytes_ok. Qed.

End ReadLemmas.

Section Freshness.
Context `{!Env}.

(** *** ExpiresSoon *)

(** C8: with window 0 and jitter 0, [ExpiresSoon] answers true exactly
    when the current time has reached the aggregate expiration time, the
    instant [now = m_ExpirationTime] included; both are [uint64_t]. *)
Theorem ExpiresSoon_zero_window_zero_jitter (now rnd : Z) (s : LeaseSet) :
  0 ≤ now < 2 ^ 64 → 0 ≤ m_ExpirationTime s < 2 ^ 64 →
  ExpiresSoon 0 0 now rnd s = true ↔ m_ExpirationTime s ≤ now.
Proof.
  intros Hn He. unfold ExpiresSoon. simpl.
  destruct (Z.leb_spec (m_ExpirationTime s) now) as [Hle|Hlt].
  - done.
  - split; [|lia]. intros Hd. apply Z.leb_le in Hd.
    unfold u64 in Hd. rewrite Z.mod_small in Hd by lia. lia.
Qed.

(** *** ExtractTimestamp *)

Lemma ExtractLeases_fold (buf : list byte) (n size : nat) (t : Z) :
  (size + n * LEASE_SIZE ≤ length buf)%nat →
  ExtractLeases buf n size t =
    Ok (foldl extract_step t
          ((λ i : nat, be_decode (take 8 (drop (size + i * LEASE_SIZE + 36) buf)))
             <$> seq 0 n)).
Proof.
  revert size t. induction n as [|n IH]; intros size t Hfit; [done|].
  unfold LEASE_SIZE in *. cbn [ExtractLeases].
  rewrite bufbe64toh_ok by lia. cbn [mbind result_bind].
  rewrite IH by lia. cbn [seq fmap list_fmap foldl].
  rewrite <- (fmap_S_seq 0 n), <- list_fmap_compose.
  replace (size + 0 * 44 + 36)%nat with (size + 36)%nat by lia.
  do 2 f_equal. apply list_fmap_ext. intros i x _. cbn.
  do 3 f_equal. lia.
Qed.

Lemma extract_step_min (t : Z) (eds : list Z) :
  t ≠ 0 → Forall (λ e, e ≠ 0) eds →
  foldl extract_step t eds = foldl Z.min t eds.
Proof.
  intros Ht Hall. revert t Ht. induction Hall as [|e eds He _ IH]; intros t Ht; [done|].
  cbn [foldl]. assert (extract_step t e = Z.min t e) as ->.
  { unfold extract_step. destruct (Z.eqb_spec t 0); [done|]. cbn.
    destruct (Z.ltb_spec e t); lia. }
  apply IH. lia.
Qed.

Lemma extract_fold_spec (eds : list Z) :
  Forall (λ e, e ≠ 0) eds →
  foldl extract_step 0 eds = spec_min_end_date eds.
Proof.
  intros Hall. destruct Hall as [|e eds He Hall]; [done|].
  cbn. by apply extract_step_min.
Qed.

(** What [ExtractTimestamp] computes on a buffer that holds what it
    declares: the fold of [extract_step] over the end dates. *)
Lemma ExtractTimestamp_fits (buf : list byte) (s : LeaseSet) (ident : IdentityEx) :
  m_Identity s = Some ident → legacy_fits ident buf →
  ExtractTimestamp buf s =
    Ok (foldl extract_step 0 (legacy_end_dates ident buf)).
Proof.
  intros Hid (num & Hnum & Hfit). unfold ExtractTimestamp, legacy_end_dates.
  rewrite Hid. unfold legacy_count_offset in *.
  apply lookup_lt_Some in Hnum as Hlt.
  rewrite bool_decide_eq_false_2 by lia.
  rewrite bool_decide_eq_false_2 by lia.
  unfold read8. rewrite Hnum. cbn [mbind result_bind].
  rewrite bool_decide_eq_false_2 by lia.
  by rewrite ExtractLeases_fold by lia.
Qed.

(** C6: on a buffer that holds the leases it declares, none with end date
    zero, [ExtractTimestamp] is the minimum end date, and [IsNewer] holds
    exactly when the candidate's minimum exceeds that of the record's own
    buffer. *)
Theorem ExtractTimestamp_min_IsNewer (buf : list byte) (s : LeaseSet)
    (ident : IdentityEx) :
  m_Identity s = Some ident →
  legacy_fits ident buf → legacy_fits ident (m_Buffer s) →
  Forall (λ e, e ≠ 0) (legacy_end_dates ident buf) →
  Forall (λ e, e ≠ 0) (legacy_end_dates ident (m_Buffer s)) →
  ExtractTimestamp buf s = Ok (spec_min_end_date (legacy_end_dates ident buf)) ∧
  IsNewer buf s =
    Ok (spec_min_end_date (legacy_end_dates ident (m_Buffer s))
        <? spec_min_end_date (legacy_end_dates ident buf)).
Proof.
  intros Hid Hb Hs Hnzb Hnzs.
  assert (ExtractTimestamp buf s
          = Ok (spec_min_end_date (legacy_end_dates ident buf))) as E1.
  { rewrite (ExtractTimestamp_fits _ _ ident) by done.
    by rewrite extract_fold_spec. }
  split; [done|]. unfold IsNewer. rewrite E1. cbn [mbind result_bind].
  rewrite (ExtractTimestamp_fits _ _ ident) by done.
  by rewrite extract_fold_spec.
Qed.

(** C10: a candidate that ends right where the lease count should be has
    its count read all the same, one byte past its length: the check before
    the read lets [size = len] through. *)
Theorem ExtractTimestamp_reads_count_past_length (buf : list byte)
    (s : LeaseSet) (ident : IdentityEx) :
  m_Identity s = Some ident →
  length buf = legacy_count_offset ident →
  ExtractTimestamp buf s = OutOfBounds (length buf).
Proof.
  intros Hid Hlen. unfold ExtractTimestamp. rewrite Hid.
  unfold legacy_count_offset in Hlen.
  rewrite bool_decide_eq_false_2 by lia.
  rewrite bool_decide_eq_false_2 by lia.
  unfold read8. rewrite lookup_ge_None_2 by lia. cbn. f_equal. lia.
Qed.

(** The other candidates that do not hold what they declare are answered
    0 with every read inside the buffer, and are never newer. *)
Lemma ExtractTimestamp_malformed (buf : list byte) (s : LeaseSet)
    (ident : IdentityEx) :
  m_Identity s = Some ident →
  (length buf < legacy_count_offset ident)%nat ∨
  (∃ num, buf !! legacy_count_offset ident = Some num ∧
     (length buf < legacy_count_offset ident + 1 + byte_nat num * LEASE_SIZE)%nat) →
  ExtractTimestamp buf s = Ok 0.
Proof.
  intros Hid Hbad. unfold ExtractTimestamp. rewrite Hid.
  unfold legacy_count_offset in Hbad.
  case_bool_decide; [done|]. case_bool_decide; [done|].
  destruct Hbad as [?|(num & Hnum & Hshort)]; [lia|].
  unfold read8. rewrite Hnum. cbn [mbind result_bind].
  by rewrite bool_decide_eq_true_2 by lia.
Qed.

Lemma IsNewer_malformed (buf : list byte) (s : LeaseSet) (current : Z) :
  ExtractTimestamp buf s = Ok 0 →
  ExtractTimestamp (m_Buffer s) s = Ok current → 0 ≤ current →
  IsNewer buf s = Ok false.
Proof.
  intros E1 E2 Hc. unfold IsNewer. rewrite E1, E2. cbn. f_equal.
  apply Z.ltb_ge. lia.
Qed.

End Freshness.

(** The comparison of the spec's example: end dates {100, 900} are not
    newer than {200, 300}. *)
Lemma ExtractTimestamp_min_IsNewer_witness :
  IsNewer sample_100_900 (sample_decoded sample_200_300 0) = Ok false.
Proof.
  destruct (ExtractTimestamp_min_IsNewer sample_100_900
              (sample_decoded sample_200_300 0) sample_identity) as [_ E].
  - reflexivity.
  - exists x02. split; [reflexivity|]. vm_compute. lia.
  - exists x02. split; [reflexivity|]. vm_compute. lia.
  - vm_compute. repeat constructor; discriminate.
  - vm_compute. repeat constructor; discriminate.
  - rewrite E. reflexivity.
Defined.

(** C6, as stated, fails: end date 0 doubles as "no timestamp yet", so
    after a lease with end date 0 the minimum starts afresh.  The candidate
    with end dates {0, 500} is given timestamp 500, not its minimum 0, and
    is judged newer than the record with {200, 300}. *)
Lemma ExtractTimestamp_zero_end_date_counterexample :
  let s := sample_decoded sample_200_300 0 in
  m_IsValid s = true ∧
  legacy_fits sample_identity sample_0_500 ∧
  ExtractTimestamp sample_0_500 s = Ok 500 ∧
  spec_min_end_date (legacy_end_dates sample_identity sample_0_500) = 0 ∧
  spec_min_end_date (legacy_end_dates sample_identity (m_Buffer s)) = 200 ∧
  IsNewer sample_0_500 s = Ok true.
Proof.
  cbv zeta. split_and!; try (vm_compute; reflexivity).
  exists x02. split; [vm_compute; reflexivity|]. vm_compute. lia.
Qed.

Lemma ExtractTimestamp_reads_count_past_length_witness :
  ExtractTimestamp (take 771 sample_200_300) (sample_decoded sample_200_300 0)
  = OutOfBounds 771.
Proof.
  apply (ExtractTimestamp_reads_count_past_length
           (take 771 sample_200_300) (sample_decoded sample_200_300 0)
           sample_identity); reflexivity.
Defined.

Lemma ExpiresSoon_zero_window_zero_jitter_witness :
  ExpiresSoon 0 0 51300 0 (sample_decoded sample_200_300 0) = true ↔
  m_ExpirationTime (sample_decoded sample_200_300 0) ≤ 51300.
Proof.
  apply ExpiresSoon_zero_window_zero_jitter; vm_compute; split; congruence.
Defined.

Section Selection.
Context `{!Env}.

Lemma elem_of_foldl_select {A} (c : A → bool) (f : A → nat) (l : list A)
    (acc : list nat) (p : nat) :
  p ∈ foldl (λ leases x, if c x then leases ++ [f x] else leases) acc l ↔
  p ∈ acc ∨ ∃ x, x ∈ l ∧ f x = p ∧ c x = true.
Proof.
  revert acc. induction l as [|x l IH]; intros acc; cbn [foldl].
  - split; [by left|]. intros [?|(x & Hx & _)]; [done|]. by apply elem_of_nil in Hx.
  - rewrite IH. split.
    + intros [Hp|(y & Hy & Hf & Hc)].
      * destruct (c x) eqn:Hcx.
        -- apply elem_of_app in Hp as [?|Hp]; [by left|].
           apply list_elem_of_singleton in Hp. right. exists x.
           split_and!; [by left|done|done].
        -- by left.
      * right. exists y. split_and!; [by right|done|done].
    + intros [Hp|(y & Hy & Hf & Hc)].
      * left. destruct (c x); [|done]. apply elem_of_app. by left.
      * apply elem_of_cons in Hy as [->|Hy].
        -- left. rewrite Hc. apply elem_of_app. right. rewrite Hf.
           by apply list_elem_of_singleton.
        -- right. by exists y.
Qed.

(** The leases [GetNonExpiredLeasesExcluding] returns. *)
Lemma elem_of_GetNonExpiredLeasesExcluding (exclude : Lease → bool)
    (withThreshold : bool) (ts : Z) (s : LeaseSet) (p : nat) :
  p ∈ GetNonExpiredLeasesExcluding exclude withThreshold ts s ↔
  ∃ k, m_Leases s !! k = Some p ∧
    (ts <? (if withThreshold
            then u64 (endDate (heap s !!! p) + LEASE_ENDDATE_THRESHOLD)
            else u64 (endDate (heap s !!! p) - LEASE_ENDDATE_THRESHOLD)))
    && negb (exclude (heap s !!! p)) = true.
Proof.
  unfold GetNonExpiredLeasesExcluding.
  rewrite (elem_of_foldl_select
    (λ kp : LeaseKey * nat,
       (ts <? (if withThreshold
               then u64 (endDate (heap s !!! kp.2) + LEASE_ENDDATE_THRESHOLD)
               else u64 (endDate (heap s !!! kp.2) - LEASE_ENDDATE_THRESHOLD)))
       && negb (exclude (heap s !!! kp.2))) snd).
  split.
  - intros [Hp|([k q] & Hin & Hq & Hc)]; [by apply elem_of_nil in Hp|].
    cbn in Hq. subst q. exists k. split; [|done].
    by apply elem_of_map_to_list in Hin.
  - intros (k & Hk & Hc). right. exists (k, p). split_and!; [|done|done].
    by apply elem_of_map_to_list.
Qed.

(** C7: for a record whose leases all have an end date of at least the
    threshold and below 2^64 minus the threshold, so that neither the
    addition nor the subtraction of the threshold wraps around, the leases
    returned with [withThreshold = true] include those returned with
    [withThreshold = false], for the same clock and the same exclusion. *)
Theorem GetNonExpiredLeasesExcluding_threshold_superset
    (exclude : Lease → bool) (ts : Z) (s : LeaseSet) :
  0 ≤ LEASE_ENDDATE_THRESHOLD →
  (∀ k p, m_Leases s !! k = Some p →
     LEASE_ENDDATE_THRESHOLD ≤ endDate (heap s !!! p) ∧
     endDate (heap s !!! p) + LEASE_ENDDATE_THRESHOLD < 2 ^ 64) →
  GetNonExpiredLeasesExcluding exclude false ts s
  ⊆ GetNonExpiredLeasesExcluding exclude true ts s.
Proof.
  intros HT Hrange p. rewrite !elem_of_GetNonExpiredLeasesExcluding.
  intros (k & Hk & Hc). exists k. split; [done|].
  destruct (Hrange k p Hk) as [Hlo Hhi].
  apply andb_true_iff in Hc as [Hts Hex]. apply andb_true_iff. split; [|done].
  apply Z.ltb_lt in Hts. apply Z.ltb_lt. unfold u64 in *.
  rewrite Z.mod_small in Hts by lia. rewrite Z.mod_small by lia. lia.
Qed.

(** A lease that [UpdateLease] takes when the clock reads at least twice
    the threshold has its end date in that range. *)
Lemma unexpired_end_date_range (ts ed : Z) :
  0 ≤ ed < 2 ^ 64 → 0 ≤ LEASE_ENDDATE_THRESHOLD →
  2 * LEASE_ENDDATE_THRESHOLD ≤ ts →
  (ts <? u64 (ed + LEASE_ENDDATE_THRESHOLD)) = true →
  LEASE_ENDDATE_THRESHOLD ≤ ed ∧ ed + LEASE_ENDDATE_THRESHOLD < 2 ^ 64.
Proof.
  intros Hed HT Hts Hun. apply Z.ltb_lt in Hun. unfold u64 in Hun.
  destruct (Z_lt_ge_dec (ed + LEASE_ENDDATE_THRESHOLD) (2 ^ 64)) as [Hs|Hb].
  - rewrite Z.mod_small in Hun by lia. lia.
  - exfalso.
    assert ((ed + LEASE_ENDDATE_THRESHOLD) mod 2 ^ 64
            = ed + LEASE_ENDDATE_THRESHOLD - 2 ^ 64 ∨
            2 ^ 64 ≤ LEASE_ENDDATE_THRESHOLD) as [E|E].
    { destruct (Z_lt_ge_dec LEASE_ENDDATE_THRESHOLD (2 ^ 64)); [left|right; lia].
      symmetry. apply (Z.mod_unique _ _ 1); lia. }
    + lia.
    + pose proof (Z.mod_pos_bound (ed + LEASE_ENDDATE_THRESHOLD) (2 ^ 64)). lia.
Qed.

End Selection.

Lemma GetNonExpiredLeasesExcluding_threshold_superset_witness :
  @GetNonExpiredLeasesExcluding sample_env (λ _, false) false 250000 sample_late
  ⊆ @GetNonExpiredLeasesExcluding sample_env (λ _, false) true 250000 sample_late.
Proof.
  apply (@GetNonExpiredLeasesExcluding_threshold_superset sample_env).
  - vm_compute. congruence.
  - apply (bool_decide_unpack
      (map_Forall (λ (_ : LeaseKey) (p : nat),
         51000 ≤ endDate (heap sample_late !!! p) ∧
         endDate (heap sample_late !!! p) + 51000 < 2 ^ 64)
         (m_Leases sample_late))).
    vm_compute. exact I.
Defined.

(** C7, as stated, fails: the subtraction of the threshold is unsigned.  A
    lease that ends at millisecond 10 is held by a record decoded when the
    clock read 0; at clock 60000 it is returned without the threshold
    (10 - 51000 wraps to a date far ahead) and not returned with it
    (51010 is past). *)
Lemma GetNonExpiredLeasesExcluding_wraps_counterexample :
  m_IsValid sample_early = true ∧
  @GetNonExpiredLeasesExcluding sample_env (λ _, false) false 60000 sample_early
    = [0%nat] ∧
  @GetNonExpiredLeasesExcluding sample_env (λ _, false) true 60000 sample_early
    = [] ∧
  ¬ (@GetNonExpiredLeasesExcluding sample_env (λ _, false) false 60000 sample_early
     ⊆ @GetNonExpiredLeasesExcluding sample_env (λ _, false) true 60000 sample_early).
Proof.
  split_and!; try (vm_compute; reflexivity).
  intros Hsub. specialize (Hsub 0%nat).
  vm_compute in Hsub. 
  assert (0%nat ∈ [0%nat]) as Hin by (by left).
  apply Hsub in Hin. by apply elem_of_nil in Hin.
Qed.

Section Local.
Context `{!Env}.

Lemma byte_val_of_Z (z : Z) : byte_val (byte_of_Z z) = z mod 256.
Proof.
  unfold byte_val, byte_of_Z.
  pose proof (Z.mod_pos_bound z 256 eq_refl) as Hb.
  destruct (Byte.of_N (Z.to_N (z mod 256))) as [b|] eqn:E.
  - apply Byte.to_of_N in E. cbn. rewrite E. lia.
  - apply Byte.of_N_None_iff in E. lia.
Qed.

Lemma length_be_encode (n : nat) (v : Z) : length (be_encode n v) = n.
Proof. induction n; cbn; congruence. Qed.

Lemma be_decode_encode_2 (v : Z) : be_decode (be_encode 2 v) = u16 v.
Proof.
  unfold be_decode, u16. cbn. rewrite !byte_val_of_Z.
  rewrite Z.div_1_r. change (256 ^ Z.of_nat 1) with 256.
  change (2 ^ 16) with (256 * 256).
  rewrite Z.rem_mul_r by lia. lia.
Qed.

Lemma u16_u64 (x : Z) : u16 (u64 x) = u16 x.
Proof.
  unfold u16, u64. change (2 ^ 64) with (2 ^ 16 * 2 ^ 48).
  rewrite Z.rem_mul_r by lia.
  rewrite (Z.mul_comm (2 ^ 16)), Z.mod_add by lia. apply Z.mod_mod. lia.
Qed.

Lemma take_clamped {A} (l : list A) (m : nat) :
  take (if bool_decide (m < length l)%nat then m else length l) l = take m l.
Proof.
  case_bool_decide; [done|]. rewrite firstn_all. symmetry.
  apply take_ge. lia.
Qed.

Local Opaque be_encode.

(** C9: the two bytes written at [expiresBuf] hold the low 16 bits of the
    difference, taken in unsigned 64-bit arithmetic, between the maximum
    end date of the tunnels included and the published timestamp.  The
    comparison [expires > 0] is between unsigned values, so a maximum end
    date earlier than the timestamp is not replaced by 0. *)
Theorem LocalLeaseSet2_expires_field (storeType : byte) (identity : IdentityEx)
    (keyType keyLen : Z) (encryptionPublicKey : list byte)
    (tunnels : list InboundTunnel) (timestamp : Z) (l : LocalLeaseSet) :
  LocalLeaseSet2_new storeType identity keyType keyLen encryptionPublicKey
    tunnels timestamp = Ok l →
  be_decode (local_expires_field l)
  = u16 ((local_leases2 (take MAX_NUM_LEASES tunnels)).2 - timestamp).
Proof.
  unfold LocalLeaseSet2_new. rewrite take_clamped.
  destruct (read_bytes _ _ _) as [key|]; [|done]. cbn [mbind result_bind].
  destruct (local_leases2 _) as [leases expirationTime]. injection 1 as <-.
  unfold local_expires_field. cbn [local_Buffer local_Identity snd].
  change (1 + length (ToBuffer identity) + 4)%nat
    with (S (length (ToBuffer identity) + 4)).
  cbn [drop]. rewrite drop_app_add.
  rewrite drop_app_length' by (by rewrite length_be_encode).
  rewrite take_app_length' by (by rewrite length_be_encode).
  rewrite be_decode_encode_2.
  assert (0 ≤ u64 (expirationTime - timestamp)) as Hnn
    by (apply Z.mod_pos_bound; lia).
  destruct (Z.ltb_spec 0 (u64 (expirationTime - timestamp))) as [Hpos|Hz].
  - apply u16_u64.
  - replace 0 with (u64 (expirationTime - timestamp)) at 1 by lia.
    apply u16_u64.
Qed.

Local Transparent be_encode.

End Local.

Lemma LocalLeaseSet2_expires_field_witness :
  be_decode (local_expires_field sample_local)
  = u16 ((@local_leases2 sample_env
            (take (@MAX_NUM_LEASES sample_env) [sample_tunnel])).2
         - 1700000630).
Proof.
  apply (@LocalLeaseSet2_expires_field sample_env x03 sample_identity 0 32
           (replicate 32 x22) [sample_tunnel] 1700000630 sample_local).
  reflexivity.
Defined.

(** The tunnel of [sample_local] is advertised until second 1700000600 and
    the set is published at second 1700000630: the field holds 65506 (the
    low 16 bits of -30), not 0. *)
Lemma LocalLeaseSet2_expires_not_clamped :
  (@local_leases2 sample_env [sample_tunnel]).2 = 1700000600 ∧
  be_decode (local_expires_field sample_local) = 65506.
Proof. split; reflexivity. Qed.

Section Legacy.
Context `{!Env}.

(** A legacy buffer that holds the identity but not the whole encryption
    key after it has the key copied all the same: the copy runs past the
    length. *)
Lemma ReadFromBuffer_truncated_key (readIdentity verifySignature : bool)
    (ts : Z) (s : LeaseSet) :
  (GetFullLen (decode_identity readIdentity s) ≤ length (m_Buffer s)
   < GetFullLen (decode_identity readIdentity s) + 256)%nat →
  ReadFromBuffer readIdentity verifySignature ts s
  = OutOfBounds (length (m_Buffer s)).
Proof.
  intros [Hlo Hhi]. unfold ReadFromBuffer. cbn [m_Buffer SetIdentity].
  rewrite bool_decide_eq_false_2 by lia.
  rewrite read_bytes_oob by lia. cbn. f_equal. lia.
Qed.

(** C2: a legacy buffer whose lease count, read at its place after the
    keys, is zero or exceeds [MAX_NUM_LEASES] leaves the record invalid,
    its leases untouched. *)
Theorem ReadFromBuffer_lease_count_rejected (readIdentity verifySignature : bool)
    (ts : Z) (s : LeaseSet) (num : byte) :
  m_Buffer s !! legacy_count_offset (decode_identity readIdentity s) = Some num →
  (byte_nat num = 0 ∨ MAX_NUM_LEASES < byte_nat num)%nat →
  ∃ s', ReadFromBuffer readIdentity verifySignature ts s = Ok s' ∧
        m_IsValid s' = false ∧
        m_Leases s' = m_Leases s ∧ heap s' = heap s.
Proof.
  intros Hnum Hbad. unfold ReadFromBuffer, legacy_count_offset in *.
  cbn [m_Buffer SetIdentity SetEncryptionKey].
  apply lookup_lt_Some in Hnum as Hlt.
  rewrite bool_decide_eq_false_2 by lia.
  rewrite read_bytes_ok by lia. cbn [mbind result_bind].
  unfold read8. rewrite Hnum. cbn [mbind result_bind].
  rewrite bool_decide_eq_true_2 by done.
  eexists. split; [done|]. done.
Qed.

(** The lease loop of the v2 standard decoder goes through any number of
    leases that fit in the buffer: the count is compared with nothing. *)
Lemma ReadLeases2_any_count (buf : list byte) (n offset : nat) (ts : Z)
    (s : LeaseSet) :
  (offset + n * LEASE2_SIZE ≤ length buf)%nat →
  ∃ s', ReadLeases2 buf n offset ts s
        = Ok (Some (offset + n * LEASE2_SIZE)%nat, s').
Proof.
  revert offset s. unfold LEASE2_SIZE.
  induction n as [|n IH]; intros offset s Hfit.
  - exists s. cbn. do 3 f_equal. lia.
  - cbn [ReadLeases2]. unfold LEASE2_SIZE, bufbe32toh.
    rewrite bool_decide_eq_false_2 by lia.
    rewrite !read_bytes_ok by lia. cbn [mbind result_bind fmap result_fmap].
    destruct (IH (offset + 32 + 4 + 4)%nat
                (UpdateLease
                   (mkLease (take 32 (drop offset buf))
                      (be_decode (take 4 (drop (offset + 32) buf)))
                      (be_decode (take 4 (drop (offset + 32 + 4) buf)) * 1000)
                      false) ts s)) as (s' & ->); [lia|].
    exists s'. do 3 f_equal. lia.
Qed.

End Legacy.

Lemma ReadFromBuffer_lease_count_rejected_witness :
  ∃ s', @ReadFromBuffer sample_env true true 200000
          (mkLeaseSet true true 0 (sample_legacy []) None [] ∅ [] []) = Ok s' ∧
        m_IsValid s' = false ∧
        m_Leases s' = ∅ ∧ heap s' = [].
Proof.
  apply (@ReadFromBuffer_lease_count_rejected sample_env true true 200000
           (mkLeaseSet true true 0 (sample_legacy []) None [] ∅ [] []) x00).
  - reflexivity.
  - left. reflexivity.
Defined.

(** C2, as stated, fails for the v2 standard format, whose decoder never
    compares the lease count with anything: a LeaseSet2 that declares no
    lease, and one that declares seventeen, are both valid once their
    signature verifies. *)
Lemma ReadStandardLS2_lease_count_counterexample :
  @MAX_NUM_LEASES sample_env = 16%nat ∧
  (succeeded (@LeaseSet2_FromBuffer sample_env x03 (sample_ls2 0 []) true
                200000 []) = true ∧
   m_IsValid (base (sample_decoded2 (sample_ls2 0 []))) = true ∧
   size (m_Leases (base (sample_decoded2 (sample_ls2 0 [])))) = 0%nat) ∧
  (succeeded (@LeaseSet2_FromBuffer sample_env x03
                (sample_ls2 17 sample_17_leases2) true 200000 []) = true ∧
   m_IsValid (base (sample_decoded2 (sample_ls2 17 sample_17_leases2))) = true ∧
   size (m_Leases (base (sample_decoded2 (sample_ls2 17 sample_17_leases2))))
   = 17%nat).
Proof. split_and!; vm_compute; reflexivity. Qed.

Lemma legacy_truncations_all_fault :
  forallb (reads_past_truncation sample_two_leases 200000) (seq 387 473) = true.
Proof. vm_compute. reflexivity. Qed.

(** Cut at any length from the end of its identity up to the byte before
    its signature, the sample lease set of two leases makes both legacy
    decoders read at or past the length they were given. *)
Lemma sample_two_leases_truncated (n : nat) :
  (387 ≤ n < 860)%nat →
  reads_past_truncation sample_two_leases 200000 n = true.
Proof.
  intros Hn. pose proof legacy_truncations_all_fault as Hall.
  rewrite forallb_forall in Hall. apply Hall. apply in_seq. lia.
Qed.

(** The sample of C1 is a valid lease set when whole, and below the length
    of its identity the decoders do stop without a read. *)
Lemma sample_two_leases_valid :
  succeeded (@LeaseSet_FromBuffer sample_env sample_two_leases true 200000 [])
  = true ∧
  m_IsValid (sample_decoded sample_two_leases 200000) = true ∧
  @LeaseSetBufferValidate sample_env sample_two_leases = Ok (true, Some 400000) ∧
  succeeded (@LeaseSet_FromBuffer sample_env (take 386 sample_two_leases) true
               200000 []) = true ∧
  m_IsValid (sample_decoded (take 386 sample_two_leases) 200000) = false ∧
  @LeaseSetBufferValidate sample_env (take 386 sample_two_leases) = Ok (false, None).
Proof. split_and!; vm_compute; reflexivity. Qed.

(** *** The reconciliation engine *)

Section EngineLemmas.
Context `{!Env}.

Lemma points_to_lookup (s : LeaseSet) (q : nat) :
  points_to s q ↔ ∃ k, m_Leases s !! k = Some q.
Proof.
  unfold points_to. rewrite list_elem_of_fmap. split.
  - intros ([k p] & -> & Hin). exists k. by apply elem_of_map_to_list.
  - intros (k & Hk). exists (k, q). split; [done|]. by apply elem_of_map_to_list.
Qed.

Lemma foldl_alter_lookup {A B} (f : A → A) (g : B → nat) (l : list B)
    (h : list A) (q : nat) :
  (∀ x, f (f x) = f x) →
  foldl (λ h x, alter f (g x) h) h l !! q
  = if bool_decide (q ∈ g <$> l) then f <$> h !! q else h !! q.
Proof.
  intros Hf. revert h. induction l as [|x l IH]; intros h; [done|].
  cbn [foldl]. rewrite IH. rewrite fmap_cons.
  destruct (decide (g x = q)) as [<-|Hne].
  - rewrite (bool_decide_eq_true_2 (g x ∈ g x :: _)) by (by left).
    rewrite list_lookup_alter_eq.
    case_bool_decide; [|done].
    destruct (h !! g x); cbn; [|done]. by rewrite Hf.
  - rewrite list_lookup_alter_ne by done.
    assert (bool_decide (q ∈ g x :: (g <$> l)) = bool_decide (q ∈ g <$> l))
      as ->; [|done].
    apply bool_decide_ext. rewrite elem_of_cons.
    split; [intros [?|?]; [congruence|done]|by right].
Qed.

Lemma foldl_alter_length {A B} (f : A → A) (g : B → nat) (l : list B)
    (h : list A) :
  length (foldl (λ h x, alter f (g x) h) h l) = length h.
Proof.
  revert h. induction l as [|x l IH]; intros h; [done|].
  cbn [foldl]. by rewrite IH, length_alter.
Qed.

(** [UpdateLeasesBegin] when leases are stored: the set is the same and
    exactly the objects it points to are unmarked. *)
Lemma UpdateLeasesBegin_Leases (s : LeaseSet) :
  m_StoreLeases s = true → m_Leases (UpdateLeasesBegin s) = m_Leases s.
Proof. intros Hst. unfold UpdateLeasesBegin. by rewrite Hst. Qed.

Lemma UpdateLeasesBegin_heap (s : LeaseSet) (q : nat) :
  m_StoreLeases s = true →
  heap (UpdateLeasesBegin s) !! q
  = if bool_decide (points_to s q) then set_isUpdated false <$> heap s !! q
    else heap s !! q.
Proof.
  intros Hst. unfold UpdateLeasesBegin. rewrite Hst. cbn [heap set_heap].
  by rewrite (foldl_alter_lookup (set_isUpdated false) snd).
Qed.

Lemma UpdateLeasesBegin_length (s : LeaseSet) :
  length (heap (UpdateLeasesBegin s)) = length (heap s).
Proof.
  unfold UpdateLeasesBegin. destruct (m_StoreLeases s); [|done].
  cbn [heap set_heap]. apply (foldl_alter_length _ snd).
Qed.

Lemma UpdateLeasesBegin_keyed (s : LeaseSet) :
  leases_keyed s → leases_keyed (UpdateLeasesBegin s).
Proof.
  intros Hk. destruct (m_StoreLeases s) eqn:Hst.
  - intros k p Hp. rewrite UpdateLeasesBegin_Leases in Hp by done.
    destruct (Hk k p Hp) as (l & Hl & Hkey).
    rewrite UpdateLeasesBegin_heap by done. rewrite Hl.
    case_bool_decide; cbn; eauto.
  - unfold UpdateLeasesBegin. rewrite Hst. intros k p Hp. cbn in Hp.
    by rewrite lookup_empty in Hp.
Qed.

(** [UpdateLeasesEnd]: the marks it tests are those of the state it starts
    from, since it writes end dates only. *)
Lemma prune_step_alt (upd0 : nat → bool) (k : LeaseKey) (p : nat) (s : LeaseSet) :
  (∀ p, isUpdated (heap s !!! p) = upd0 p) →
  prune_step s (k, p)
  = set_Leases (if upd0 p then m_Leases s else delete k (m_Leases s))
      (set_heap (alter prune_mark p (heap s)) s).
Proof.
  intros Hupd. unfold prune_step. cbn [fst snd]. rewrite Hupd.
  assert (alter prune_mark p (heap s)
          = if upd0 p then heap s else alter (set_endDate 0) p (heap s)) as ->.
  { apply list_eq. intros i. specialize (Hupd p).
    rewrite list_lookup_total_alt in Hupd.
    destruct (upd0 p); rewrite !list_lookup_alter; case_decide; try done;
      subst i; destruct (heap s !! p) as [x|]; try done; cbn in *;
      unfold prune_mark; by rewrite Hupd. }
  destruct (upd0 p); by destruct s.
Qed.

Lemma prune_fold (upd0 : nat → bool) (l : list (LeaseKey * nat)) (s : LeaseSet) :
  (∀ p, isUpdated (heap s !!! p) = upd0 p) →
  foldl prune_step s l
  = set_Leases
      (foldl (λ m kp, if upd0 kp.2 then m else delete kp.1 m) (m_Leases s) l)
      (set_heap (foldl (λ h kp, alter prune_mark kp.2 h) (heap s) l) s).
Proof.
  revert s. induction l as [|[k p] l IH]; intros s Hupd.
  - by destruct s.
  - cbn [foldl]. rewrite (prune_step_alt upd0) by done. rewrite IH.
    + by destruct s.
    + intros q. cbn [heap set_heap set_Leases]. rewrite <- Hupd.
      rewrite !list_lookup_total_alt, list_lookup_alter.
      case_decide; [|done]. subst q.
      destruct (heap s !! p) as [x|]; [|done]. cbn.
      unfold prune_mark. by destruct (isUpdated x) eqn:E.
Qed.

Lemma foldl_delete_None (c : nat → bool) (l : list (LeaseKey * nat))
    (m : gmap LeaseKey nat) (k : LeaseKey) :
  m !! k = None →
  foldl (λ m kp, if c kp.2 then m else delete kp.1 m) m l !! k = None.
Proof.
  revert m. induction l as [|[k' p] l IH]; intros m Hm; [done|].
  cbn [foldl fst snd]. apply IH. destruct (c p); [done|].
  rewrite lookup_delete. by case_decide.
Qed.

Lemma foldl_delete_dropped (c : nat → bool) (l : list (LeaseKey * nat))
    (m : gmap LeaseKey nat) (k : LeaseKey) (p : nat) :
  (k, p) ∈ l → c p = false →
  foldl (λ m kp, if c kp.2 then m else delete kp.1 m) m l !! k = None.
Proof.
  revert m. induction l as [|[k' p'] l IH]; intros m Hin Hc.
  - by apply elem_of_nil in Hin.
  - cbn [foldl fst snd]. apply elem_of_cons in Hin as [[= <- <-]|Hin].
    + apply foldl_delete_None. rewrite Hc. apply lookup_delete_eq.
    + by apply IH.
Qed.

Lemma foldl_delete_kept (c : nat → bool) (l : list (LeaseKey * nat))
    (m : gmap LeaseKey nat) (k : LeaseKey) :
  (∀ p, (k, p) ∈ l → c p = true) →
  foldl (λ m kp, if c kp.2 then m else delete kp.1 m) m l !! k = m !! k.
Proof.
  revert m. induction l as [|[k' p'] l IH]; intros m Hall; [done|].
  cbn [foldl fst snd]. rewrite IH.
  - destruct (c p') eqn:Hc; [done|]. apply lookup_delete_ne.
    intros ->. rewrite Hall in Hc; [done|by left].
  - intros p Hp. apply Hall. by right.
Qed.

(** [UpdateLeasesEnd] when leases are stored: the pointers to marked
    objects stay, the other objects get end date 0 and leave the set. *)
Lemma UpdateLeasesEnd_alt (s : LeaseSet) :
  m_StoreLeases s = true →
  UpdateLeasesEnd s
  = set_Leases
      (foldl (λ m kp, if isUpdated (heap s !!! kp.2) then m else delete kp.1 m)
         (m_Leases s) (map_to_list (m_Leases s)))
      (set_heap
         (foldl (λ h kp, alter prune_mark kp.2 h) (heap s)
            (map_to_list (m_Leases s))) s).
Proof.
  intros Hst. unfold UpdateLeasesEnd. rewrite Hst.
  by rewrite (prune_fold (λ p, isUpdated (heap s !!! p))).
Qed.

Lemma UpdateLeasesEnd_Leases (s : LeaseSet) (k : LeaseKey) :
  m_StoreLeases s = true →
  m_Leases (UpdateLeasesEnd s) !! k
  = match m_Leases s !! k with
    | Some p => if isUpdated (heap s !!! p) then Some p else None
    | None => None
    end.
Proof.
  intros Hst. rewrite UpdateLeasesEnd_alt by done. cbn [m_Leases set_Leases].
  destruct (m_Leases s !! k) as [p|] eqn:Hk.
  - destruct (isUpdated (heap s !!! p)) eqn:Hu.
    + rewrite (foldl_delete_kept (λ p, isUpdated (heap s !!! p))); [done|].
      intros p' Hp'. apply elem_of_map_to_list in Hp'. congruence.
    + apply (foldl_delete_dropped (λ p, isUpdated (heap s !!! p)) _ _ _ p);
        [|done]. by apply elem_of_map_to_list.
  - by apply (foldl_delete_None (λ p, isUpdated (heap s !!! p))).
Qed.

Lemma UpdateLeasesEnd_heap (s : LeaseSet) (q : nat) :
  m_StoreLeases s = true →
  heap (UpdateLeasesEnd s) !! q
  = if bool_decide (points_to s q) then prune_mark <$> heap s !! q
    else heap s !! q.
Proof.
  intros Hst. rewrite UpdateLeasesEnd_alt by done. cbn [heap set_heap set_Leases].
  rewrite (foldl_alter_lookup prune_mark snd); [done|].
  intros x. unfold prune_mark. by destruct (isUpdated x) eqn:E; cbn; rewrite ?E.
Qed.

Lemma UpdateLeasesEnd_length (s : LeaseSet) :
  length (heap (UpdateLeasesEnd s)) = length (heap s).
Proof.
  destruct (m_StoreLeases s) eqn:Hst.
  - rewrite UpdateLeasesEnd_alt by done. cbn [heap set_heap set_Leases].
    apply (foldl_alter_length _ snd).
  - unfold UpdateLeasesEnd. by rewrite Hst.
Qed.

(** Where every object of the set is marked, [UpdateLeasesEnd] changes
    nothing. *)
Lemma UpdateLeasesEnd_all_marked (s : LeaseSet) :
  (∀ k p, m_Leases s !! k = Some p →
     ∃ l, heap s !! p = Some l ∧ isUpdated l = true) →
  m_Leases (UpdateLeasesEnd s) = m_Leases s ∧
  heap (UpdateLeasesEnd s) = heap s.
Proof.
  intros Hall. destruct (m_StoreLeases s) eqn:Hst.
  - split.
    + apply map_eq. intros k. rewrite UpdateLeasesEnd_Leases by done.
      destruct (m_Leases s !! k) as [p|] eqn:Hk; [|done].
      destruct (Hall k p Hk) as (l & Hl & Hu).
      by rewrite (list_lookup_total_correct _ _ _ Hl), Hu.
    + apply list_eq. intros q. rewrite UpdateLeasesEnd_heap by done.
      case_bool_decide as Hq; [|done].
      apply points_to_lookup in Hq as (k & Hk).
      destruct (Hall k q Hk) as (l & Hl & Hu). rewrite Hl. cbn.
      unfold prune_mark. by rewrite Hu.
  - unfold UpdateLeasesEnd. by rewrite Hst.
Qed.

(** Fields the engine leaves alone. *)
Lemma UpdateLeasesBegin_fields (s : LeaseSet) :
  m_StoreLeases (UpdateLeasesBegin s) = m_StoreLeases s ∧
  m_Buffer (UpdateLeasesBegin s) = m_Buffer s ∧
  m_Identity (UpdateLeasesBegin s) = m_Identity s ∧
  m_IsValid (UpdateLeasesBegin s) = m_IsValid s ∧
  m_ExpirationTime (UpdateLeasesBegin s) = m_ExpirationTime s.
Proof.
  destruct s as [v st e b i k m h r]. unfold UpdateLeasesBegin. cbn.
  by destruct st.
Qed.

Lemma UpdateLeasesEnd_fields (s : LeaseSet) :
  m_StoreLeases (UpdateLeasesEnd s) = m_StoreLeases s ∧
  m_Buffer (UpdateLeasesEnd s) = m_Buffer s ∧
  m_Identity (UpdateLeasesEnd s) = m_Identity s ∧
  m_IsValid (UpdateLeasesEnd s) = m_IsValid s ∧
  m_ExpirationTime (UpdateLeasesEnd s) = m_ExpirationTime s.
Proof.
  destruct (m_StoreLeases s) eqn:Hst.
  - by rewrite UpdateLeasesEnd_alt by done.
  - unfold UpdateLeasesEnd. by rewrite Hst.
Qed.

Lemma UpdateLease_fields (l : Lease) (ts : Z) (s : LeaseSet) :
  m_StoreLeases (UpdateLease l ts s) = m_StoreLeases s ∧
  m_Buffer (UpdateLease l ts s) = m_Buffer s ∧
  m_Identity (UpdateLease l ts s) = m_Identity s ∧
  m_IsValid (UpdateLease l ts s) = m_IsValid s ∧
  m_ExpirationTime (UpdateLease l ts s)
  = if unexpired ts l && (m_ExpirationTime s <? endDate l)
    then endDate l else m_ExpirationTime s.
Proof.
  destruct s as [v st e b i k m h r].
  unfold UpdateLease, unexpired, insert_lease. cbn.
  destruct (ts <? _); [|done].
  destruct (e <? endDate l); cbn; destruct st; cbn; try done;
    destruct (m !! lease_key l); cbn; destruct (FindRouter _); done.
Qed.

Lemma apply_leases_fields (ts : Z) (ls : list Lease) (s : LeaseSet) :
  m_StoreLeases (apply_leases ts ls s) = m_StoreLeases s ∧
  m_Buffer (apply_leases ts ls s) = m_Buffer s ∧
  m_Identity (apply_leases ts ls s) = m_Identity s ∧
  m_IsValid (apply_leases ts ls s) = m_IsValid s ∧
  m_ExpirationTime (apply_leases ts ls s)
  = foldl (λ e l, if unexpired ts l && (e <? endDate l) then endDate l else e)
      (m_ExpirationTime s) ls.
Proof.
  revert s. induction ls as [|l ls IH]; intros s; [done|].
  unfold apply_leases in *. cbn [foldl].
  destruct (IH (UpdateLease l ts s)) as (-> & -> & -> & -> & ->).
  destruct (UpdateLease_fields l ts s) as (-> & -> & -> & -> & ->). done.
Qed.

(** [UpdateLease], one case at a time. *)
Lemma UpdateLease_expired (l : Lease) (ts : Z) (s : LeaseSet) :
  unexpired ts l = false → UpdateLease l ts s = s.
Proof. unfold UpdateLease, unexpired. by intros ->. Qed.

Lemma UpdateLease_not_stored (l : Lease) (ts : Z) (s : LeaseSet) :
  m_StoreLeases s = false →
  m_Leases (UpdateLease l ts s) = m_Leases s ∧
  heap (UpdateLease l ts s) = heap s.
Proof.
  destruct s as [v st e b i k m h r]. cbn. intros ->.
  unfold UpdateLease. cbn. destruct (ts <? _); [|done].
  by destruct (e <? endDate l).
Qed.

Lemma UpdateLease_unexpired (l : Lease) (ts : Z) (s : LeaseSet) :
  m_StoreLeases s = true → unexpired ts l = true →
  m_Leases (UpdateLease l ts s) = m_Leases (insert_lease l s) ∧
  heap (UpdateLease l ts s) = heap (insert_lease l s).
Proof.
  destruct s as [v st e b i k m h r]. cbn. intros -> Hun.
  unfold UpdateLease, unexpired in *. rewrite Hun. cbn.
  unfold insert_lease. cbn.
  destruct (e <? endDate l); cbn; destruct (m !! lease_key l); cbn;
    destruct (FindRouter _); done.
Qed.

Lemma insert_lease_present (l : Lease) (s : LeaseSet) (p : nat) :
  m_Leases s !! lease_key l = Some p →
  m_Leases (insert_lease l s) = m_Leases s ∧
  heap (insert_lease l s)
  = alter (λ x, set_isUpdated true (set_endDate (endDate l) x)) p (heap s).
Proof. intros Hp. unfold insert_lease. by rewrite Hp. Qed.

Lemma insert_lease_absent (l : Lease) (s : LeaseSet) :
  m_Leases s !! lease_key l = None →
  m_Leases (insert_lease l s) = <[lease_key l := length (heap s)]> (m_Leases s) ∧
  heap (insert_lease l s) = heap s ++ [set_isUpdated true l].
Proof. intros Hp. unfold insert_lease. by rewrite Hp. Qed.

Lemma overwrite_keyed (l x : Lease) :
  lease_key x = lease_key l →
  set_isUpdated true (set_endDate (endDate l) x) = set_isUpdated true l.
Proof.
  destruct l, x. unfold lease_key, set_isUpdated, set_endDate. cbn.
  by intros [= -> ->].
Qed.

Lemma leases_keyed_inj (s : LeaseSet) (k1 k2 : LeaseKey) (p : nat) :
  leases_keyed s → m_Leases s !! k1 = Some p → m_Leases s !! k2 = Some p →
  k1 = k2.
Proof.
  intros Hk H1 H2. destruct (Hk _ _ H1) as (l1 & Hl1 & <-).
  destruct (Hk _ _ H2) as (l2 & Hl2 & <-). congruence.
Qed.

Lemma loop_inv_base (s0 : LeaseSet) :
  m_StoreLeases s0 = true → leases_keyed s0 → loop_inv s0 ∅ s0.
Proof.
  intros Hst Hk. unfold loop_inv. split_and!; try done.
  - intros k Hs. by left.
  - intros k [x Hx]. by rewrite lookup_empty in Hx.
Qed.

Lemma loop_inv_step (s0 : LeaseSet) (F : gmap LeaseKey Lease) (s : LeaseSet)
    (l : Lease) (ts : Z) :
  loop_inv s0 F s → unexpired ts l = true →
  loop_inv s0 (<[lease_key l := set_isUpdated true l]> F) (UpdateLease l ts s).
Proof.
  intros (Hst & Hk & Hold & Hdom & HF & Hobj & Hframe & Hsame & Hmark) Hun.
  destruct (UpdateLease_unexpired l ts s Hst Hun) as [Em Eh].
  destruct (UpdateLease_fields l ts s) as (Est & _).
  unfold loop_inv, leases_keyed, points_to. rewrite Em, Eh, Est.
  destruct (m_Leases s !! lease_key l) as [p0|] eqn:Hp0.
  - (* the key is in the set: its object is overwritten *)
    destruct (insert_lease_present l s p0 Hp0) as [-> ->].
    destruct (Hk _ _ Hp0) as (x0 & Hx0 & Hkey0).
    assert (alter (λ x, set_isUpdated true (set_endDate (endDate l) x)) p0
              (heap s) !! p0 = Some (set_isUpdated true l)) as Hnew.
    { rewrite list_lookup_alter_eq, Hx0. cbn. by rewrite overwrite_keyed. }
    split_and!; try done.
    + intros k p Hp. destruct (decide (p = p0)) as [->|Hne].
      * exists (set_isUpdated true l). split; [done|].
        by apply (leases_keyed_inj s _ _ p0).
      * rewrite list_lookup_alter_ne by done. by apply Hk.
    + intros k Hs. destruct (Hdom k Hs) as [?|?]; [by left|right].
      rewrite lookup_insert. by case_decide.
    + intros k. rewrite lookup_insert. case_decide as Hkk.
      * subst k. intros _. by rewrite Hp0.
      * apply HF.
    + intros k p Hp. rewrite lookup_insert. case_decide as Hkk.
      * subst k. assert (p = p0) as -> by congruence. done.
      * rewrite list_lookup_alter_ne; [by apply Hobj|].
        intros ->. apply Hkk. by apply (leases_keyed_inj s _ _ p).
    + intros q Hq. rewrite list_lookup_alter_ne; [by apply Hframe|].
      intros ->. apply Hq. apply points_to_lookup. eauto.
    + intros Hsub. rewrite length_alter. apply Hsame.
      intros k Hs. apply Hsub. rewrite lookup_insert. by case_decide.
    + intros k x. rewrite lookup_insert. case_decide; [by intros [= <-]|].
      apply Hmark.
  - (* the key is new: an object is allocated for it *)
    destruct (insert_lease_absent l s Hp0) as [-> ->].
    split_and!; try done.
    + intros k p. rewrite lookup_insert. case_decide as Hkk.
      * subst k. intros [= <-]. exists (set_isUpdated true l).
        split; [|done]. by rewrite list_lookup_middle.
      * intros Hp. destruct (Hk _ _ Hp) as (x & Hx & Hkey).
        exists x. split; [|done]. by apply lookup_app_l_Some.
    + intros k p Hp. rewrite lookup_insert_ne; [by apply Hold|].
      intros <-. apply Hold in Hp. congruence.
    + intros k. rewrite !lookup_insert. case_decide; [by right|].
      intros Hs. destruct (Hdom k Hs); [by left|by right].
    + intros k. rewrite !lookup_insert. case_decide; [done|]. apply HF.
    + intros k p. rewrite !lookup_insert. case_decide as Hkk.
      * subst k. intros [= <-]. by rewrite list_lookup_middle.
      * intros Hp. destruct (Hk _ _ Hp) as (x & Hx & Hkey).
        rewrite (lookup_app_l_Some _ _ _ _ Hx), <- Hx. by apply Hobj.
    + intros q Hq.
      assert (q ≠ length (heap s)) as Hne.
      { intros ->. apply Hq. apply (list_elem_of_fmap_2' snd _ (lease_key l, length (heap s))); [|done].
        apply elem_of_map_to_list. apply lookup_insert_eq. }
      assert (¬ points_to s q) as Hq'.
      { intros (k & Hk')%points_to_lookup. apply Hq.
        apply (list_elem_of_fmap_2' snd _ (k, q)); [|done].
        apply elem_of_map_to_list. rewrite lookup_insert_ne; [done|].
        intros <-. congruence. }
      rewrite <- (Hframe q Hq'). rewrite lookup_app.
      destruct (heap s !! q) eqn:Hhq; [done|].
      apply lookup_ge_None in Hhq.
      apply lookup_ge_None. cbn. lia.
    + intros Hsub. exfalso.
      destruct (Hsub (lease_key l)) as [p Hp]; [by rewrite lookup_insert_eq|].
      apply Hold in Hp. congruence.
    + intros k x. rewrite lookup_insert. case_decide; [by intros [= <-]|].
      apply Hmark.
Qed.

Lemma loop_inv_fold (ts : Z) (ls : list Lease) (s0 : LeaseSet)
    (F : gmap LeaseKey Lease) (s : LeaseSet) :
  loop_inv s0 F s →
  loop_inv s0
    (foldl (λ M l, if unexpired ts l
                   then <[lease_key l := set_isUpdated true l]> M else M) F ls)
    (apply_leases ts ls s).
Proof.
  revert F s. induction ls as [|l ls IH]; intros F s Hinv; [done|].
  unfold apply_leases in *. cbn [foldl]. apply IH.
  destruct (unexpired ts l) eqn:Hun.
  - by apply loop_inv_step.
  - by rewrite UpdateLease_expired.
Qed.

(** The loop over the leases of a buffer, from a keyed record. *)
Lemma apply_leases_inv (ts : Z) (ls : list Lease) (s0 : LeaseSet) :
  m_StoreLeases s0 = true → leases_keyed s0 →
  loop_inv s0 (final_view ts ls) (apply_leases ts ls s0).
Proof. intros Hst Hk. by apply loop_inv_fold, loop_inv_base. Qed.

(** After [UpdateLeasesBegin] and the loop, the objects of the set that no
    unexpired lease named are those of the start, unmarked. *)
Lemma legacy_loop_inv (ts : Z) (ls : list Lease) (s0 : LeaseSet) :
  m_StoreLeases s0 = true → leases_keyed s0 →
  loop_inv (SetExpirationTime 0 (UpdateLeasesBegin s0)) (final_view ts ls)
    (legacy_loop ts ls s0).
Proof.
  intros Hst Hk. unfold legacy_loop. apply apply_leases_inv.
  - cbn. by destruct (UpdateLeasesBegin_fields s0) as (-> & _).
  - by apply UpdateLeasesBegin_keyed in Hk.
Qed.

Lemma legacy_loop_unnamed (ts : Z) (ls : list Lease) (s0 : LeaseSet)
    (k : LeaseKey) (p : nat) :
  m_StoreLeases s0 = true → leases_keyed s0 →
  m_Leases (legacy_loop ts ls s0) !! k = Some p →
  final_view ts ls !! k = None →
  m_Leases s0 !! k = Some p ∧
  heap (legacy_loop ts ls s0) !! p = set_isUpdated false <$> heap s0 !! p.
Proof.
  intros Hst Hk Hp HF.
  destruct (legacy_loop_inv ts ls s0 Hst Hk)
    as (_ & _ & Hold & Hdom & _ & Hobj & _).
  cbn [m_Leases heap SetExpirationTime] in *.
  rewrite UpdateLeasesBegin_Leases in * by done.
  destruct (Hdom k) as [[p' Hp']|[x Hx]]; [by rewrite Hp| |congruence].
  assert (p' = p) as -> by (apply Hold in Hp'; congruence).
  split; [done|]. rewrite (Hobj k p Hp), HF.
  rewrite UpdateLeasesBegin_heap by done.
  rewrite bool_decide_eq_true_2; [done|]. apply points_to_lookup. eauto.
Qed.

(** The record after the whole reconciliation: its set holds exactly the
    keys of the unexpired leases, each pointing to the lease read last
    under that key. *)
Lemma reconciled_char (ts : Z) (ls : list Lease) (s0 : LeaseSet) (e : Z) :
  m_StoreLeases s0 = true → leases_keyed s0 →
  let sr := UpdateLeasesEnd (SetExpirationTime e (legacy_loop ts ls s0)) in
  (∀ k p, m_Leases sr !! k = Some p →
     ∃ x, final_view ts ls !! k = Some x ∧ heap sr !! p = Some x ∧
          isUpdated x = true) ∧
  (∀ k, is_Some (final_view ts ls !! k) → is_Some (m_Leases sr !! k)) ∧
  leases_keyed sr.
Proof.
  intros Hst Hk sr.
  pose proof (legacy_loop_inv ts ls s0 Hst Hk)
    as (Hstl & Hkl & Hold & Hdom & HF & Hobj & Hframe & _ & Hmark).
  set (sl := legacy_loop ts ls s0) in *.
  assert (m_StoreLeases (SetExpirationTime e sl) = true) as Hste by done.
  assert (∀ k p, m_Leases sr !! k = Some p →
            ∃ x, final_view ts ls !! k = Some x ∧ heap sr !! p = Some x ∧
                 isUpdated x = true) as R1.
  { intros k p. unfold sr. rewrite UpdateLeasesEnd_Leases by done.
    cbn [m_Leases heap SetExpirationTime].
    destruct (m_Leases sl !! k) as [p'|] eqn:Hp'; [|done].
    destruct (isUpdated (heap sl !!! p')) eqn:Hu; [|done]. intros [= ->].
    destruct (final_view ts ls !! k) as [x|] eqn:HFk.
    - exists x. split; [done|]. assert (heap sl !! p = Some x) as Hx.
      { by rewrite (Hobj k p Hp'), HFk. }
      split; [|by eapply Hmark].
      rewrite UpdateLeasesEnd_heap by done. cbn [heap SetExpirationTime].
      rewrite Hx. case_bool_decide; [|done]. cbn. unfold prune_mark.
      by rewrite (Hmark _ _ HFk).
    - exfalso.
      destruct (legacy_loop_unnamed ts ls s0 k p Hst Hk Hp' HFk) as [Hp0 Hh].
      fold sl in Hh. destruct (Hk k p Hp0) as (x0 & Hx0 & _).
      rewrite Hx0 in Hh. cbn in Hh.
      by rewrite (list_lookup_total_correct _ _ _ Hh) in Hu. }
  split_and!; [done| |].
  - intros k [x HFk]. destruct (HF k) as [p Hp]; [by rewrite HFk|].
    exists p. unfold sr. rewrite UpdateLeasesEnd_Leases by done.
    cbn [m_Leases heap SetExpirationTime]. rewrite Hp.
    assert (heap sl !! p = Some x) as Hx by (by rewrite (Hobj k p Hp), HFk).
    by rewrite (list_lookup_total_correct _ _ _ Hx), (Hmark _ _ HFk).
  - intros k p Hp. destruct (R1 k p Hp) as (x & HFk & Hx & _).
    exists x. split; [done|].
    assert (m_Leases sl !! k = Some p) as Hpl.
    { revert Hp. unfold sr. rewrite UpdateLeasesEnd_Leases by done.
      cbn [m_Leases heap SetExpirationTime].
      destruct (m_Leases sl !! k) as [p'|]; [|done].
      by destruct (isUpdated _); intros [= ->]. }
    destruct (Hkl k p Hpl) as (y & Hy & Hkey).
    rewrite (Hobj k p Hpl), HFk in Hy. congruence.
Qed.

Lemma unmark_unmarked (y : Lease) :
  isUpdated y = false → set_isUpdated false y = y.
Proof. destruct y. cbn. by intros ->. Qed.

(** A record that already holds every unexpired lease of [ls] as the loop
    would leave it, and otherwise unmarked objects only, comes out of
    [UpdateLeasesBegin] and the loop with the leases it went in with. *)
Lemma legacy_loop_fixpoint (ts : Z) (ls : list Lease) (s1 : LeaseSet) :
  m_StoreLeases s1 = true → leases_keyed s1 →
  (∀ k, is_Some (final_view ts ls !! k) → is_Some (m_Leases s1 !! k)) →
  (∀ k p x, m_Leases s1 !! k = Some p → final_view ts ls !! k = Some x →
     heap s1 !! p = Some x) →
  (∀ k p, m_Leases s1 !! k = Some p → final_view ts ls !! k = None →
     ∃ y, heap s1 !! p = Some y ∧ isUpdated y = false) →
  m_Leases (legacy_loop ts ls s1) = m_Leases s1 ∧
  heap (legacy_loop ts ls s1) = heap s1.
Proof.
  intros Hst Hk Hsub Hnamed Hunnamed.
  destruct (legacy_loop_inv ts ls s1 Hst Hk)
    as (_ & _ & _ & _ & _ & Hobj & Hframe & Hsame & _).
  cbn [m_Leases heap SetExpirationTime] in *.
  rewrite UpdateLeasesBegin_Leases in Hsame by done.
  rewrite UpdateLeasesBegin_length in Hsame.
  destruct (Hsame Hsub) as [Em El]. split; [done|].
  apply list_eq. intros q.
  destruct (decide (points_to s1 q)) as [Hq|Hq].
  - apply points_to_lookup in Hq as Hq'. destruct Hq' as (k & Hp).
    rewrite (Hobj k q) by (by rewrite Em).
    destruct (final_view ts ls !! k) as [x|] eqn:HFk.
    + symmetry. by eapply Hnamed.
    + rewrite UpdateLeasesBegin_heap by done.
      rewrite bool_decide_eq_true_2 by done.
      destruct (Hunnamed k q Hp HFk) as (y & -> & Hy). cbn.
      by rewrite unmark_unmarked.
  - rewrite Hframe.
    + rewrite UpdateLeasesBegin_heap by done.
      by rewrite bool_decide_eq_false_2.
    + unfold points_to in *. by rewrite Em.
Qed.

(** Reconciling twice, the loop having stopped with every lease of the
    buffer expired on the way or not: the second run changes no lease. *)
Lemma legacy_loop_twice (ts : Z) (ls : list Lease) (s0 s1 : LeaseSet) :
  m_StoreLeases s0 = true → leases_keyed s0 →
  same_leases s1 (legacy_loop ts ls s0) →
  same_leases (legacy_loop ts ls s1) (legacy_loop ts ls s0) ∧ leases_keyed s1.
Proof.
  intros Hst Hk (Est & Em & Eh).
  destruct (legacy_loop_inv ts ls s0 Hst Hk)
    as (Hstl & Hkl & _ & _ & HF & Hobj & _).
  assert (leases_keyed s1) as Hk1.
  { unfold leases_keyed. rewrite Em, Eh. apply Hkl. }
  assert (m_StoreLeases s1 = true) as Hst1 by congruence.
  split; [|done].
  destruct (legacy_loop_fixpoint ts ls s1) as [Em2 Eh2]; try done.
  - rewrite Em. apply HF.
  - intros k p x Hp HFk. rewrite Em in Hp. rewrite Eh.
    by rewrite (Hobj k p Hp), HFk.
  - intros k p Hp HFk. rewrite Em in Hp. rewrite Eh.
    destruct (legacy_loop_unnamed ts ls s0 k p Hst Hk Hp HFk) as [Hp0 ->].
    destruct (Hk k p Hp0) as (x0 & -> & _). by eexists.
  - unfold same_leases. split_and!; [|congruence|congruence].
    unfold legacy_loop.
    destruct (apply_leases_fields ts ls (SetExpirationTime 0 (UpdateLeasesBegin s1)))
      as (-> & _).
    destruct (apply_leases_fields ts ls (SetExpirationTime 0 (UpdateLeasesBegin s0)))
      as (-> & _).
    cbn. destruct (UpdateLeasesBegin_fields s1) as (-> & _).
    destruct (UpdateLeasesBegin_fields s0) as (-> & _). congruence.
Qed.

Lemma reconcile_twice (ts : Z) (ls : list Lease) (s0 s1 : LeaseSet) (e e' : Z) :
  m_StoreLeases s0 = true → leases_keyed s0 →
  same_leases s1 (UpdateLeasesEnd (SetExpirationTime e (legacy_loop ts ls s0))) →
  same_leases (UpdateLeasesEnd (SetExpirationTime e' (legacy_loop ts ls s1))) s1
  ∧ leases_keyed s1.
Proof.
  intros Hst Hk (Est & Em & Eh).
  destruct (reconciled_char ts ls s0 e Hst Hk) as (R1 & R2 & R3).
  cbv zeta in R1, R2, R3.
  set (sr := UpdateLeasesEnd (SetExpirationTime e (legacy_loop ts ls s0))) in *.
  assert (m_StoreLeases sr = true) as Hstr.
  { unfold sr. destruct (UpdateLeasesEnd_fields
      (SetExpirationTime e (legacy_loop ts ls s0))) as (-> & _). cbn.
    by destruct (legacy_loop_inv ts ls s0 Hst Hk) as (-> & _). }
  assert (leases_keyed s1) as Hk1.
  { unfold leases_keyed. rewrite Em, Eh. apply R3. }
  assert (m_StoreLeases s1 = true) as Hst1 by congruence.
  split; [|done].
  destruct (legacy_loop_fixpoint ts ls s1) as [Em2 Eh2]; try done.
  - rewrite Em. apply R2.
  - intros k p x Hp HFk. rewrite Em in Hp. rewrite Eh.
    destruct (R1 k p Hp) as (x' & HFk' & Hx' & _). congruence.
  - intros k p Hp HFk. rewrite Em in Hp.
    destruct (R1 k p Hp) as (x' & HFk' & _). congruence.
  - destruct (UpdateLeasesEnd_all_marked
                (SetExpirationTime e' (legacy_loop ts ls s1))) as [Em3 Eh3].
    { cbn [m_Leases heap SetExpirationTime]. rewrite Em2, Eh2, Em, Eh.
      intros k p Hp. destruct (R1 k p Hp) as (x & _ & Hx & Hu). eauto. }
    cbn [m_Leases heap SetExpirationTime] in Em3, Eh3.
    unfold same_leases. split_and!; [|congruence|congruence].
    destruct (UpdateLeasesEnd_fields
      (SetExpirationTime e' (legacy_loop ts ls s1))) as (-> & _). cbn.
    by destruct (legacy_loop_inv ts ls s1 Hst1 Hk1) as (-> & _).
Qed.

(** Without stored leases the loop leaves the set empty and the objects
    alone. *)
Lemma legacy_loop_not_stored (ts : Z) (ls : list Lease) (s : LeaseSet) :
  m_StoreLeases s = false →
  m_StoreLeases (legacy_loop ts ls s) = false ∧
  m_Leases (legacy_loop ts ls s) = ∅ ∧ heap (legacy_loop ts ls s) = heap s.
Proof.
  intros Hst. unfold legacy_loop.
  assert (∀ s', m_StoreLeases s' = false →
            m_StoreLeases (apply_leases ts ls s') = false ∧
            m_Leases (apply_leases ts ls s') = m_Leases s' ∧
            heap (apply_leases ts ls s') = heap s') as Hloop.
  { induction ls as [|l ls IH]; intros s' Hs'; [done|].
    unfold apply_leases in *. cbn [foldl].
    destruct (UpdateLease_not_stored l ts s' Hs') as [Em Eh].
    destruct (UpdateLease_fields l ts s') as (Est & _).
    destruct (IH (UpdateLease l ts s')) as (-> & -> & ->); [congruence|].
    by rewrite Em, Eh. }
  destruct (Hloop (SetExpirationTime 0 (UpdateLeasesBegin s))) as (-> & -> & ->).
  - cbn. by destruct (UpdateLeasesBegin_fields s) as (-> & _).
  - unfold UpdateLeasesBegin. by rewrite Hst.
Qed.

End EngineLemmas.

Section Decode.
Context `{!Env}.

Lemma ReadLeases_ok (n off : nat) (ts : Z) (s : LeaseSet) :
  (off + n * LEASE_SIZE ≤ length (m_Buffer s))%nat →
  ReadLeases n off ts s
  = Ok (apply_leases ts (parse_leases (m_Buffer s) off n) s,
        (off + n * LEASE_SIZE)%nat).
Proof.
  revert off s. induction n as [|n IH]; intros off s Hfit.
  - cbn. do 2 f_equal. lia.
  - unfold LEASE_SIZE in *. cbn [ReadLeases].
    rewrite read_bytes_ok by lia. cbn [mbind result_bind].
    unfold bufbe32toh, bufbe64toh.
    rewrite !read_bytes_ok by lia. cbn [mbind result_bind fmap result_fmap].
    rewrite IH.
    + destruct (UpdateLease_fields
        (mkLease (take 32 (drop off (m_Buffer s)))
           (be_decode (take 4 (drop (off + 32) (m_Buffer s))))
           (be_decode (take 8 (drop (off + 32 + 4) (m_Buffer s)))) false) ts s)
        as (_ & -> & _).
      unfold parse_leases, apply_leases. cbn [seq fmap list_fmap foldl].
      rewrite <- (fmap_S_seq 0 n), <- list_fmap_compose.
      replace (off + 0 * LEASE_SIZE)%nat with off by (unfold LEASE_SIZE; lia).
      replace (off + 32 + 4)%nat with (off + 36)%nat by lia.
      f_equal. f_equal; [|lia]. f_equal. apply list_fmap_ext.
      intros i x _. unfold compose, LEASE_SIZE. cbv beta.
      by replace (off + 36 + 8 + x * 44)%nat with (off + S x * 44)%nat by lia.
    + destruct (UpdateLease_fields
        (mkLease (take 32 (drop off (m_Buffer s)))
           (be_decode (take 4 (drop (off + 32) (m_Buffer s))))
           (be_decode (take 8 (drop (off + 32 + 4) (m_Buffer s)))) false) ts s)
        as (_ & -> & _). lia.
Qed.

Lemma ReadLeases_short (n off : nat) (ts : Z) (s : LeaseSet) :
  (length (m_Buffer s) < off + S n * LEASE_SIZE)%nat →
  ∃ i, ReadLeases (S n) off ts s = OutOfBounds i ∧ (length (m_Buffer s) ≤ i)%nat.
Proof.
  revert off s. unfold LEASE_SIZE. induction n as [|n IH]; intros off s Hshort.
  - cbn [ReadLeases]. unfold bufbe32toh, bufbe64toh.
    destruct (read_bytes (m_Buffer s) off 32) as [gw|i] eqn:E1;
      [|apply read_bytes_index in E1; eauto].
    cbn [mbind result_bind].
    destruct (read_bytes (m_Buffer s) (off + 32) 4) as [tid|i] eqn:E2;
      [|apply read_bytes_index in E2; eauto].
    cbn [mbind result_bind fmap result_fmap].
    rewrite read_bytes_oob by lia. cbn. eexists. split; [done|]. lia.
  - cbn [ReadLeases]. unfold bufbe32toh, bufbe64toh.
    destruct (read_bytes (m_Buffer s) off 32) as [gw|i] eqn:E1;
      [|apply read_bytes_index in E1; eauto].
    cbn [mbind result_bind].
    destruct (read_bytes (m_Buffer s) (off + 32) 4) as [tid|i] eqn:E2;
      [|apply read_bytes_index in E2; eauto].
    cbn [mbind result_bind fmap result_fmap].
    destruct (read_bytes (m_Buffer s) (off + 32 + 4) 8) as [ed|i] eqn:E3;
      [|apply read_bytes_index in E3; eauto].
    cbn [mbind result_bind fmap result_fmap].
    set (s' := UpdateLease _ ts s).
    assert (m_Buffer s' = m_Buffer s) as Eb
      by (unfold s'; by destruct (UpdateLease_fields
            (mkLease gw (be_decode tid) (be_decode ed) false) ts s) as (_ & -> & _)).
    destruct (IH (off + 32 + 4 + 8)%nat s') as (i & Hi & Hle); [rewrite Eb; lia|].
    exists i. split; [done|]. by rewrite <- Eb.
Qed.

(** The equations of [ReadFromBuffer], one for each way it can go. *)
Lemma ReadFromBuffer_short (readIdentity verifySignature : bool) (ts : Z)
    (s : LeaseSet) :
  (length (m_Buffer s) < GetFullLen (decode_identity readIdentity s))%nat →
  ReadFromBuffer readIdentity verifySignature ts s
  = Ok (SetIsValid false (SetIdentity (decode_identity readIdentity s) s)).
Proof.
  intros Hshort. unfold ReadFromBuffer. cbn [m_Buffer SetIdentity].
  by rewrite bool_decide_eq_true_2.
Qed.

Lemma ReadFromBuffer_bad_count (readIdentity verifySignature : bool) (ts : Z)
    (s : LeaseSet) (num : byte) :
  m_Buffer s !! legacy_count_offset (decode_identity readIdentity s) = Some num →
  (byte_nat num = 0 ∨ MAX_NUM_LEASES < byte_nat num)%nat →
  ReadFromBuffer readIdentity verifySignature ts s
  = Ok (SetIsValid false (legacy_header_read readIdentity s)).
Proof.
  intros Hnum Hbad. unfold ReadFromBuffer, legacy_count_offset in *.
  cbn [m_Buffer SetIdentity SetEncryptionKey].
  apply lookup_lt_Some in Hnum as Hlt.
  rewrite bool_decide_eq_false_2 by lia.
  rewrite read_bytes_ok by lia. cbn [mbind result_bind].
  unfold read8. rewrite Hnum. cbn [mbind result_bind].
  by rewrite bool_decide_eq_true_2.
Qed.

Lemma ReadFromBuffer_leases (readIdentity verifySignature : bool) (ts : Z)
    (s : LeaseSet) (num : byte) :
  let ident := decode_identity readIdentity s in
  let ls := legacy_leases ident (m_Buffer s) in
  let sigoff := legacy_signature_offset ident (m_Buffer s) in
  let sl := legacy_loop ts ls (legacy_header_read readIdentity s) in
  let sr := reconcile_legacy ts ls (legacy_header_read readIdentity s) in
  m_Buffer s !! legacy_count_offset ident = Some num →
  ¬ (byte_nat num = 0 ∨ MAX_NUM_LEASES < byte_nat num)%nat →
  (sigoff ≤ length (m_Buffer s))%nat →
  ReadFromBuffer readIdentity verifySignature ts s
  = if bool_decide (m_ExpirationTime sl = 0) then Ok (SetIsValid false sl)
    else if verifySignature then
      signature ← read_bytes (m_Buffer s) sigoff (GetSignatureLen ident);
      if Verify ident (take sigoff (m_Buffer s)) signature then Ok sr
      else Ok (SetIsValid false sr)
    else Ok sr.
Proof.
  intros ident ls sigoff sl sr Hnum Hgood Hfit.
  unfold sr, reconcile_legacy. fold sl. subst sl ls sigoff.
  unfold legacy_leases, legacy_signature_offset in *. rewrite Hnum in *.
  unfold ReadFromBuffer. fold ident. unfold legacy_count_offset in *.
  cbn [m_Buffer SetIdentity SetEncryptionKey].
  apply lookup_lt_Some in Hnum as Hlt.
  rewrite bool_decide_eq_false_2 by lia.
  rewrite read_bytes_ok by lia. cbn [mbind result_bind].
  unfold read8. rewrite Hnum. cbn [mbind result_bind].
  rewrite bool_decide_eq_false_2 by done.
  assert (m_Buffer (SetExpirationTime 0 (UpdateLeasesBegin
            (SetEncryptionKey (take 256 (drop (GetFullLen ident) (m_Buffer s)))
               (SetIdentity ident s)))) = m_Buffer s) as Eb.
  { cbn. by destruct (UpdateLeasesBegin_fields
      (SetEncryptionKey (take 256 (drop (GetFullLen ident) (m_Buffer s)))
         (SetIdentity ident s))) as (_ & -> & _). }
  rewrite ReadLeases_ok by (rewrite Eb; lia). rewrite Eb.
  cbn [mbind result_bind].
  unfold legacy_loop, legacy_header_read. fold ident.
  set (sl := apply_leases ts _ _).
  assert (m_Buffer sl = m_Buffer s) as Ebl.
  { unfold sl. by destruct (apply_leases_fields ts
      (parse_leases (m_Buffer s) (GetFullLen ident + 256
         + GetSigningPublicKeyLen ident + 1) (byte_nat num))
      (SetExpirationTime 0 (UpdateLeasesBegin
        (SetEncryptionKey (take 256 (drop (GetFullLen ident) (m_Buffer s)))
           (SetIdentity ident s))))) as (_ & -> & _). }
  case_bool_decide; [done|].
  destruct (UpdateLeasesEnd_fields (SetExpirationTime
    (u64 (m_ExpirationTime sl + LEASE_ENDDATE_THRESHOLD)) sl)) as (_ & -> & _).
  cbn [m_Buffer SetExpirationTime]. rewrite Ebl. done.
Qed.

Lemma ReadFromBuffer_Ok_inv (readIdentity verifySignature : bool) (ts : Z)
    (s s1 : LeaseSet) :
  let ident := decode_identity readIdentity s in
  ReadFromBuffer readIdentity verifySignature ts s = Ok s1 →
  (length (m_Buffer s) < GetFullLen ident)%nat ∨
  ∃ num, m_Buffer s !! legacy_count_offset ident = Some num ∧
    ((byte_nat num = 0 ∨ MAX_NUM_LEASES < byte_nat num)%nat ∨
     (¬ (byte_nat num = 0 ∨ MAX_NUM_LEASES < byte_nat num)%nat ∧
      legacy_signature_offset ident (m_Buffer s) ≤ length (m_Buffer s))%nat).
Proof.
  intros ident. unfold ReadFromBuffer. fold ident.
  cbn [m_Buffer SetIdentity SetEncryptionKey].
  case_bool_decide as Hlen; [by left|]. intros Hrun. right.
  destruct (read_bytes (m_Buffer s) (GetFullLen ident) 256) as [key|]; [|done].
  cbn [mbind result_bind] in Hrun. unfold read8 in Hrun.
  unfold legacy_signature_offset, legacy_count_offset.
  destruct (m_Buffer s !! _) as [num|] eqn:Hnum; [|done].
  exists num. split; [done|]. cbn [mbind result_bind] in Hrun.
  case_bool_decide as Hbad; [by left|]. right. split; [done|].
  destruct (decide (GetFullLen ident + 256 + GetSigningPublicKeyLen ident + 1
                    + byte_nat num * LEASE_SIZE ≤ length (m_Buffer s))%nat)
    as [Hfit|Hshort]; [done|]. exfalso.
  destruct (byte_nat num) as [|n] eqn:Hn; [lia|].
  set (sb := SetExpirationTime 0 _) in Hrun.
  assert (m_Buffer sb = m_Buffer s) as Eb.
  { unfold sb. cbn. by destruct (UpdateLeasesBegin_fields
      (SetEncryptionKey key (SetIdentity ident s))) as (_ & -> & _). }
  destruct (ReadLeases_short n (GetFullLen ident + 256
              + GetSigningPublicKeyLen ident + 1) ts sb) as (i & Hi & _).
  { rewrite Eb. lia. }
  by rewrite Hi in Hrun.
Qed.

Lemma ValidateLeases_short (buf : list byte) (n leases : nat) (expires : Z) :
  (length buf < leases + S n * LEASE_SIZE)%nat →
  ∃ i, ValidateLeases buf (S n) leases expires = OutOfBounds i ∧
       (length buf ≤ i)%nat.
Proof.
  revert leases expires. unfold LEASE_SIZE.
  induction n as [|n IH]; intros leases expires Hshort.
  - cbn [ValidateLeases]. unfold bufbe64toh.
    rewrite read_bytes_oob by lia. cbn. eexists. split; [done|]. lia.
  - cbn [ValidateLeases]. unfold bufbe64toh.
    destruct (read_bytes buf (leases + 36) 8) as [ed|i] eqn:E;
      [|apply read_bytes_index in E; eauto].
    cbn [mbind result_bind fmap result_fmap].
    apply IH. lia.
Qed.

Lemma ReadFromBuffer_truncated (readIdentity verifySignature : bool) (ts : Z)
    (s : LeaseSet) :
  cut_before_signature (decode_identity readIdentity s) (m_Buffer s) →
  ∃ i, ReadFromBuffer readIdentity verifySignature ts s = OutOfBounds i ∧
       (length (m_Buffer s) ≤ i)%nat.
Proof.
  intros [Hid Hcut]. unfold ReadFromBuffer.
  set (ident := decode_identity readIdentity s) in *.
  unfold legacy_count_offset in Hcut.
  cbn [m_Buffer SetIdentity SetEncryptionKey].
  rewrite bool_decide_eq_false_2 by lia.
  destruct (read_bytes (m_Buffer s) (GetFullLen ident) 256) as [key|i] eqn:Ek;
    [|apply read_bytes_index in Ek; eauto].
  cbn [mbind result_bind]. unfold read8.
  destruct (m_Buffer s !! _) as [num|] eqn:Hnum.
  - destruct Hcut as [Hle|(num' & Hnum' & Hrange & Hshort)].
    { apply lookup_lt_Some in Hnum. lia. }
    assert (num' = num) as -> by congruence.
    cbn [mbind result_bind]. rewrite bool_decide_eq_false_2 by lia.
    destruct (byte_nat num) as [|n] eqn:Hn; [lia|].
    set (sb := SetExpirationTime 0 _).
    assert (m_Buffer sb = m_Buffer s) as Eb.
    { unfold sb. cbn. by destruct (UpdateLeasesBegin_fields
        (SetEncryptionKey key (SetIdentity ident s))) as (_ & -> & _). }
    destruct (ReadLeases_short n (GetFullLen ident + 256
                + GetSigningPublicKeyLen ident + 1) ts sb) as (i & Hi & Hle).
    { rewrite Eb. lia. }
    rewrite Hi. cbn. exists i. split; [done|]. by rewrite <- Eb.
  - cbn. eexists. split; [done|]. by apply lookup_ge_None in Hnum.
Qed.

Lemma LeaseSetBufferValidate_truncated (ptr : list byte) :
  cut_before_signature (IdentityEx_FromBuffer ptr) ptr →
  ∃ i, LeaseSetBufferValidate ptr = OutOfBounds i ∧ (length ptr ≤ i)%nat.
Proof.
  intros [Hid Hcut]. unfold LeaseSetBufferValidate.
  set (ident := IdentityEx_FromBuffer ptr) in *.
  unfold legacy_count_offset in Hcut.
  rewrite bool_decide_eq_false_2 by lia. unfold read8.
  destruct (ptr !! _) as [num|] eqn:Hnum.
  - destruct Hcut as [Hle|(num' & Hnum' & Hrange & Hshort)].
    { apply lookup_lt_Some in Hnum. lia. }
    assert (num' = num) as -> by congruence.
    cbn [mbind result_bind]. rewrite bool_decide_eq_false_2 by lia.
    destruct (byte_nat num) as [|n] eqn:Hn; [lia|].
    destruct (ValidateLeases_short ptr n (GetFullLen ident + 256
                + GetSigningPublicKeyLen ident + 1) 0) as (i & Hi & Hle); [lia|].
    rewrite Hi. cbn. eauto.
  - cbn. eexists. split; [done|]. by apply lookup_ge_None in Hnum.
Qed.

(** C1: a legacy buffer cut before its signature, but not inside its
    identity, makes both legacy decoders read a byte at an index at or past
    the length they were given: after the identity neither compares an
    offset with the length again. *)
Theorem legacy_decode_truncated_reads_past_length (buf : list byte)
    (storeLeases : bool) (ts : Z) (h : list Lease) :
  cut_before_signature (IdentityEx_FromBuffer buf) buf →
  (∃ i, LeaseSet_FromBuffer buf storeLeases ts h = OutOfBounds i ∧
        (length buf ≤ i)%nat) ∧
  (∃ i, LeaseSetBufferValidate buf = OutOfBounds i ∧ (length buf ≤ i)%nat).
Proof.
  intros Hcut. split.
  - by apply (ReadFromBuffer_truncated true true ts
                (mkLeaseSet true storeLeases 0 buf None [] ∅ h [])).
  - by apply LeaseSetBufferValidate_truncated.
Qed.

Lemma legacy_loop_fields (ts : Z) (ls : list Lease) (s : LeaseSet) :
  m_StoreLeases (legacy_loop ts ls s) = m_StoreLeases s ∧
  m_Buffer (legacy_loop ts ls s) = m_Buffer s ∧
  m_Identity (legacy_loop ts ls s) = m_Identity s ∧
  m_IsValid (legacy_loop ts ls s) = m_IsValid s ∧
  m_ExpirationTime (legacy_loop ts ls s) = loop_expiration ts ls.
Proof.
  unfold legacy_loop.
  destruct (apply_leases_fields ts ls (SetExpirationTime 0 (UpdateLeasesBegin s)))
    as (-> & -> & -> & -> & ->).
  cbn. by destruct (UpdateLeasesBegin_fields s) as (-> & -> & -> & -> & _).
Qed.

Lemma reconcile_legacy_fields (ts : Z) (ls : list Lease) (s : LeaseSet) :
  m_StoreLeases (reconcile_legacy ts ls s) = m_StoreLeases s ∧
  m_Buffer (reconcile_legacy ts ls s) = m_Buffer s ∧
  m_Identity (reconcile_legacy ts ls s) = m_Identity s ∧
  m_IsValid (reconcile_legacy ts ls s) = m_IsValid s ∧
  m_ExpirationTime (reconcile_legacy ts ls s)
  = u64 (loop_expiration ts ls + LEASE_ENDDATE_THRESHOLD).
Proof.
  unfold reconcile_legacy.
  destruct (UpdateLeasesEnd_fields
    (SetExpirationTime
       (u64 (m_ExpirationTime (legacy_loop ts ls s) + LEASE_ENDDATE_THRESHOLD))
       (legacy_loop ts ls s))) as (-> & -> & -> & -> & ->).
  cbn. by destruct (legacy_loop_fields ts ls s) as (-> & -> & -> & -> & ->).
Qed.

(** C3: a legacy buffer that holds a lease count in range, its leases and
    its signature within its length, with a lease that has not expired, is
    decoded to the reconciled record whether or not the signature is
    checked; when the check is requested and fails the only difference is
    the validity flag: the set of leases and the aggregate expiration time
    are those of the completed reconciliation. *)
Theorem ReadFromBuffer_signature_failure_keeps_leases (readIdentity : bool)
    (ts : Z) (s : LeaseSet) (num : byte) :
  let ident := decode_identity readIdentity s in
  let ls := legacy_leases ident (m_Buffer s) in
  let sigoff := legacy_signature_offset ident (m_Buffer s) in
  let sr := reconcile_legacy ts ls (legacy_header_read readIdentity s) in
  m_Buffer s !! legacy_count_offset ident = Some num →
  (0 < byte_nat num ≤ MAX_NUM_LEASES)%nat →
  (sigoff + GetSignatureLen ident ≤ length (m_Buffer s))%nat →
  loop_expiration ts ls ≠ 0 →
  Verify ident (take sigoff (m_Buffer s))
    (take (GetSignatureLen ident) (drop sigoff (m_Buffer s))) = false →
  ReadFromBuffer readIdentity false ts s = Ok sr ∧
  ReadFromBuffer readIdentity true ts s = Ok (SetIsValid false sr) ∧
  m_IsValid (SetIsValid false sr) = false ∧
  m_Leases (SetIsValid false sr) = m_Leases sr ∧
  heap (SetIsValid false sr) = heap sr ∧
  m_ExpirationTime (SetIsValid false sr)
  = u64 (loop_expiration ts ls + LEASE_ENDDATE_THRESHOLD).
Proof.
  intros ident ls sigoff sr Hnum Hrange Hfit Hexp Hver.
  assert (¬ (byte_nat num = 0 ∨ MAX_NUM_LEASES < byte_nat num)%nat) as Hgood by lia.
  assert (sigoff ≤ length (m_Buffer s))%nat as Hfit' by lia.
  pose proof (ReadFromBuffer_leases readIdentity false ts s num Hnum Hgood Hfit')
    as E0.
  pose proof (ReadFromBuffer_leases readIdentity true ts s num Hnum Hgood Hfit')
    as E1.
  cbv zeta in E0, E1. fold ident ls sigoff sr in E0, E1.
  destruct (legacy_loop_fields ts ls (legacy_header_read readIdentity s))
    as (_ & _ & _ & _ & Ee).
  rewrite Ee in E0, E1.
  rewrite bool_decide_eq_false_2 in E0, E1 by done.
  rewrite read_bytes_ok in E1 by done. cbn [mbind result_bind] in E1.
  rewrite Hver in E1.
  split_and!; try done. cbn [m_ExpirationTime SetIsValid]. unfold sr.
  by destruct (reconcile_legacy_fields ts ls (legacy_header_read readIdentity s))
    as (_ & _ & _ & _ & ->).
Qed.

Lemma decode_identity_known (s : LeaseSet) (ident : IdentityEx) :
  m_Identity s = Some ident → decode_identity false s = ident.
Proof. unfold decode_identity. by intros ->. Qed.

Lemma UpdateLeasesEnd_not_stored (s : LeaseSet) :
  m_StoreLeases s = false → UpdateLeasesEnd s = s.
Proof. intros Hst. unfold UpdateLeasesEnd. by rewrite Hst. Qed.

(** The loop and the whole reconciliation, run again on a record that
    holds the leases the first run left, leave the same leases. *)
Lemma legacy_loop_again (ts : Z) (ls : list Lease) (s0 s1 : LeaseSet) :
  leases_keyed s0 →
  same_leases s1 (legacy_loop ts ls s0) →
  m_Leases (legacy_loop ts ls s1) = m_Leases s1 ∧
  heap (legacy_loop ts ls s1) = heap s1.
Proof.
  intros Hk Hsame. destruct (m_StoreLeases s0) eqn:Hst.
  - destruct (legacy_loop_twice ts ls s0 s1 Hst Hk Hsame) as [(_ & Em & Eh) _].
    destruct Hsame as (_ & Em1 & Eh1). split; congruence.
  - destruct (legacy_loop_not_stored ts ls s0 Hst) as (Est0 & Em0 & Eh0).
    destruct Hsame as (Est1 & Em1 & Eh1).
    destruct (legacy_loop_not_stored ts ls s1) as (_ & Em & Eh); [congruence|].
    split; congruence.
Qed.

Lemma reconcile_legacy_again (ts : Z) (ls : list Lease) (s0 s1 : LeaseSet) :
  leases_keyed s0 →
  same_leases s1 (reconcile_legacy ts ls s0) →
  m_Leases (reconcile_legacy ts ls s1) = m_Leases s1 ∧
  heap (reconcile_legacy ts ls s1) = heap s1.
Proof.
  intros Hk Hsame. destruct (m_StoreLeases s0) eqn:Hst.
  - unfold reconcile_legacy in *.
    destruct (reconcile_twice ts ls s0 s1 _
      (u64 (m_ExpirationTime (legacy_loop ts ls s1) + LEASE_ENDDATE_THRESHOLD))
      Hst Hk Hsame) as [(_ & Em & Eh) _]. done.
  - unfold reconcile_legacy in *.
    destruct (legacy_loop_not_stored ts ls s0 Hst) as (Est0 & Em0 & Eh0).
    rewrite UpdateLeasesEnd_not_stored in Hsame by done.
    destruct Hsame as (Est1 & Em1 & Eh1). cbn in Est1, Em1, Eh1.
    destruct (legacy_loop_not_stored ts ls s1) as (Est & Em & Eh); [congruence|].
    rewrite UpdateLeasesEnd_not_stored by done. cbn. split; congruence.
Qed.

(** [ReadFromBuffer] run a second time on what it left. *)
Lemma ReadFromBuffer_twice (verifySignature : bool) (ts : Z) (s s1 : LeaseSet) :
  leases_keyed s →
  ReadFromBuffer false verifySignature ts s = Ok s1 →
  ∃ s2, ReadFromBuffer false verifySignature ts s1 = Ok s2 ∧
    m_Buffer s1 = m_Buffer s ∧
    m_Leases s2 = m_Leases s1 ∧ heap s2 = heap s1 ∧
    m_ExpirationTime s2 = m_ExpirationTime s1 ∧
    m_IsValid s2 = m_IsValid s1.
Proof.
  intros Hk Hrun.
  pose proof (ReadFromBuffer_Ok_inv false verifySignature ts s s1 Hrun) as Hinv.
  cbv zeta in Hinv. set (ident := decode_identity false s) in *.
  destruct Hinv as [Hshort|(num & Hnum & [Hbad|[Hgood Hfit]])].
  - (* the identity does not fit *)
    rewrite ReadFromBuffer_short in Hrun by done. injection Hrun as <-.
    fold ident. eexists. split.
    + apply ReadFromBuffer_short. by rewrite (decode_identity_known _ ident).
    + done.
  - (* the lease count is out of range *)
    rewrite (ReadFromBuffer_bad_count _ _ _ _ num) in Hrun by done.
    injection Hrun as <-. eexists. split.
    + apply (ReadFromBuffer_bad_count _ _ _ _ num); [|done].
      by rewrite (decode_identity_known _ ident).
    + done.
  - (* the leases are read *)
    rewrite (ReadFromBuffer_leases _ _ _ _ num) in Hrun by done.
    cbv zeta in Hrun. fold ident in Hrun.
    set (ls := legacy_leases ident (m_Buffer s)) in *.
    set (sigoff := legacy_signature_offset ident (m_Buffer s)) in *.
    set (s0 := legacy_header_read false s) in *.
    assert (leases_keyed s0) as Hk0 by done.
    destruct (legacy_loop_fields ts ls s0) as (_ & Ebl & Eil & Evl & Eel).
    destruct (reconcile_legacy_fields ts ls s0) as (_ & Ebr & Eir & Evr & Eer).
    assert (m_Buffer s0 = m_Buffer s) as Eb0 by done.
    assert (m_Identity s0 = Some ident) as Ei0 by done.
    (* what a second run does, for a record [s1] out of the first *)
    assert (∀ s1, m_Buffer s1 = m_Buffer s → m_Identity s1 = Some ident →
      ReadFromBuffer false verifySignature ts s1
      = if bool_decide (loop_expiration ts ls = 0)
        then Ok (SetIsValid false (legacy_loop ts ls (legacy_header_read false s1)))
        else if verifySignature then
          signature ← read_bytes (m_Buffer s) sigoff (GetSignatureLen ident);
          if Verify ident (take sigoff (m_Buffer s)) signature
          then Ok (reconcile_legacy ts ls (legacy_header_read false s1))
          else Ok (SetIsValid false
                     (reconcile_legacy ts ls (legacy_header_read false s1)))
        else Ok (reconcile_legacy ts ls (legacy_header_read false s1))) as Hsecond.
    { intros s' Eb' Ei'.
      pose proof (ReadFromBuffer_leases false verifySignature ts s' num) as E.
      cbv zeta in E. rewrite (decode_identity_known _ ident Ei'), Eb' in E.
      fold ls sigoff in E. rewrite E by done.
      by destruct (legacy_loop_fields ts ls (legacy_header_read false s'))
        as (_ & _ & _ & _ & ->). }
    rewrite Eel in Hrun.
    case_bool_decide as Hexp.
    + (* every lease has expired *)
      injection Hrun as <-. eexists. split.
      { by rewrite Hsecond by (cbn; congruence). }
      destruct (legacy_loop_again ts ls s0
        (legacy_header_read false (SetIsValid false (legacy_loop ts ls s0))))
        as [Em Eh]; [done|done|].
      destruct (legacy_loop_fields ts ls
        (legacy_header_read false (SetIsValid false (legacy_loop ts ls s0))))
        as (_ & _ & _ & _ & Ee2).
      cbn [m_Buffer m_Leases heap m_ExpirationTime m_IsValid SetIsValid].
      split_and!; [congruence|done|done|congruence|done].
    + (* some lease has not: the reconciliation completes *)
      assert (∀ s1 : LeaseSet, same_leases s1 (reconcile_legacy ts ls s0) →
        m_Leases (reconcile_legacy ts ls (legacy_header_read false s1))
          = m_Leases s1 ∧
        heap (reconcile_legacy ts ls (legacy_header_read false s1)) = heap s1 ∧
        m_ExpirationTime (reconcile_legacy ts ls (legacy_header_read false s1))
          = m_ExpirationTime (reconcile_legacy ts ls s0) ∧
        m_IsValid (reconcile_legacy ts ls (legacy_header_read false s1))
          = m_IsValid s1) as Hagain.
      { intros s' Hsame.
        destruct (reconcile_legacy_again ts ls s0 (legacy_header_read false s'))
          as [Em Eh]; [done|done|].
        destruct (reconcile_legacy_fields ts ls (legacy_header_read false s'))
          as (_ & _ & _ & Ev & Ee).
        split_and!; [done|done|congruence|done]. }
      destruct verifySignature.
      * destruct (read_bytes (m_Buffer s) sigoff (GetSignatureLen ident))
          as [signature|] eqn:Hsig; [|done].
        cbn [mbind result_bind] in Hrun.
        destruct (Verify ident (take sigoff (m_Buffer s)) signature) eqn:Hver;
          injection Hrun as <-.
        -- eexists. split.
           { rewrite Hsecond by congruence.
             cbn [mbind result_bind]. by rewrite Hver. }
           destruct (Hagain (reconcile_legacy ts ls s0))
             as (Em & Eh & Ee & Ev); [done|].
           split_and!; congruence.
        -- eexists. split.
           { rewrite Hsecond by (cbn; congruence).
             cbn [mbind result_bind]. by rewrite Hver. }
           destruct (Hagain (SetIsValid false (reconcile_legacy ts ls s0)))
             as (Em & Eh & Ee & Ev); [done|].
           cbn [m_Buffer m_Leases heap m_ExpirationTime m_IsValid SetIsValid]
             in *.
           split_and!; congruence.
      * injection Hrun as <-. eexists. split.
        { by rewrite Hsecond by congruence. }
        destruct (Hagain (reconcile_legacy ts ls s0))
          as (Em & Eh & Ee & Ev); [done|].
        split_and!; congruence.
Qed.

Lemma SetBuffer_same (s : LeaseSet) : SetBuffer (m_Buffer s) s = s.
Proof. by destruct s. Qed.

(** C5: a record whose set of leases is keyed, updated twice in a row from
    the same buffer at the same clock, has after the second update the
    leases it had after the first: the same pointers under the same keys,
    the same objects with the same end dates and marks, and with them the
    same aggregate expiration time and validity. *)
Theorem Update_twice_same_leases (buf : list byte) (verifySignature : bool)
    (ts : Z) (s s1 : LeaseSet) :
  leases_keyed s →
  Update buf verifySignature ts s = Ok s1 →
  ∃ s2, Update buf verifySignature ts s1 = Ok s2 ∧
    m_Leases s2 = m_Leases s1 ∧ heap s2 = heap s1 ∧
    m_ExpirationTime s2 = m_ExpirationTime s1 ∧
    m_IsValid s2 = m_IsValid s1.
Proof.
  unfold Update. intros Hk Hrun.
  destruct (ReadFromBuffer_twice verifySignature ts (SetBuffer buf s) s1)
    as (s2 & Hrun2 & Eb & Hrest); [done|done|].
  exists s2. split; [|done]. cbn in Eb. by rewrite <- Eb, SetBuffer_same.
Qed.

End Decode.

Section Reconciliation.
Context `{!Env}.

Lemma leases_keyedb_correct (s : LeaseSet) :
  leases_keyedb s = true → leases_keyed s.
Proof.
  unfold leases_keyedb. rewrite forallb_forall. intros Hall k p Hp.
  assert (In (k, p) (map_to_list (m_Leases s))) as Hin
    by (apply list_elem_of_In; by apply elem_of_map_to_list).
  apply Hall in Hin. cbn in Hin. destruct (heap s !! p) as [l|]; [|done].
  exists l. split; [done|]. by apply bool_decide_eq_true in Hin.
Qed.

(** The records [ReadFromBuffer] leaves are keyed when those it is given
    are, as is a record without leases. *)
Lemma LeaseSet_empty_keyed (storeLeases : bool) (h : list Lease) :
  leases_keyed (LeaseSet_empty storeLeases h).
Proof. intros k p Hp. cbn in Hp. by rewrite lookup_empty in Hp. Qed.

Lemma ReadFromBuffer_keyed (readIdentity verifySignature : bool) (ts : Z)
    (s s1 : LeaseSet) :
  leases_keyed s →
  ReadFromBuffer readIdentity verifySignature ts s = Ok s1 →
  leases_keyed s1.
Proof.
  intros Hk Hrun.
  pose proof (ReadFromBuffer_Ok_inv _ _ _ _ _ Hrun) as Hinv. cbv zeta in Hinv.
  destruct Hinv as [Hshort|(num & Hnum & [Hbad|[Hgood Hfit]])].
  - rewrite ReadFromBuffer_short in Hrun by done. by injection Hrun as <-.
  - rewrite (ReadFromBuffer_bad_count _ _ _ _ num) in Hrun by done.
    by injection Hrun as <-.
  - rewrite (ReadFromBuffer_leases _ _ _ _ num) in Hrun by done.
    cbv zeta in Hrun.
    set (ls := legacy_leases _ _) in *.
    set (s0 := legacy_header_read readIdentity s) in *.
    assert (leases_keyed s0) as Hk0 by done.
    assert (leases_keyed (legacy_loop ts ls s0) ∧
            leases_keyed (reconcile_legacy ts ls s0)) as [Hkl Hkr].
    { destruct (m_StoreLeases s0) eqn:Hst.
      - split.
        + by destruct (legacy_loop_inv ts ls s0 Hst Hk0) as (_ & ? & _).
        + by destruct (reconciled_char ts ls s0
            (u64 (m_ExpirationTime (legacy_loop ts ls s0) + LEASE_ENDDATE_THRESHOLD))
            Hst Hk0) as (_ & _ & ?).
      - destruct (legacy_loop_not_stored ts ls s0 Hst) as (Est & Em & Eh).
        assert (leases_keyed (legacy_loop ts ls s0)) as Hkl.
        { intros k p Hp. rewrite Em in Hp. by rewrite lookup_empty in Hp. }
        split; [done|]. unfold reconcile_legacy.
        by rewrite UpdateLeasesEnd_not_stored. }
    case_bool_decide; [by injection Hrun as <-|].
    destruct verifySignature; [|by injection Hrun as <-].
    destruct (read_bytes _ _ _); [|done]. cbn [mbind result_bind] in Hrun.
    destruct (Verify _ _ _); by injection Hrun as <-.
Qed.

(** [UpdateLease] of an unexpired lease, by lookups. *)
Lemma UpdateLease_present_lookup (l : Lease) (ts : Z) (s : LeaseSet)
    (p : nat) (x : Lease) :
  m_StoreLeases s = true → unexpired ts l = true →
  m_Leases s !! lease_key l = Some p → heap s !! p = Some x →
  m_StoreLeases (UpdateLease l ts s) = true ∧
  m_Leases (UpdateLease l ts s) = m_Leases s ∧
  heap (UpdateLease l ts s) !! p
    = Some (set_isUpdated true (set_endDate (endDate l) x)) ∧
  (∀ q, q ≠ p → heap (UpdateLease l ts s) !! q = heap s !! q) ∧
  length (heap (UpdateLease l ts s)) = length (heap s).
Proof.
  intros Hst Hun Hp Hx.
  destruct (UpdateLease_unexpired l ts s Hst Hun) as [-> ->].
  destruct (UpdateLease_fields l ts s) as (-> & _).
  destruct (insert_lease_present l s p Hp) as [-> ->].
  split_and!; try done.
  - by rewrite list_lookup_alter_eq, Hx.
  - intros q Hq. by rewrite list_lookup_alter_ne.
  - apply length_alter.
Qed.

Lemma UpdateLease_absent_lookup (l : Lease) (ts : Z) (s : LeaseSet) :
  m_StoreLeases s = true → unexpired ts l = true →
  m_Leases s !! lease_key l = None →
  m_StoreLeases (UpdateLease l ts s) = true ∧
  m_Leases (UpdateLease l ts s)
    = <[lease_key l := length (heap s)]> (m_Leases s) ∧
  heap (UpdateLease l ts s) !! length (heap s) = Some (set_isUpdated true l) ∧
  (∀ q y, heap s !! q = Some y → heap (UpdateLease l ts s) !! q = Some y) ∧
  length (heap (UpdateLease l ts s)) = S (length (heap s)).
Proof.
  intros Hst Hun Hp.
  destruct (UpdateLease_unexpired l ts s Hst Hun) as [-> ->].
  destruct (UpdateLease_fields l ts s) as (-> & _).
  destruct (insert_lease_absent l s Hp) as [-> ->].
  split_and!; try done.
  - by rewrite list_lookup_middle.
  - intros q y Hy. by apply lookup_app_l_Some.
  - rewrite length_app. cbn. lia.
Qed.

(** A set of three leases, from its size and its three elements. *)
Lemma three_leases_map (m : gmap LeaseKey nat) (ka kb kc : LeaseKey)
    (pA pB pC : nat) :
  size m = 3%nat → ka ≠ kb → ka ≠ kc → kb ≠ kc →
  m !! ka = Some pA → m !! kb = Some pB → m !! kc = Some pC →
  m = {[ka := pA; kb := pB; kc := pC]}.
Proof.
  intros Hsz Hab Hac Hbc Ha Hb Hc. symmetry. apply map_subseteq_size_eq.
  - apply map_subseteq_spec. intros k p Hk.
    destruct (decide (k = ka)) as [->|?]; [by simplify_map_eq|].
    destruct (decide (k = kb)) as [->|?]; [by simplify_map_eq|].
    destruct (decide (k = kc)) as [->|?]; by simplify_map_eq.
  - rewrite Hsz. rewrite !map_size_insert_None, map_size_singleton;
      [done|by simplify_map_eq..].
Qed.

(** [UpdateLeasesEnd] on a set of four leases, two marked and two not. *)
Lemma UpdateLeasesEnd_two_of_four (s : LeaseSet) (ka kb kc kd : LeaseKey)
    (pA pB pC pD : nat) (xa xb xc xd : Lease) :
  m_StoreLeases s = true →
  m_Leases s = <[kd := pD]> {[ka := pA; kb := pB; kc := pC]} →
  ka ≠ kb → ka ≠ kc → kb ≠ kc → kd ≠ ka → kd ≠ kb → kd ≠ kc →
  heap s !! pA = Some xa → heap s !! pB = Some xb →
  heap s !! pC = Some xc → heap s !! pD = Some xd →
  isUpdated xa = true → isUpdated xd = true →
  isUpdated xb = false → isUpdated xc = false →
  m_Leases (UpdateLeasesEnd s) = {[ka := pA; kd := pD]} ∧
  heap (UpdateLeasesEnd s) !! pA = Some xa ∧
  heap (UpdateLeasesEnd s) !! pD = Some xd ∧
  heap (UpdateLeasesEnd s) !! pB = Some (set_endDate 0 xb) ∧
  heap (UpdateLeasesEnd s) !! pC = Some (set_endDate 0 xc).
Proof.
  intros Hst Hm Hab Hac Hbc Hda Hdb Hdc Ha Hb Hc Hd Hua Hud Hub Huc.
  assert (m_Leases s !! ka = Some pA) as Hka
    by (rewrite Hm; by simplify_map_eq).
  assert (m_Leases s !! kb = Some pB) as Hkb
    by (rewrite Hm; by simplify_map_eq).
  assert (m_Leases s !! kc = Some pC) as Hkc
    by (rewrite Hm; by simplify_map_eq).
  assert (m_Leases s !! kd = Some pD) as Hkd
    by (rewrite Hm; by simplify_map_eq).
  assert (∀ p x, heap s !! p = Some x → points_to s p →
            heap (UpdateLeasesEnd s) !! p = Some (prune_mark x)) as Hheap.
  { intros p x Hx Hp. rewrite UpdateLeasesEnd_heap by done.
    by rewrite bool_decide_eq_true_2, Hx by done. }
  split_and!.
  - apply map_eq. intros k. rewrite UpdateLeasesEnd_Leases by done.
    destruct (decide (k = ka)) as [->|Hna].
    { rewrite Hka, (list_lookup_total_correct _ _ _ Ha), Hua.
      by simplify_map_eq. }
    destruct (decide (k = kd)) as [->|Hnd].
    { rewrite Hkd, (list_lookup_total_correct _ _ _ Hd), Hud.
      by simplify_map_eq. }
    destruct (decide (k = kb)) as [->|Hnb].
    { rewrite Hkb, (list_lookup_total_correct _ _ _ Hb), Hub.
      by simplify_map_eq. }
    destruct (decide (k = kc)) as [->|Hnc].
    { rewrite Hkc, (list_lookup_total_correct _ _ _ Hc), Huc.
      by simplify_map_eq. }
    rewrite Hm. by simplify_map_eq.
  - rewrite (Hheap pA xa) by (try apply points_to_lookup; eauto).
    unfold prune_mark. by rewrite Hua.
  - rewrite (Hheap pD xd) by (try apply points_to_lookup; eauto).
    unfold prune_mark. by rewrite Hud.
  - rewrite (Hheap pB xb) by (try apply points_to_lookup; eauto).
    unfold prune_mark. by rewrite Hub.
  - rewrite (Hheap pC xc) by (try apply points_to_lookup; eauto).
    unfold prune_mark. by rewrite Huc.
Qed.

(** C4: a record that stores leases and holds A, B and C reconciles the
    incoming leases A' (the key of A) and D (a new key), neither expired,
    in either order, to the set {A, D}: A keeps its object, whose end date
    is now that of A'; D gets a new object; the objects of B and C, still
    reachable by whoever holds a pointer to them, have end date 0 and are
    no longer in the set. *)
Theorem reconcile_ABC_with_AD (ts : Z) (s : LeaseSet) (a b c a' d : Lease)
    (pA pB pC : nat) (incoming : list Lease) :
  m_StoreLeases s = true →
  m_Leases s = {[lease_key a := pA; lease_key b := pB; lease_key c := pC]} →
  lease_key a ≠ lease_key b → lease_key a ≠ lease_key c →
  lease_key b ≠ lease_key c →
  heap s !! pA = Some a → heap s !! pB = Some b → heap s !! pC = Some c →
  lease_key a' = lease_key a →
  lease_key d ≠ lease_key a → lease_key d ≠ lease_key b →
  lease_key d ≠ lease_key c →
  unexpired ts a' = true → unexpired ts d = true →
  incoming = [a'; d] ∨ incoming = [d; a'] →
  let s' := UpdateLeasesEnd (apply_leases ts incoming (UpdateLeasesBegin s)) in
  m_Leases s' = {[lease_key a := pA; lease_key d := length (heap s)]} ∧
  heap s' !! pA = Some (set_isUpdated true (set_endDate (endDate a') a)) ∧
  heap s' !! length (heap s) = Some (set_isUpdated true d) ∧
  heap s' !! pB = Some (set_endDate 0 (set_isUpdated false b)) ∧
  heap s' !! pC = Some (set_endDate 0 (set_isUpdated false c)).
Proof.
  intros Hst Hm Hab Hac Hbc Ha Hb Hc Hkey Hda Hdb Hdc Huna Hund Hin s'.
  assert (m_Leases s !! lease_key a = Some pA) as Hka
    by (rewrite Hm; by simplify_map_eq).
  assert (m_Leases s !! lease_key b = Some pB) as Hkb
    by (rewrite Hm; by simplify_map_eq).
  assert (m_Leases s !! lease_key c = Some pC) as Hkc
    by (rewrite Hm; by simplify_map_eq).
  assert (m_Leases s !! lease_key d = None) as Hkd
    by (rewrite Hm; by simplify_map_eq).
  assert (pA ≠ pB) as Hpab by (intros ->; congruence).
  assert (pA ≠ pC) as Hpac by (intros ->; congruence).
  assert (pB ≠ pC) as Hpbc by (intros ->; congruence).
  (* after UpdateLeasesBegin *)
  set (sB := UpdateLeasesBegin s).
  assert (m_StoreLeases sB = true) as HstB
    by (unfold sB; by destruct (UpdateLeasesBegin_fields s) as (-> & _)).
  assert (m_Leases sB = m_Leases s) as HmB
    by (by apply UpdateLeasesBegin_Leases).
  assert (length (heap sB) = length (heap s)) as HlB
    by apply UpdateLeasesBegin_length.
  assert (∀ p x k, m_Leases s !! k = Some p → heap s !! p = Some x →
            heap sB !! p = Some (set_isUpdated false x)) as HhB.
  { intros p x k Hk Hx. unfold sB. rewrite UpdateLeasesBegin_heap by done.
    rewrite bool_decide_eq_true_2, Hx; [done|]. apply points_to_lookup. eauto. }
  pose proof (HhB _ _ _ Hka Ha) as HaB. pose proof (HhB _ _ _ Hkb Hb) as HbB.
  pose proof (HhB _ _ _ Hkc Hc) as HcB.
  (* after the loop, whichever lease comes first *)
  assert (∃ sL, apply_leases ts incoming sB = sL ∧
            m_StoreLeases sL = true ∧
            m_Leases sL = <[lease_key d := length (heap s)]> (m_Leases s) ∧
            heap sL !! pA
              = Some (set_isUpdated true (set_endDate (endDate a')
                        (set_isUpdated false a))) ∧
            heap sL !! length (heap s) = Some (set_isUpdated true d) ∧
            heap sL !! pB = Some (set_isUpdated false b) ∧
            heap sL !! pC = Some (set_isUpdated false c))
    as (sL & EL & HstL & HmL & HaL & HdL & HbL & HcL).
  { eexists. split; [done|]. unfold apply_leases.
    destruct Hin as [-> | ->]; cbn [foldl].
    - destruct (UpdateLease_present_lookup a' ts sB pA
                  (set_isUpdated false a) HstB Huna)
        as (Hst1 & Hm1 & Ha1 & Ho1 & Hl1); [by rewrite HmB, Hkey|done|].
      destruct (UpdateLease_absent_lookup d ts (UpdateLease a' ts sB) Hst1 Hund)
        as (Hst2 & Hm2 & Hd2 & Ho2 & Hl2); [by rewrite Hm1, HmB|].
      rewrite Hl1, HlB in *. rewrite Hm1, HmB in Hm2.
      split_and!; try done.
      + by apply Ho2.
      + apply Ho2. by rewrite Ho1.
      + apply Ho2. by rewrite Ho1.
    - destruct (UpdateLease_absent_lookup d ts sB HstB Hund)
        as (Hst1 & Hm1 & Hd1 & Ho1 & Hl1); [by rewrite HmB|].
      rewrite HlB, HmB in *.
      apply lookup_lt_Some in Ha as Hlta. apply lookup_lt_Some in Hb as Hltb.
      apply lookup_lt_Some in Hc as Hltc.
      destruct (UpdateLease_present_lookup a' ts (UpdateLease d ts sB) pA
                  (set_isUpdated false a) Hst1 Huna)
        as (Hst2 & Hm2 & Ha2 & Ho2 & Hl2).
      { rewrite Hm1, Hkey. by rewrite lookup_insert_ne. }
      { by apply Ho1. }
      rewrite Hm1 in Hm2.
      split_and!; try done.
      + rewrite Ho2 by lia. done.
      + rewrite Ho2 by done. by apply Ho1.
      + rewrite Ho2 by done. by apply Ho1. }
  unfold s'. fold sB. rewrite EL.
  apply lookup_lt_Some in Ha as Hlta. apply lookup_lt_Some in Hb as Hltb.
  apply lookup_lt_Some in Hc as Hltc.
  destruct (UpdateLeasesEnd_two_of_four sL (lease_key a) (lease_key b)
              (lease_key c) (lease_key d) pA pB pC (length (heap s))
              (set_isUpdated true (set_endDate (endDate a')
                 (set_isUpdated false a)))
              (set_isUpdated false b) (set_isUpdated false c)
              (set_isUpdated true d) HstL)
    as (Em & EA & ED & EB & EC); try done.
  by rewrite HmL, Hm.
Qed.

End Reconciliation.

Lemma reconcile_ABC_with_AD_witness :
  let s' :=
    @UpdateLeasesEnd
      (@apply_leases sample_env 250000 [sample_lease_A'; sample_lease_D]
         (UpdateLeasesBegin sample_ABC)) in
  m_Leases s'
  = {[lease_key sample_lease_A := 0%nat;
      lease_key sample_lease_D := length (heap sample_ABC)]} ∧
  heap s' !! 0%nat
  = Some (set_isUpdated true (set_endDate (endDate sample_lease_A') sample_lease_A)) ∧
  heap s' !! length (heap sample_ABC) = Some (set_isUpdated true sample_lease_D) ∧
  heap s' !! 1%nat = Some (set_endDate 0 (set_isUpdated false sample_lease_B)) ∧
  heap s' !! 2%nat = Some (set_endDate 0 (set_isUpdated false sample_lease_C)).
Proof.
  apply (@reconcile_ABC_with_AD sample_env 250000 sample_ABC
           sample_lease_A sample_lease_B sample_lease_C
           sample_lease_A' sample_lease_D 0 1 2
           [sample_lease_A'; sample_lease_D]).
  - vm_compute. reflexivity.
  - apply three_leases_map; vm_compute; congruence.
  - vm_compute. congruence.
  - vm_compute. congruence.
  - vm_compute. congruence.
  - vm_compute. reflexivity.
  - vm_compute. reflexivity.
  - vm_compute. reflexivity.
  - vm_compute. reflexivity.
  - vm_compute. congruence.
  - vm_compute. congruence.
  - vm_compute. congruence.
  - vm_compute. reflexivity.
  - vm_compute. reflexivity.
  - by left.
Defined.

Lemma Update_twice_same_leases_witness :
  ∃ s2, @Update sample_env sample_AD true 250000 sample_updated = Ok s2 ∧
    m_Leases s2 = m_Leases sample_updated ∧ heap s2 = heap sample_updated ∧
    m_ExpirationTime s2 = m_ExpirationTime sample_updated ∧
    m_IsValid s2 = m_IsValid sample_updated.
Proof.
  apply (@Update_twice_same_leases sample_env sample_AD true 250000
           sample_ABC sample_updated).
  - apply leases_keyedb_correct. vm_compute. reflexivity.
  - vm_compute. reflexivity.
Defined.

Lemma ReadFromBuffer_signature_failure_keeps_leases_witness :
  let s := SetBuffer sample_AD_unsigned sample_ABC in
  let ident := @decode_identity sample_env false s in
  let ls := legacy_leases ident (m_Buffer s) in
  let sr :=
    @reconcile_legacy sample_env 250000 ls
      (@legacy_header_read sample_env false s) in
  @ReadFromBuffer sample_env false false 250000 s = Ok sr ∧
  @ReadFromBuffer sample_env false true 250000 s = Ok (SetIsValid false sr) ∧
  m_IsValid (SetIsValid false sr) = false ∧
  m_Leases (SetIsValid false sr) = m_Leases sr ∧
  heap (SetIsValid false sr) = heap sr ∧
  m_ExpirationTime (SetIsValid false sr)
  = u64 (@loop_expiration sample_env 250000 ls
         + @LEASE_ENDDATE_THRESHOLD sample_env).
Proof.
  intros s ident ls sr.
  apply (@ReadFromBuffer_signature_failure_keeps_leases sample_env false 250000
           s x02).
  - vm_compute. reflexivity.
  - vm_compute. lia.
  - vm_compute. lia.
  - vm_compute. congruence.
  - vm_compute. reflexivity.
Defined.

(** In the sample of C3 the record, invalid for its signature, holds the
    two leases of the buffer and the expiration time of the later one. *)
Lemma sample_signature_failure :
  @ReadFromBuffer sample_env false true 250000
     (SetBuffer sample_AD_unsigned sample_ABC)
  = Ok (SetBuffer sample_AD_unsigned (SetIsValid false sample_updated)) ∧
  m_IsValid sample_updated = true ∧
  size (m_Leases sample_updated) = 2%nat ∧
  m_ExpirationTime sample_updated = 551000.
Proof. split_and!; vm_compute; reflexivity. Qed.

Lemma legacy_decode_truncated_reads_past_length_witness :
  (∃ i, @LeaseSet_FromBuffer sample_env (take 800 sample_two_leases) true
          200000 [] = OutOfBounds i ∧
        (length (take 800 sample_two_leases) ≤ i)%nat) ∧
  (∃ i, @LeaseSetBufferValidate sample_env (take 800 sample_two_leases)
        = OutOfBounds i ∧
        (length (take 800 sample_two_leases) ≤ i)%nat).
Proof.
  apply (@legacy_decode_truncated_reads_past_length sample_env
           (take 800 sample_two_leases) true 200000 []).
  split.
  - vm_compute. lia.
  - right. exists x02. split_and!.
    + vm_compute. reflexivity.
    + vm_compute. lia.
    + vm_compute. lia.
    + vm_compute. lia.
Defined.

(** The same reconciliation through a whole decode: the record holding A,
    B and C, updated from the lease set with A' and D, holds A and D; the
    objects of B and C are still in the heap, with end date 0. *)
Lemma sample_update_reconciles :
  succeeded (@Update sample_env sample_AD true 250000 sample_ABC) = true ∧
  heap sample_ABC = [sample_lease_A; sample_lease_B; sample_lease_C] ∧
  size (m_Leases sample_updated) = 2%nat ∧
  m_Leases sample_updated !! lease_key sample_lease_A = Some 0%nat ∧
  m_Leases sample_updated !! lease_key sample_lease_D = Some 3%nat ∧
  heap sample_updated
  = [mkLease (replicate 32 x0a) 1 350000 true;
     mkLease (replicate 32 x0b) 2 0 false;
     mkLease (replicate 32 x0c) 3 0 false;
     mkLease (replicate 32 x0d) 4 500000 true].
Proof. split_and!; vm_compute; reflexivity. Qed.

(** ** Further properties of the decoders, the queries and the local
       constructors *)

(** The first read of a decoder that is assumed to return: it returned. *)
Tactic Notation "bind_head" "as" simple_intropattern(x) :=
  lazymatch goal with
  | |- mbind _ ?m = _ → _ =>
      destruct m as [x|]; cbn [mbind result_bind]; [|done]
  end.
Tactic Notation "bind_head" "as" simple_intropattern(x) "eqn" ":" ident(E) :=
  lazymatch goal with
  | |- mbind _ ?m = _ → _ =>
      destruct m as [x|] eqn:E; cbn [mbind result_bind]; [|done]
  end.


(** *** Freshness *)

Section FreshnessMore.
Context `{!Env}.

Lemma ExtractLeases_in_bounds (buf : list byte) (n size : nat) (t : Z) :
  (size + n * LEASE_SIZE ≤ length buf)%nat →
  ∃ t', ExtractLeases buf n size t = Ok t'.
Proof. intros Hfit. rewrite ExtractLeases_fold by done. eauto. Qed.

(** X1: [ExtractTimestamp] reads past the length of a candidate in one case
    only: the record has an identity and the candidate ends exactly where
    the lease count should be, and the index read is then the length.
    Every other candidate, however malformed, is answered with all reads
    inside it. *)
Theorem ExtractTimestamp_fault_only_at_count (buf : list byte) (s : LeaseSet)
    (i : nat) :
  ExtractTimestamp buf s = OutOfBounds i →
  ∃ ident, m_Identity s = Some ident ∧
    length buf = legacy_count_offset ident ∧ i = length buf.
Proof.
  unfold ExtractTimestamp. destruct (m_Identity s) as [ident|]; [|done].
  intros Hrun. exists ident. split; [done|]. unfold legacy_count_offset.
  case_bool_decide as H1; [done|]. case_bool_decide as H2; [done|].
  unfold read8 in Hrun.
  destruct (buf !! _) as [num|] eqn:Hnum.
  - cbn [mbind result_bind] in Hrun. case_bool_decide as H3; [done|].
    destruct (ExtractLeases_in_bounds buf (byte_nat num)
      (GetFullLen ident + 256 + GetSigningPublicKeyLen ident + 1) 0) as [t Ht];
      [lia|]. congruence.
  - apply lookup_ge_None in Hnum. cbn in Hrun. injection Hrun as <-. lia.
Qed.

Lemma ExtractTimestamp_identity (buf : list byte) (s1 s2 : LeaseSet) :
  m_Identity s1 = m_Identity s2 →
  ExtractTimestamp buf s1 = ExtractTimestamp buf s2.
Proof. unfold ExtractTimestamp. by intros ->. Qed.

(** X2: [IsNewer] is asymmetric.  Between two records of the same identity,
    when the buffer of the second is newer than the first record, the
    buffer of the first is not newer than the second; with the same record
    twice, no record is newer than itself. *)
Theorem IsNewer_asymmetric (s1 s2 : LeaseSet) :
  m_Identity s1 = m_Identity s2 →
  IsNewer (m_Buffer s2) s1 = Ok true →
  IsNewer (m_Buffer s1) s2 = Ok false.
Proof.
  intros Hid. unfold IsNewer.
  rewrite <- !(ExtractTimestamp_identity _ s1 s2 Hid).
  destruct (ExtractTimestamp (m_Buffer s2) s1) as [t2|]; [|done].
  destruct (ExtractTimestamp (m_Buffer s1) s1) as [t1|]; [|done].
  cbn. intros [= Hlt]. f_equal. apply Z.ltb_lt in Hlt. apply Z.ltb_ge. lia.
Qed.

End FreshnessMore.


(** *** The standalone validator *)

Section ValidateMore.
Context `{!Env}.

Lemma ValidateLeases_fold (buf : list byte) (n leases : nat) (expires : Z) :
  (leases + n * LEASE_SIZE ≤ length buf)%nat →
  ValidateLeases buf n leases expires =
    Ok (foldl Z.max expires
          ((λ i : nat, be_decode (take 8 (drop (leases + i * LEASE_SIZE + 36) buf)))
             <$> seq 0 n),
        (leases + n * LEASE_SIZE)%nat).
Proof.
  revert leases expires. induction n as [|n IH]; intros leases expires Hfit.
  - cbn. do 2 f_equal. lia.
  - unfold LEASE_SIZE in *. cbn [ValidateLeases].
    rewrite bufbe64toh_ok by lia. cbn [mbind result_bind].
    rewrite IH by lia. cbn [seq fmap list_fmap foldl].
    rewrite <- (fmap_S_seq 0 n), <- list_fmap_compose.
    replace (leases + 0 * 44 + 36)%nat with (leases + 36)%nat by lia.
    f_equal. f_equal; [|lia].
    assert ((if expires <? be_decode (take 8 (drop (leases + 36) buf))
             then be_decode (take 8 (drop (leases + 36) buf)) else expires)
            = Z.max expires (be_decode (take 8 (drop (leases + 36) buf)))) as ->.
    { destruct (Z.ltb_spec expires (be_decode (take 8 (drop (leases + 36) buf))));
        lia. }
    f_equal. apply list_fmap_ext. intros i x _. cbn.
    do 3 f_equal. lia.
Qed.

(** What [LeaseSetBufferValidate] returns on a buffer that holds a lease
    count in range and the leases it declares. *)
Lemma LeaseSetBufferValidate_fits (ptr : list byte) (num : byte) :
  let ident := IdentityEx_FromBuffer ptr in
  let sigoff := legacy_signature_offset ident ptr in
  ptr !! legacy_count_offset ident = Some num →
  (0 < byte_nat num ≤ MAX_NUM_LEASES)%nat →
  (sigoff ≤ length ptr)%nat →
  LeaseSetBufferValidate ptr =
    signature ← read_bytes ptr sigoff (GetSignatureLen ident);
    Ok (Verify ident (take sigoff ptr) signature,
        Some (spec_max_end_date (legacy_end_dates ident ptr))).
Proof.
  intros ident sigoff Hnum Hrange Hfit. subst sigoff.
  unfold LeaseSetBufferValidate, legacy_signature_offset, legacy_end_dates in *.
  fold ident. rewrite Hnum in *. unfold legacy_count_offset in *.
  apply lookup_lt_Some in Hnum as Hlt.
  rewrite bool_decide_eq_false_2 by lia.
  unfold read8. rewrite Hnum. cbn [mbind result_bind].
  rewrite bool_decide_eq_false_2 by lia.
  rewrite ValidateLeases_fold by lia. cbn [mbind result_bind]. done.
Qed.

(** X3: on a buffer that holds a lease count in range, the leases it
    declares and a signature after them, [LeaseSetBufferValidate] answers
    what the identity's [Verify] says of the bytes before the signature and
    that signature, and leaves in [expires] the maximum end date of the
    leases, expired or not. *)
Theorem LeaseSetBufferValidate_max_end_date (ptr : list byte) (num : byte) :
  let ident := IdentityEx_FromBuffer ptr in
  let sigoff := legacy_signature_offset ident ptr in
  ptr !! legacy_count_offset ident = Some num →
  (0 < byte_nat num ≤ MAX_NUM_LEASES)%nat →
  (sigoff + GetSignatureLen ident ≤ length ptr)%nat →
  LeaseSetBufferValidate ptr =
    Ok (Verify ident (take sigoff ptr)
          (take (GetSignatureLen ident) (drop sigoff ptr)),
        Some (spec_max_end_date (legacy_end_dates ident ptr))).
Proof.
  intros ident sigoff Hnum Hrange Hfit.
  rewrite (LeaseSetBufferValidate_fits ptr num) by (done || fold ident sigoff; lia).
  fold ident sigoff. by rewrite read_bytes_ok by lia.
Qed.

(** X4: a buffer from which the [LeaseSet] constructor builds a valid
    record, at whatever clock and whether leases are stored or not, is
    accepted by [LeaseSetBufferValidate], which reads inside the buffer
    only and reports the maximum end date. *)
Theorem LeaseSet_valid_LeaseSetBufferValidate (buf : list byte)
    (storeLeases : bool) (ts : Z) (h : list Lease) (s : LeaseSet) :
  LeaseSet_FromBuffer buf storeLeases ts h = Ok s →
  m_IsValid s = true →
  LeaseSetBufferValidate buf
  = Ok (true, Some (spec_max_end_date
                      (legacy_end_dates (IdentityEx_FromBuffer buf) buf))).
Proof.
  unfold LeaseSet_FromBuffer. intros Hrun Hvalid.
  set (s0 := mkLeaseSet true storeLeases 0 buf None [] ∅ h []) in *.
  pose proof (ReadFromBuffer_Ok_inv true true ts s0 s Hrun) as Hinv.
  cbv zeta in Hinv.
  change (decode_identity true s0) with (IdentityEx_FromBuffer buf) in Hinv.
  change (m_Buffer s0) with buf in Hinv.
  set (ident := IdentityEx_FromBuffer buf) in *.
  destruct Hinv as [Hshort|(num & Hnum & [Hbad|[Hgood Hfit]])].
  - rewrite ReadFromBuffer_short in Hrun by done. injection Hrun as <-. done.
  - rewrite (ReadFromBuffer_bad_count _ _ _ _ num) in Hrun by done.
    injection Hrun as <-. done.
  - rewrite (ReadFromBuffer_leases _ _ _ _ num) in Hrun by done.
    cbv zeta in Hrun.
    change (decode_identity true s0) with ident in Hrun.
    change (m_Buffer s0) with buf in Hrun.
    case_bool_decide; [injection Hrun as <-; done|].
    rewrite (LeaseSetBufferValidate_fits buf num); [|done|lia|done].
    fold ident.
    destruct (read_bytes buf _ _) as [signature|]; [|done].
    cbn [mbind result_bind] in *.
    destruct (Verify ident _ signature); [done|].
    injection Hrun as <-. done.
Qed.

End ValidateMore.


(** *** A decode that leaves the record valid *)

Section DecodeMore.
Context `{!Env}.

Lemma loop_expiration_cases (ts : Z) (ls : list Lease) :
  loop_expiration ts ls = 0 ∨
  ∃ l, l ∈ ls ∧ unexpired ts l = true ∧ endDate l = loop_expiration ts ls.
Proof.
  unfold loop_expiration.
  assert (∀ e0, foldl (λ e l, if unexpired ts l && (e <? endDate l)
                              then endDate l else e) e0 ls = e0 ∨
    ∃ l, l ∈ ls ∧ unexpired ts l = true ∧
      endDate l = foldl (λ e l, if unexpired ts l && (e <? endDate l)
                                then endDate l else e) e0 ls) as Hgen.
  { induction ls as [|l ls IH]; intros e0; [by left|]. cbn [foldl].
    destruct (IH (if unexpired ts l && (e0 <? endDate l) then endDate l else e0))
      as [E|(l' & Hin & Hun & E)].
    - rewrite E. destruct (unexpired ts l) eqn:Hun; [|by left]. cbn.
      destruct (e0 <? endDate l); [|by left].
      right. exists l. split_and!; [by left|done|done].
    - right. exists l'. split_and!; [by right|done|done]. }
  apply Hgen.
Qed.

Lemma final_view_lookup (ts : Z) (ls : list Lease) (k : LeaseKey) (x : Lease) :
  final_view ts ls !! k = Some x →
  ∃ l, l ∈ ls ∧ unexpired ts l = true ∧ lease_key l = k ∧
       x = set_isUpdated true l.
Proof.
  unfold final_view.
  assert (∀ M : gmap LeaseKey Lease, foldl (λ M l, if unexpired ts l
                 then <[lease_key l := set_isUpdated true l]> M else M) M ls
               !! k = Some x →
            M !! k = Some x ∨
            ∃ l, l ∈ ls ∧ unexpired ts l = true ∧ lease_key l = k ∧
                 x = set_isUpdated true l) as Hgen.
  { induction ls as [|l ls IH]; intros M HM; [by left|]. cbn [foldl] in HM.
    destruct (IH _ HM) as [HM'|(l' & Hin & Hun & Hk & Hx)].
    - destruct (unexpired ts l) eqn:Hun; [|by left].
      rewrite lookup_insert in HM'. case_decide as Hkk.
      + injection HM' as <-. right. exists l. split_and!; [by left|done..].
      + by left.
    - right. exists l'. split_and!; [by right|done..]. }
  intros HF. destruct (Hgen ∅ HF) as [HM|?]; [|done].
  by rewrite lookup_empty in HM.
Qed.

Lemma final_view_key (ts : Z) (ls : list Lease) (l : Lease) :
  l ∈ ls → unexpired ts l = true → is_Some (final_view ts ls !! lease_key l).
Proof.
  unfold final_view. intros Hin Hun.
  assert (∀ M : gmap LeaseKey Lease, (is_Some (M !! lease_key l) ∨ l ∈ ls) →
    is_Some (foldl (λ M l, if unexpired ts l
                 then <[lease_key l := set_isUpdated true l]> M else M) M ls
               !! lease_key l)) as Hgen.
  { clear Hin. induction ls as [|l' ls IH]; intros M [HM|Hin]; cbn [foldl].
    - done.
    - by apply elem_of_nil in Hin.
    - apply IH. left. destruct (unexpired ts l'); [|done].
      rewrite lookup_insert. by case_decide.
    - apply IH. apply elem_of_cons in Hin as [<-|Hin]; [|by right].
      left. rewrite Hun. by rewrite lookup_insert_eq. }
  apply Hgen. by right.
Qed.

(** A decode that leaves the record valid has gone all the way: the record
    is the reconciled one, some lease of the buffer set the expiration time
    and the record was valid before. *)
Lemma ReadFromBuffer_valid_inv (readIdentity verifySignature : bool) (ts : Z)
    (s s1 : LeaseSet) :
  let ident := decode_identity readIdentity s in
  let ls := legacy_leases ident (m_Buffer s) in
  ReadFromBuffer readIdentity verifySignature ts s = Ok s1 →
  m_IsValid s1 = true →
  s1 = reconcile_legacy ts ls (legacy_header_read readIdentity s) ∧
  loop_expiration ts ls ≠ 0 ∧ m_IsValid s = true.
Proof.
  intros ident ls Hrun Hvalid.
  pose proof (ReadFromBuffer_Ok_inv _ _ _ _ _ Hrun) as Hinv. cbv zeta in Hinv.
  fold ident in Hinv.
  destruct Hinv as [Hshort|(num & Hnum & [Hbad|[Hgood Hfit]])].
  - rewrite ReadFromBuffer_short in Hrun by done. by injection Hrun as <-.
  - rewrite (ReadFromBuffer_bad_count _ _ _ _ num) in Hrun by done.
    by injection Hrun as <-.
  - rewrite (ReadFromBuffer_leases _ _ _ _ num) in Hrun by done.
    cbv zeta in Hrun. fold ident ls in Hrun.
    destruct (legacy_loop_fields ts ls (legacy_header_read readIdentity s))
      as (_ & _ & _ & _ & Ee).
    destruct (reconcile_legacy_fields ts ls (legacy_header_read readIdentity s))
      as (_ & _ & _ & Ev & _).
    rewrite Ee in Hrun. case_bool_decide as Hexp; [by injection Hrun as <-|].
    assert (s1 = reconcile_legacy ts ls (legacy_header_read readIdentity s)) as ->.
    { destruct verifySignature; [|by injection Hrun as <-].
      destruct (read_bytes _ _ _); [|done]. cbn [mbind result_bind] in Hrun.
      destruct (Verify _ _ _); by injection Hrun as <-. }
    split_and!; [done|done|]. by rewrite Ev in Hvalid.
Qed.

(** X5: a record that a legacy decode leaves valid is not expired at the
    clock of that decode: its expiration time lies ahead and, where leases
    are stored, its set is not empty. *)
Theorem ReadFromBuffer_valid_not_expired (readIdentity verifySignature : bool)
    (ts : Z) (s s1 : LeaseSet) :
  leases_keyed s →
  ReadFromBuffer readIdentity verifySignature ts s = Ok s1 →
  m_IsValid s1 = true →
  IsExpired ts s1 = false.
Proof.
  intros Hk Hrun Hvalid.
  destruct (ReadFromBuffer_valid_inv _ _ _ _ _ Hrun Hvalid) as (-> & Hexp & _).
  set (ls := legacy_leases _ _) in *.
  set (s0 := legacy_header_read readIdentity s) in *.
  assert (leases_keyed s0) as Hk0 by done.
  destruct (reconcile_legacy_fields ts ls s0) as (Est & _ & _ & _ & Ee).
  destruct (loop_expiration_cases ts ls) as [?|(l & Hin & Hun & El)]; [done|].
  unfold IsExpired. rewrite Est, Ee.
  assert ((u64 (loop_expiration ts ls + LEASE_ENDDATE_THRESHOLD) <? ts) = false)
    as ->.
  { rewrite <- El. unfold unexpired in Hun. apply Z.ltb_lt in Hun.
    apply Z.ltb_ge. lia. }
  destruct (m_StoreLeases s0) eqn:Hst; [|done]. cbn.
  rewrite bool_decide_eq_false_2; [done|]. intros Hempty.
  destruct (reconciled_char ts ls s0
    (u64 (m_ExpirationTime (legacy_loop ts ls s0) + LEASE_ENDDATE_THRESHOLD))
    Hst Hk0) as (_ & R2 & _).
  destruct (R2 (lease_key l)) as [p Hp]; [by apply final_view_key|].
  unfold reconcile_legacy in Hempty. rewrite Hempty in Hp.
  by rewrite lookup_empty in Hp.
Qed.

(** X6: after a decode that stored leases and left the record valid, every
    lease of the set is among those [GetNonExpiredLeases] returns with the
    threshold at the clock of the decode. *)
Theorem ReadFromBuffer_valid_leases_unexpired (readIdentity verifySignature : bool)
    (ts : Z) (s s1 : LeaseSet) (k : LeaseKey) (p : nat) :
  leases_keyed s → m_StoreLeases s = true →
  ReadFromBuffer readIdentity verifySignature ts s = Ok s1 →
  m_IsValid s1 = true →
  m_Leases s1 !! k = Some p →
  p ∈ GetNonExpiredLeases true ts s1.
Proof.
  intros Hk Hst Hrun Hvalid Hp.
  destruct (ReadFromBuffer_valid_inv _ _ _ _ _ Hrun Hvalid) as (-> & Hexp & _).
  set (ls := legacy_leases _ _) in *.
  set (s0 := legacy_header_read readIdentity s) in *.
  assert (leases_keyed s0) as Hk0 by done.
  assert (m_StoreLeases s0 = true) as Hst0 by done.
  destruct (reconciled_char ts ls s0
    (u64 (m_ExpirationTime (legacy_loop ts ls s0) + LEASE_ENDDATE_THRESHOLD))
    Hst0 Hk0) as (R1 & _ & _).
  destruct (R1 k p Hp) as (x & HF & Hx & _).
  destruct (final_view_lookup ts ls k x HF) as (l & Hin & Hun & Hkey & ->).
  unfold GetNonExpiredLeases. apply elem_of_GetNonExpiredLeasesExcluding.
  exists k. split; [done|].
  fold (reconcile_legacy ts ls s0) in Hx.
  rewrite (list_lookup_total_correct _ _ _ Hx). cbn. by rewrite andb_true_r.
Qed.

End DecodeMore.


Section ValidInvariant.
Context `{!Env}.

Lemma loop_expiration_max (ts : Z) (ls : list Lease) (l : Lease) :
  l ∈ ls → unexpired ts l = true → endDate l ≤ loop_expiration ts ls.
Proof.
  unfold loop_expiration.
  assert (∀ e0,
    e0 ≤ foldl (λ e l, if unexpired ts l && (e <? endDate l)
                       then endDate l else e) e0 ls ∧
    (l ∈ ls → unexpired ts l = true →
     endDate l ≤ foldl (λ e l, if unexpired ts l && (e <? endDate l)
                              then endDate l else e) e0 ls)) as Hgen.
  { induction ls as [|l0 ls IH]; intros e0; cbn [foldl].
    - split; [lia|]. by intros ?%elem_of_nil.
    - set (e1 := if unexpired ts l0 && (e0 <? endDate l0)
                 then endDate l0 else e0).
      assert (e0 ≤ e1 ∧ (unexpired ts l0 = true → endDate l0 ≤ e1)) as [H0 H1].
      { unfold e1. destruct (unexpired ts l0); cbn [andb]; [|split; [lia|done]].
        destruct (Z.ltb_spec e0 (endDate l0)); cbv iota; lia. }
      clearbody e1. destruct (IH e1) as [Hmono Hin].
      split; [lia|]. intros [->|Hl]%elem_of_cons Hun; [|by apply Hin].
      specialize (H1 Hun). lia. }
  intros Hin Hun. by apply Hgen.
Qed.

(** X25: what a valid record stands for.  When [ReadFromBuffer] is asked
    to verify the signature and leaves the record valid, the buffer holds a
    lease count between 1 and [MAX_NUM_LEASES], the leases it declares and
    the signature after them all lie within the buffer, the identity
    accepts that signature for the bytes before it, and the expiration time
    is the latest end date among the leases not yet expired, which is not
    0, plus the threshold. *)
Theorem ReadFromBuffer_valid_invariant (readIdentity : bool) (ts : Z)
    (s s1 : LeaseSet) :
  let ident := decode_identity readIdentity s in
  let buf := m_Buffer s in
  let ls := legacy_leases ident buf in
  let sigoff := legacy_signature_offset ident buf in
  ReadFromBuffer readIdentity true ts s = Ok s1 →
  m_IsValid s1 = true →
  (∃ num, buf !! legacy_count_offset ident = Some num ∧
          (0 < byte_nat num ≤ MAX_NUM_LEASES)%nat) ∧
  (sigoff ≤ length buf)%nat ∧
  (GetSignatureLen ident = 0 ∨ sigoff + GetSignatureLen ident ≤ length buf)%nat ∧
  Verify ident (take sigoff buf) (take (GetSignatureLen ident) (drop sigoff buf))
    = true ∧
  ∃ l, l ∈ ls ∧ unexpired ts l = true ∧ endDate l ≠ 0 ∧
    (∀ l', l' ∈ ls → unexpired ts l' = true → endDate l' ≤ endDate l) ∧
    m_ExpirationTime s1 = u64 (endDate l + LEASE_ENDDATE_THRESHOLD).
Proof.
  intros ident buf ls sigoff Hrun Hvalid.
  pose proof (ReadFromBuffer_Ok_inv _ _ _ _ _ Hrun) as Hinv. cbv zeta in Hinv.
  fold ident buf in Hinv.
  destruct (ReadFromBuffer_valid_inv _ _ _ _ _ Hrun Hvalid) as (Es1 & Hexp & Hv).
  fold ident buf ls in Es1, Hexp.
  destruct Hinv as [Hshort|(num & Hnum & [Hbad|[Hgood Hfit]])].
  { rewrite ReadFromBuffer_short in Hrun by done. injection Hrun as <-. done. }
  { rewrite (ReadFromBuffer_bad_count _ _ _ _ num) in Hrun by done.
    injection Hrun as <-. done. }
  fold sigoff in Hfit.
  rewrite (ReadFromBuffer_leases _ _ _ _ num) in Hrun by done.
  cbv zeta in Hrun. fold ident buf ls sigoff in Hrun.
  destruct (legacy_loop_fields ts ls (legacy_header_read readIdentity s))
    as (_ & _ & _ & _ & Ee).
  destruct (reconcile_legacy_fields ts ls (legacy_header_read readIdentity s))
    as (_ & _ & _ & Evr & Eer).
  rewrite Ee in Hrun. rewrite bool_decide_eq_false_2 in Hrun by done.
  unfold read_bytes in Hrun. case_bool_decide as Hsig; [|done].
  cbn [mbind result_bind] in Hrun.
  destruct (Verify ident _ _) eqn:Hver;
    [|injection Hrun as <-; done].
  split_and!.
  - exists num. split; [done|]. lia.
  - done.
  - done.
  - done.
  - destruct (loop_expiration_cases ts ls) as [?|(l & Hin & Hun & El)]; [done|].
    exists l. split_and!; [done|done|congruence| |].
    + intros l' Hin' Hun'. rewrite El. by apply loop_expiration_max.
    + rewrite Es1, Eer. by rewrite El.
Qed.

End ValidInvariant.


(** *** Reconciliation through a whole decode *)

Section ReconcileMore.
Context `{!Env}.

(** X7: the reconciliation of a whole decode.  A record that stores leases
    and is left valid by [ReadFromBuffer] holds a lease for exactly the keys
    of the leases of the buffer that have not expired; the object of each is
    one of those leases, marked; a key the record held before and still
    holds keeps its pointer; and the object of a key it held before and
    holds no more is still there for whoever has a pointer to it, with end
    date 0. *)
Theorem ReadFromBuffer_reconciles (readIdentity verifySignature : bool)
    (ts : Z) (s s1 : LeaseSet) :
  let ls := legacy_leases (decode_identity readIdentity s) (m_Buffer s) in
  leases_keyed s → m_StoreLeases s = true →
  ReadFromBuffer readIdentity verifySignature ts s = Ok s1 →
  m_IsValid s1 = true →
  (∀ k, is_Some (m_Leases s1 !! k) ↔
        ∃ l, l ∈ ls ∧ unexpired ts l = true ∧ lease_key l = k) ∧
  (∀ k p, m_Leases s1 !! k = Some p →
     ∃ l, l ∈ ls ∧ unexpired ts l = true ∧ lease_key l = k ∧
          heap s1 !! p = Some (set_isUpdated true l)) ∧
  (∀ k p, m_Leases s !! k = Some p → is_Some (m_Leases s1 !! k) →
     m_Leases s1 !! k = Some p) ∧
  (∀ k p x, m_Leases s !! k = Some p → heap s !! p = Some x →
     m_Leases s1 !! k = None →
     heap s1 !! p = Some (set_endDate 0 (set_isUpdated false x))).
Proof.
  intros ls Hk Hst Hrun Hvalid.
  destruct (ReadFromBuffer_valid_inv _ _ _ _ _ Hrun Hvalid) as (-> & Hexp & _).
  fold ls in Hexp |- *.
  set (s0 := legacy_header_read readIdentity s) in *.
  assert (leases_keyed s0) as Hk0 by done.
  assert (m_StoreLeases s0 = true) as Hst0 by done.
  assert (m_Leases s0 = m_Leases s) as Em0 by done.
  assert (heap s0 = heap s) as Eh0 by done.
  unfold reconcile_legacy.
  set (e := u64 (m_ExpirationTime (legacy_loop ts ls s0) + LEASE_ENDDATE_THRESHOLD)).
  destruct (reconciled_char ts ls s0 e Hst0 Hk0) as (R1 & R2 & R3).
  cbv zeta in R1, R2, R3.
  set (sr := UpdateLeasesEnd (SetExpirationTime e (legacy_loop ts ls s0))) in *.
  destruct (legacy_loop_inv ts ls s0 Hst0 Hk0)
    as (Hstl & Hkl & Hold & Hdom & HF & Hobj & Hframe & _ & Hmark).
  set (sl := legacy_loop ts ls s0) in *.
  cbn [m_Leases heap SetExpirationTime] in Hold.
  rewrite UpdateLeasesBegin_Leases in Hold by done.
  assert (∀ k, m_Leases sr !! k
               = match m_Leases sl !! k with
                 | Some p => if isUpdated (heap sl !!! p) then Some p else None
                 | None => None
                 end) as Hend.
  { intros k. unfold sr. by rewrite UpdateLeasesEnd_Leases by done. }
  split_and!.
  - intros k. split.
    + intros [p Hp]. destruct (R1 k p Hp) as (x & HFk & _).
      destruct (final_view_lookup ts ls k x HFk) as (l & ? & ? & ? & _). eauto.
    + intros (l & Hin & Hun & <-). apply R2. by apply final_view_key.
  - intros k p Hp. destruct (R1 k p Hp) as (x & HFk & Hx & _).
    destruct (final_view_lookup ts ls k x HFk) as (l & ? & ? & ? & ->).
    exists l. done.
  - intros k p Hp [p' Hp']. rewrite Em0 in Hold. apply Hold in Hp.
    rewrite Hend, Hp in Hp'. rewrite Hend, Hp.
    by destruct (isUpdated _).
  - intros k p x Hp Hx Hnone.
    assert (final_view ts ls !! k = None) as HFk.
    { destruct (final_view ts ls !! k) eqn:E; [|done].
      destruct (R2 k) as [? ?]; [by rewrite E|congruence]. }
    rewrite <- Em0 in Hp. pose proof (Hold _ _ Hp) as Hpl.
    destruct (legacy_loop_unnamed ts ls s0 k p Hst0 Hk0 Hpl HFk) as [_ Hh].
    fold sl in Hh. rewrite Eh0, Hx in Hh. cbn in Hh.
    unfold sr. rewrite UpdateLeasesEnd_heap by done.
    cbn [heap SetExpirationTime]. rewrite Hh.
    rewrite bool_decide_eq_true_2 by (apply points_to_lookup; eauto).
    done.
Qed.

Lemma apply_leases_expired (ts : Z) (ls : list Lease) (s : LeaseSet) :
  (∀ l, l ∈ ls → unexpired ts l = false) → apply_leases ts ls s = s.
Proof.
  revert s. induction ls as [|l ls IH]; intros s Hall; [done|].
  unfold apply_leases in *. cbn [foldl].
  rewrite UpdateLease_expired by (apply Hall; by left).
  apply IH. intros l' Hl'. apply Hall. by right.
Qed.

Lemma loop_expiration_expired (ts : Z) (ls : list Lease) :
  (∀ l, l ∈ ls → unexpired ts l = false) → loop_expiration ts ls = 0.
Proof.
  intros Hall. destruct (loop_expiration_cases ts ls) as [?|(l & Hin & Hun & _)];
    [done|]. rewrite Hall in Hun; done.
Qed.

(** X8: when every lease of the buffer has expired, [ReadFromBuffer]
    returns before [UpdateLeasesEnd]: the record is invalid with expiration
    time 0, and the leases it held are all still in its set, with their end
    dates, only unmarked. *)
Theorem ReadFromBuffer_all_expired (readIdentity verifySignature : bool)
    (ts : Z) (s : LeaseSet) (num : byte) :
  let ident := decode_identity readIdentity s in
  let ls := legacy_leases ident (m_Buffer s) in
  m_StoreLeases s = true →
  m_Buffer s !! legacy_count_offset ident = Some num →
  (0 < byte_nat num ≤ MAX_NUM_LEASES)%nat →
  (legacy_signature_offset ident (m_Buffer s) ≤ length (m_Buffer s))%nat →
  (∀ l, l ∈ ls → unexpired ts l = false) →
  ∃ s1, ReadFromBuffer readIdentity verifySignature ts s = Ok s1 ∧
    m_IsValid s1 = false ∧ m_ExpirationTime s1 = 0 ∧
    m_Leases s1 = m_Leases s ∧
    ∀ k p x, m_Leases s !! k = Some p → heap s !! p = Some x →
      heap s1 !! p = Some (set_isUpdated false x).
Proof.
  intros ident ls Hst Hnum Hrange Hfit Hall.
  rewrite (ReadFromBuffer_leases _ _ _ _ num) by (done || lia).
  cbv zeta. fold ident ls.
  set (s0 := legacy_header_read readIdentity s).
  destruct (legacy_loop_fields ts ls s0) as (_ & _ & _ & _ & Ee).
  rewrite Ee, loop_expiration_expired by done.
  rewrite bool_decide_eq_true_2 by done. eexists. split; [done|].
  cbn [m_IsValid m_ExpirationTime m_Leases heap SetIsValid].
  rewrite Ee, loop_expiration_expired by done.
  unfold legacy_loop. rewrite apply_leases_expired by done.
  cbn [m_Leases heap SetExpirationTime].
  assert (m_StoreLeases s0 = true) as Hst0 by done.
  rewrite UpdateLeasesBegin_Leases by done.
  split_and!; try done.
  intros k p x Hp Hx. rewrite UpdateLeasesBegin_heap by done.
  rewrite bool_decide_eq_true_2 by (apply points_to_lookup; exists k; done).
  change (heap s0) with (heap s). by rewrite Hx.
Qed.

(** *** The requests to the network database *)

Lemma UpdateLeasesBegin_requests (s : LeaseSet) :
  netdb_requests (UpdateLeasesBegin s) = netdb_requests s.
Proof.
  destruct s as [v st e b i k m h r]. unfold UpdateLeasesBegin. cbn.
  by destruct st.
Qed.

Lemma UpdateLeasesEnd_requests (s : LeaseSet) :
  netdb_requests (UpdateLeasesEnd s) = netdb_requests s.
Proof.
  destruct (m_StoreLeases s) eqn:Hst.
  - by rewrite UpdateLeasesEnd_alt by done.
  - unfold UpdateLeasesEnd. by rewrite Hst.
Qed.

Lemma UpdateLease_requests (l : Lease) (ts : Z) (s : LeaseSet) :
  netdb_requests (UpdateLease l ts s)
  = netdb_requests s ++
      (if m_StoreLeases s then requested_gateways ts [l] else []).
Proof.
  destruct s as [v st e b i k m h r].
  unfold UpdateLease, requested_gateways, unexpired, insert_lease. cbn.
  destruct (ts <? _) eqn:Hun; cbn.
  - destruct (e <? endDate l); cbn; destruct st; cbn; rewrite ?app_nil_r; try done;
      destruct (m !! lease_key l); cbn;
      destruct (FindRouter (tunnelGateway l)) eqn:Hf; cbn;
      rewrite ?(decide_True_pi), ?app_nil_r; try done.
    all: try (rewrite decide_False by (intros [? ?]; congruence); cbn;
              by rewrite ?app_nil_r).
    all: try (rewrite decide_True by done; done).
  - rewrite decide_False by (intros [? ?]; congruence). cbn.
    destruct st; by rewrite app_nil_r.
Qed.

End ReconcileMore.


(** *** Requests to the network database; decoding without stored leases *)

Section RequestsMore.
Context `{!Env}.

Lemma requested_gateways_cons (ts : Z) (l : Lease) (ls : list Lease) :
  requested_gateways ts (l :: ls)
  = requested_gateways ts [l] ++ requested_gateways ts ls.
Proof.
  unfold requested_gateways. rewrite <- fmap_app. f_equal.
  change (l :: ls) with ([l] ++ ls). by rewrite filter_app.
Qed.

Lemma apply_leases_requests (ts : Z) (ls : list Lease) (s : LeaseSet) :
  netdb_requests (apply_leases ts ls s)
  = netdb_requests s ++
      (if m_StoreLeases s then requested_gateways ts ls else []).
Proof.
  revert s. induction ls as [|l ls IH]; intros s.
  - cbn. destruct (m_StoreLeases s); by rewrite app_nil_r.
  - unfold apply_leases in *. cbn [foldl]. rewrite IH.
    destruct (UpdateLease_fields l ts s) as (-> & _).
    rewrite UpdateLease_requests, <- app_assoc.
    destruct (m_StoreLeases s); [|done].
    by rewrite <- requested_gateways_cons.
Qed.

Lemma legacy_loop_requests (ts : Z) (ls : list Lease) (s : LeaseSet) :
  netdb_requests (legacy_loop ts ls s)
  = netdb_requests s ++
      (if m_StoreLeases s then requested_gateways ts ls else []).
Proof.
  unfold legacy_loop. rewrite apply_leases_requests. cbn.
  rewrite UpdateLeasesBegin_requests.
  by destruct (UpdateLeasesBegin_fields s) as (-> & _).
Qed.

Lemma reconcile_legacy_requests (ts : Z) (ls : list Lease) (s : LeaseSet) :
  netdb_requests (reconcile_legacy ts ls s)
  = netdb_requests s ++
      (if m_StoreLeases s then requested_gateways ts ls else []).
Proof.
  unfold reconcile_legacy. rewrite UpdateLeasesEnd_requests. cbn.
  apply legacy_loop_requests.
Qed.

(** X9: the requests a decode makes to the network database.  Once the
    lease count is read and in range, a decode that returns has asked for
    the gateway of each unexpired lease whose gateway [FindRouter] does not
    know, once per lease and in wire order, when leases are stored, and for
    nothing otherwise; the requests are made before the signature is
    checked, so they are the same when the check fails. *)
Theorem ReadFromBuffer_netdb_requests (readIdentity verifySignature : bool)
    (ts : Z) (s s1 : LeaseSet) (num : byte) :
  let ident := decode_identity readIdentity s in
  let ls := legacy_leases ident (m_Buffer s) in
  m_Buffer s !! legacy_count_offset ident = Some num →
  (0 < byte_nat num ≤ MAX_NUM_LEASES)%nat →
  ReadFromBuffer readIdentity verifySignature ts s = Ok s1 →
  netdb_requests s1
  = netdb_requests s ++
      (if m_StoreLeases s then requested_gateways ts ls else []).
Proof.
  intros ident ls Hnum Hrange Hrun.
  pose proof (ReadFromBuffer_Ok_inv _ _ _ _ _ Hrun) as Hinv. cbv zeta in Hinv.
  fold ident in Hinv.
  destruct Hinv as [Hshort|(num' & Hnum' & [Hbad|[Hgood Hfit]])].
  - apply lookup_lt_Some in Hnum. unfold legacy_count_offset in Hnum. lia.
  - assert (num' = num) as -> by congruence. lia.
  - rewrite (ReadFromBuffer_leases _ _ _ _ num') in Hrun by done.
    cbv zeta in Hrun. fold ident ls in Hrun.
    set (s0 := legacy_header_read readIdentity s) in *.
    pose proof (legacy_loop_requests ts ls s0) as El.
    pose proof (reconcile_legacy_requests ts ls s0) as Er.
    change (netdb_requests s0) with (netdb_requests s) in El, Er.
    change (m_StoreLeases s0) with (m_StoreLeases s) in El, Er.
    case_bool_decide; [by injection Hrun as <-|].
    destruct verifySignature; [|by injection Hrun as <-].
    destruct (read_bytes _ _ _); [|done]. cbn [mbind result_bind] in Hrun.
    destruct (Verify _ _ _); by injection Hrun as <-.
Qed.

(** Without stored leases the reconciliation only sets the expiration
    time. *)
Lemma apply_leases_not_stored (ts : Z) (ls : list Lease) (s : LeaseSet) :
  m_StoreLeases s = false →
  apply_leases ts ls s
  = SetExpirationTime
      (foldl (λ e l, if unexpired ts l && (e <? endDate l) then endDate l else e)
         (m_ExpirationTime s) ls) s.
Proof.
  revert s. induction ls as [|l ls IH]; intros s Hst.
  - by destruct s.
  - unfold apply_leases in *. cbn [foldl].
    assert (UpdateLease l ts s
            = SetExpirationTime
                (if unexpired ts l && (m_ExpirationTime s <? endDate l)
                 then endDate l else m_ExpirationTime s) s) as ->.
    { destruct s as [v st e b i k m h r]. cbn in Hst. subst st.
      unfold UpdateLease, unexpired. cbn.
      destruct (ts <? _); cbn; [|done]. by destruct (e <? endDate l). }
    rewrite IH by done. by destruct s.
Qed.

Lemma reconcile_legacy_not_stored (ts : Z) (ls : list Lease) (s : LeaseSet) :
  m_StoreLeases s = false →
  reconcile_legacy ts ls s
  = SetExpirationTime (u64 (loop_expiration ts ls + LEASE_ENDDATE_THRESHOLD))
      (set_Leases ∅ s).
Proof.
  intros Hst. unfold reconcile_legacy.
  destruct (legacy_loop_fields ts ls s) as (Est & _ & _ & _ & ->).
  rewrite UpdateLeasesEnd_not_stored by (cbn; congruence).
  unfold legacy_loop, UpdateLeasesBegin. rewrite Hst.
  rewrite apply_leases_not_stored by (by destruct s).
  by destruct s.
Qed.

(** X10: a decode that does not store leases allocates no [Lease], requests
    no router, and leaves the set empty, or untouched in an invalid record
    when it stops before the leases. *)
Theorem ReadFromBuffer_not_stored (readIdentity verifySignature : bool)
    (ts : Z) (s s1 : LeaseSet) :
  m_StoreLeases s = false →
  ReadFromBuffer readIdentity verifySignature ts s = Ok s1 →
  heap s1 = heap s ∧ netdb_requests s1 = netdb_requests s ∧
  (m_Leases s1 = ∅ ∨ m_IsValid s1 = false ∧ m_Leases s1 = m_Leases s).
Proof.
  intros Hst Hrun.
  pose proof (ReadFromBuffer_Ok_inv _ _ _ _ _ Hrun) as Hinv. cbv zeta in Hinv.
  destruct Hinv as [Hshort|(num & Hnum & [Hbad|[Hgood Hfit]])].
  - rewrite ReadFromBuffer_short in Hrun by done. injection Hrun as <-.
    split_and!; [done|done|by right].
  - rewrite (ReadFromBuffer_bad_count _ _ _ _ num) in Hrun by done.
    injection Hrun as <-. split_and!; [done|done|by right].
  - rewrite (ReadFromBuffer_leases _ _ _ _ num) in Hrun by done.
    cbv zeta in Hrun.
    set (ls := legacy_leases _ _) in *.
    set (s0 := legacy_header_read readIdentity s) in *.
    assert (m_StoreLeases s0 = false) as Hst0 by done.
    destruct (legacy_loop_not_stored ts ls s0 Hst0) as (_ & Eml & Ehl).
    pose proof (legacy_loop_requests ts ls s0) as Erl.
    pose proof (reconcile_legacy_requests ts ls s0) as Err.
    rewrite Hst0, app_nil_r in Erl, Err.
    rewrite (reconcile_legacy_not_stored ts ls s0 Hst0) in *.
    case_bool_decide; [injection Hrun as <-; split_and!; [done|done|by left]|].
    destruct verifySignature;
      [|injection Hrun as <-; split_and!; [done|done|by left]].
    destruct (read_bytes _ _ _); [|done]. cbn [mbind result_bind] in Hrun.
    destruct (Verify _ _ _); injection Hrun as <-;
      (split_and!; [done|done|by left]).
Qed.

(** X11: [PopulateLeases], at the same clock, on a record built valid
    from a buffer without storing leases gives exactly what the constructor
    gives for that buffer when it stores them. *)
Theorem PopulateLeases_materialises (buf : list byte) (ts : Z) (h : list Lease)
    (s1 : LeaseSet) :
  LeaseSet_FromBuffer buf false ts h = Ok s1 →
  m_IsValid s1 = true →
  PopulateLeases ts s1 = LeaseSet_FromBuffer buf true ts h.
Proof.
  unfold LeaseSet_FromBuffer, PopulateLeases. intros Hrun Hvalid.
  set (i0 := mkLeaseSet true false 0 buf None [] ∅ h []) in *.
  set (i1 := mkLeaseSet true true 0 buf None [] ∅ h []).
  set (ident := IdentityEx_FromBuffer buf).
  pose proof (ReadFromBuffer_Ok_inv _ _ _ _ _ Hrun) as Hinv. cbv zeta in Hinv.
  destruct (ReadFromBuffer_valid_inv _ _ _ _ _ Hrun Hvalid) as (-> & Hexp & _).
  change (decode_identity true i0) with ident in *.
  change (m_Buffer i0) with buf in *.
  set (ls := legacy_leases ident buf) in *.
  destruct Hinv as [Hshort|(num & Hnum & [Hbad|[Hgood Hfit]])].
  { exfalso. rewrite ReadFromBuffer_short in Hrun by done.
    injection Hrun as Hrun. apply (f_equal m_IsValid) in Hrun.
    rewrite <- Hrun in Hvalid. done. }
  { exfalso. rewrite (ReadFromBuffer_bad_count _ _ _ _ num) in Hrun by done.
    injection Hrun as Hrun. apply (f_equal m_IsValid) in Hrun.
    rewrite <- Hrun in Hvalid. done. }
  rewrite reconcile_legacy_not_stored by done.
  set (key := take 256 (drop (GetFullLen ident) buf)).
  set (sp := SetStoreLeases true _).
  assert (sp = mkLeaseSet true true
                 (u64 (loop_expiration ts ls + LEASE_ENDDATE_THRESHOLD))
                 buf (Some ident) key ∅ h []) as Esp by done.
  clearbody sp. subst sp.
  set (sp := mkLeaseSet true true _ buf (Some ident) key ∅ h []).
  rewrite (ReadFromBuffer_leases false true ts sp num); [|done..].
  rewrite (ReadFromBuffer_leases true true ts i1 num); [|done..].
  cbv zeta.
  change (decode_identity false sp) with ident.
  change (decode_identity true i1) with ident.
  change (m_Buffer sp) with buf. change (m_Buffer i1) with buf.
  fold ls.
  assert (legacy_loop ts ls (legacy_header_read false sp)
          = legacy_loop ts ls (legacy_header_read true i1)) as El.
  { unfold legacy_loop. f_equal. }
  unfold reconcile_legacy. by rewrite El.
Qed.

End RequestsMore.


(** *** Expiration queries *)

Section SelectionMore.
Context `{!Env}.

(** X12: when [HasExpiredLeases] answers false, every lease of the set is
    returned by [GetNonExpiredLeases] with the threshold at the same clock,
    for a threshold that is not negative and end dates the threshold does
    not take past 2^64. *)
Theorem HasExpiredLeases_false_all_returned (ts : Z) (s : LeaseSet)
    (k : LeaseKey) (p : nat) :
  0 ≤ ts → 0 ≤ LEASE_ENDDATE_THRESHOLD →
  (∀ k p, m_Leases s !! k = Some p →
     endDate (heap s !!! p) + LEASE_ENDDATE_THRESHOLD < 2 ^ 64) →
  HasExpiredLeases ts s = false →
  m_Leases s !! k = Some p →
  p ∈ GetNonExpiredLeases true ts s.
Proof.
  intros Hts HT Hrange Hnone Hp.
  unfold GetNonExpiredLeases. apply elem_of_GetNonExpiredLeasesExcluding.
  exists k. split; [done|]. rewrite andb_true_r. apply Z.ltb_lt.
  assert (ts < endDate (heap s !!! p)) as Hlt.
  { unfold HasExpiredLeases in Hnone.
    destruct (Z.leb_spec (endDate (heap s !!! p)) ts) as [Hle|?]; [|done].
    exfalso. apply not_true_iff_false in Hnone. apply Hnone.
    apply existsb_exists. exists (k, p). split.
    - apply list_elem_of_In. by apply elem_of_map_to_list.
    - by apply Z.leb_le. }
  specialize (Hrange k p Hp). unfold u64. rewrite Z.mod_small by lia. lia.
Qed.

(** X13: [ExpiresSoon] is monotone in its window and in its jitter: a
    record that expires soon for a window and no jitter does so for any
    wider window and any jitter, whatever [rand ()] returns, as long as the
    clock plus the jitter stays below 2^64. *)
Theorem ExpiresSoon_monotone (dlt dlt' fudge now rnd : Z) (s : LeaseSet) :
  0 ≤ now → 0 ≤ rnd → 0 ≤ fudge → now + fudge < 2 ^ 64 →
  0 ≤ m_ExpirationTime s < 2 ^ 64 →
  dlt ≤ dlt' →
  ExpiresSoon dlt 0 now rnd s = true →
  ExpiresSoon dlt' fudge now rnd s = true.
Proof.
  intros Hnow Hrnd Hfudge Hwrap Hexp Hdlt. unfold ExpiresSoon.
  change (0 =? 0) with true. cbv iota.
  set (e := m_ExpirationTime s) in *.
  assert (∃ now', (if fudge =? 0 then now else u64 (now + rnd mod fudge)) = now'
                  ∧ now ≤ now' < 2 ^ 64) as (now' & -> & Hnow').
  { eexists. split; [done|]. destruct (Z.eqb_spec fudge 0); [lia|].
    pose proof (Z.mod_pos_bound rnd fudge). unfold u64.
    rewrite Z.mod_small by lia. lia. }
  destruct (Z.leb_spec e now) as [Hle|Hgt].
  - intros _. destruct (Z.leb_spec e now'); [done|lia].
  - intros Hd. apply Z.leb_le in Hd. unfold u64 in Hd.
    rewrite Z.mod_small in Hd by lia.
    destruct (Z.leb_spec e now'); [done|].
    apply Z.leb_le. unfold u64. rewrite Z.mod_small by lia. lia.
Qed.

End SelectionMore.


Section SelectionFilter.
Context `{!Env}.

(** A loop that pushes the elements passing a test is a filter. *)
Lemma foldl_push_filter {A B} (c : A → bool) (g : A → B) (l : list A)
    (acc : list B) :
  foldl (λ acc x, if c x then acc ++ [g x] else acc) acc l
  = acc ++ (g <$> filter (λ x, c x = true) l).
Proof.
  revert acc. induction l as [|x l IH]; intros acc; cbn [foldl].
  - by rewrite app_nil_r.
  - rewrite IH, filter_cons. destruct (c x) eqn:Hc.
    + rewrite decide_True by done. cbn. by rewrite <- app_assoc.
    + by rewrite decide_False by done.
Qed.

Lemma filter_fmap_comm {A B} (f : A → B) (P : B → Prop)
    `{!∀ y, Decision (P y)} (l : list A) :
  filter P (f <$> l) = f <$> filter (λ x, P (f x)) l.
Proof.
  induction l as [|x l IH]; [done|]. cbn [fmap list_fmap].
  rewrite !filter_cons. fold (fmap f l). rewrite IH.
  by destruct (decide (P (f x))).
Qed.

(** X28: exclusion only removes.  [GetNonExpiredLeasesExcluding] returns
    the leases [GetNonExpiredLeases] returns for the same threshold and
    clock, without those [exclude] holds of and in the same order. *)
Theorem GetNonExpiredLeasesExcluding_filter (exclude : Lease → bool)
    (withThreshold : bool) (ts : Z) (s : LeaseSet) :
  GetNonExpiredLeasesExcluding exclude withThreshold ts s
  = filter (λ p, exclude (heap s !!! p) = false)
      (GetNonExpiredLeases withThreshold ts s).
Proof.
  unfold GetNonExpiredLeases, GetNonExpiredLeasesExcluding.
  rewrite (foldl_push_filter
    (λ kp : LeaseKey * nat,
       (ts <? (if withThreshold
               then u64 (endDate (heap s !!! kp.2) + LEASE_ENDDATE_THRESHOLD)
               else u64 (endDate (heap s !!! kp.2) - LEASE_ENDDATE_THRESHOLD)))
       && negb (exclude (heap s !!! kp.2))) snd).
  rewrite (foldl_push_filter
    (λ kp : LeaseKey * nat,
       (ts <? (if withThreshold
               then u64 (endDate (heap s !!! kp.2) + LEASE_ENDDATE_THRESHOLD)
               else u64 (endDate (heap s !!! kp.2) - LEASE_ENDDATE_THRESHOLD)))
       && negb false) snd).
  cbn [app]. rewrite filter_fmap_comm, list_filter_filter. f_equal.
  apply list_filter_iff. intros [k p]. cbn [snd].
  rewrite !andb_true_iff, negb_true_iff. cbn [negb].
  split; [intros [? ?]|intros [? [? _]]]; done.
Qed.

End SelectionFilter.


(** *** LeaseSet2: signatures *)

Section LeaseSet2More.
Context `{!Env}.

Lemma VerifySignature_true `{!SignatureVerifier V} (verifier : V)
    (storeType : byte) (buf : list byte) (offset : nat) :
  VerifySignature verifier storeType buf offset = Ok true →
  ls2_signed_by verifier storeType buf.
Proof.
  unfold VerifySignature. case_bool_decide as Hlen; [done|].
  rewrite read_bytes_ok by lia. cbn [mbind result_bind]. intros [= Hv].
  exists offset. split; [lia|done].
Qed.

Lemma VerifySignature_in_bounds `{!SignatureVerifier V} (verifier : V)
    (storeType : byte) (buf : list byte) (offset : nat) :
  ∃ b, VerifySignature verifier storeType buf offset = Ok b.
Proof.
  unfold VerifySignature. case_bool_decide as Hlen; [by eexists|].
  rewrite read_bytes_ok by lia. cbn [mbind result_bind]. by eexists.
Qed.

Lemma ReadKeySections_fields (buf : list byte) (n offset : nat) (s s' : LeaseSet2)
    (r : option nat) :
  ReadKeySections buf n offset s = Ok (r, s') →
  base s' = base s ∧ m_StoreType s' = m_StoreType s.
Proof.
  revert offset s. induction n as [|n IH]; intros offset s; cbn [ReadKeySections].
  - by intros [= <- <-].
  - destruct (bufbe16toh buf offset) as [keyType|]; [|done].
    cbn [mbind result_bind]. case_bool_decide; [by intros [= <- <-]|].
    destruct (bufbe16toh buf (offset + 2)) as [keyLen|]; [|done].
    cbn [mbind result_bind]. case_bool_decide; [by intros [= <- <-]|].
    intros Hrun. apply IH in Hrun as [-> ->].
    destruct (m_Encryptor s); [done|]. by destruct (m_StoreLeases (base s)).
Qed.

Lemma ReadLeases2_fields (buf : list byte) (n offset : nat) (ts : Z)
    (s s' : LeaseSet) (r : option nat) :
  ReadLeases2 buf n offset ts s = Ok (r, s') →
  m_IsValid s' = m_IsValid s ∧ m_StoreLeases s' = m_StoreLeases s ∧
  m_Identity s' = m_Identity s ∧ m_Buffer s' = m_Buffer s.
Proof.
  revert offset s. induction n as [|n IH]; intros offset s; cbn [ReadLeases2].
  - by intros [= <- <-].
  - case_bool_decide; [by intros [= <- <-]|].
    destruct (read_bytes buf offset 32) as [gw|]; [|done].
    cbn [mbind result_bind].
    destruct (bufbe32toh buf (offset + 32)) as [tid|]; [|done].
    cbn [mbind result_bind].
    destruct (bufbe32toh buf (offset + 32 + 4)) as [ed|]; [|done].
    cbn [mbind result_bind].
    intros Hrun. apply IH in Hrun as (-> & -> & -> & ->).
    by destruct (UpdateLease_fields (mkLease gw tid (ed * 1000) false) ts s)
      as (-> & -> & -> & -> & _).
Qed.

Lemma ReadStandardLS2TypeSpecificPart_fields (buf : list byte) (ts : Z)
    (s s' : LeaseSet2) (sz : nat) :
  ReadStandardLS2TypeSpecificPart buf ts s = Ok (sz, s') →
  m_IsValid (base s') = m_IsValid (base s) ∧
  m_StoreType s' = m_StoreType s ∧
  m_Identity (base s') = m_Identity (base s).
Proof.
  unfold ReadStandardLS2TypeSpecificPart.
  destruct (bufbe16toh buf 0) as [propertiesLen|]; [|done].
  cbn [mbind result_bind]. case_bool_decide; [by intros [= <- <-]|].
  destruct (read8 buf _) as [numKeySections|]; [|done].
  cbn [mbind result_bind].
  destruct (ReadKeySections buf _ _ s) as [[r sk]|] eqn:Hk; [|done].
  cbn [mbind result_bind].
  apply ReadKeySections_fields in Hk as [Eb Et].
  destruct r as [offset|]; [|intros [= <- <-]; by rewrite Eb, Et].
  case_bool_decide; [intros [= <- <-]; by rewrite Eb, Et|].
  destruct (read8 buf offset) as [numLeases|]; [|done].
  cbn [mbind result_bind].
  destruct (m_StoreLeases (base sk)); [|intros [= <- <-]; by rewrite Eb, Et].
  destruct (ReadLeases2 buf _ _ ts _) as [[r b]|] eqn:Hl; [|done].
  cbn [mbind result_bind].
  apply ReadLeases2_fields in Hl as (Ev & Est & Ei & Ebuf).
  destruct (UpdateLeasesBegin_fields (base sk)) as (_ & _ & Ei' & Ev' & _).
  destruct (UpdateLeasesEnd_fields b) as (_ & _ & Ei'' & Ev'' & _).
  destruct r; intros [= <- <-]; cbn [base set_base m_StoreType];
    split_and!; congruence.
Qed.

(** The offline-key block, when it yields a verifier, yields one that the
    signer has certified. *)
Lemma ReadOfflineKey_Some `{!SignatureVerifier V} (signer : V)
    (buf : list byte) (offset : nat) (v : Verifier) (key : list byte) (o : nat) :
  ReadOfflineKey signer buf offset = Ok (Some (v, key, o)) →
  ls2_offline_key signer buf offset v key.
Proof.
  unfold ReadOfflineKey, ls2_offline_key. case_bool_decide; [done|].
  destruct (bufbe16toh buf _) as [keyType|] eqn:Ht; [|done].
  cbn [mbind result_bind].
  destruct (CreateVerifier keyType) as [ov|] eqn:Hc; [|done].
  case_bool_decide; [done|].
  rewrite (read_bytes_ok buf (offset + 4 + 2)) by lia. cbn [mbind result_bind].
  case_bool_decide; [done|].
  rewrite (read_bytes_ok buf offset) by lia. cbn [mbind result_bind].
  rewrite read_bytes_ok by lia. cbn [mbind result_bind].
  destruct (verify_signature _ _ _) eqn:Hv; [|done].
  intros [= <- <- <-].
  replace (offset + 6)%nat with (offset + 4 + 2)%nat by lia.
  split_and!; [by exists keyType|done|lia|done].
Qed.

(** The offline-key block reads inside the buffer only. *)
Lemma ReadOfflineKey_in_bounds `{!SignatureVerifier V} (signer : V)
    (buf : list byte) (offset : nat) :
  ∃ r, ReadOfflineKey signer buf offset = Ok r.
Proof.
  unfold ReadOfflineKey. case_bool_decide; [by eexists|].
  unfold bufbe16toh. rewrite read_bytes_ok by lia.
  cbn [mbind result_bind fmap result_fmap].
  destruct (CreateVerifier _) as [ov|]; [|by eexists].
  case_bool_decide; [by eexists|].
  rewrite (read_bytes_ok buf (offset + 4 + 2)) by lia. cbn [mbind result_bind].
  case_bool_decide; [by eexists|].
  rewrite (read_bytes_ok buf offset) by lia. cbn [mbind result_bind].
  rewrite read_bytes_ok by lia. cbn [mbind result_bind].
  destruct (verify_signature _ _ _); by eexists.
Qed.

(** X14: a [LeaseSet2] is valid only if a signature verified, under a key
    the buffer vouches for.  A record the constructor leaves valid carries,
    at some offset within its buffer, a signature over the store type
    followed by the bytes before that offset.  The signature is accepted by
    the identity read from the buffer (for the encrypted type: by the
    verifier [CreateVerifier] made for the blinded key type, keyed with the
    blinded key of the buffer), or else by an offline key found after the
    header, made for the key type of its block, which the identity (the
    blinded key) has itself signed. *)
Theorem LeaseSet2_valid_signed (storeType : byte) (buf : list byte)
    (storeLeases : bool) (ts : Z) (h : list Lease) (s : LeaseSet2) :
  LeaseSet2_FromBuffer storeType buf storeLeases ts h = Ok s →
  m_IsValid (base s) = true →
  (storeType ≠ NETDB_STORE_TYPE_ENCRYPTED_LEASESET2 →
   let identity := IdentityEx_FromBuffer buf in
   ls2_signed_by identity storeType buf ∨
   ∃ (v : Verifier) (key : list byte),
     ls2_offline_key identity buf (GetFullLen identity + 8) v key ∧
     ls2_signed_by (v, key) storeType buf) ∧
  (storeType = NETDB_STORE_TYPE_ENCRYPTED_LEASESET2 →
   ∃ (blindedKeyType : Z) (bv : Verifier),
     bufbe16toh buf 0 = Ok blindedKeyType ∧
     CreateVerifier blindedKeyType = Some bv ∧
     let blinded := (bv, take (GetPublicKeyLen bv) (drop 2 buf)) in
     ls2_signed_by blinded storeType buf ∨
     ∃ (v : Verifier) (key : list byte),
       ls2_offline_key blinded buf (2 + GetPublicKeyLen bv + 8) v key ∧
       ls2_signed_by (v, key) storeType buf).
Proof.
  unfold LeaseSet2_FromBuffer.
  set (s0 := mkLeaseSet2 _ storeType None).
  assert (m_IsValid (base s0) = false) as Hv0 by done.
  assert (m_StoreType s0 = storeType) as Ht0 by done.
  clearbody s0. case_bool_decide as Henc.
  - (* encrypted *)
    unfold ReadFromBufferEncrypted.
    bind_head as blindedKeyType eqn:Hbt.
    destruct (CreateVerifier blindedKeyType) as [bv|] eqn:Hbv;
      [|intros [= <-]; congruence].
    case_bool_decide; [intros [= <-]; congruence|].
    bind_head as blindedKey eqn:Hbk.
    rewrite read_bytes_ok in Hbk by lia. injection Hbk as <-.
    case_bool_decide; [intros [= <-]; congruence|].
    bind_head as timestamp. bind_head as expires. bind_head as flags.
    set (s1 := set_base _ s0).
    assert (m_IsValid (base s1) = false) as Hv1 by done.
    assert (m_StoreType s1 = storeType) as Ht1 by done.
    clearbody s1.
    bind_head as offline eqn:Hoff.
    destruct offline as [[ov o]|]; [|intros [= <-]; congruence].
    assert (match ov with
            | Some (v, key) =>
                ls2_offline_key
                  (bv, take (GetPublicKeyLen bv) (drop (0 + 2) buf)) buf
                  (0 + 2 + GetPublicKeyLen bv + 4 + 2 + 2) v key
            | None => True
            end) as Hov.
    { destruct (Z.testbit flags 0).
      - destruct (ReadOfflineKey _ buf _) as [[[[v key] o']|]|] eqn:Hr; [| |done].
        + cbn in Hoff. injection Hoff as <- <-.
          by apply ReadOfflineKey_Some in Hr.
        + done.
      - by injection Hoff as <- <-. }
    clear Hoff.
    case_bool_decide; [intros [= <-]; congruence|].
    bind_head as lenOuter.
    bind_head as verified eqn:Hver.
    intros [= <-]. cbn. intros ->. rewrite Ht1 in Hver.
    split; [done|]. intros _. exists blindedKeyType, bv.
    split_and!; [done|done|]. cbv zeta.
    destruct ov as [[v key]|].
    + apply VerifySignature_true in Hver. right. exists v, key.
      split; [|done].
      replace (S (S (GetPublicKeyLen bv + 8)))
        with (0 + 2 + GetPublicKeyLen bv + 4 + 2 + 2)%nat by lia.
      exact Hov.
    + apply VerifySignature_true in Hver. by left.
  - (* standard or meta *)
    unfold ReadFromBuffer2.
    set (identity := IdentityEx_FromBuffer buf).
    case_bool_decide; [intros [= <-]; cbn; congruence|].
    bind_head as timestamp. bind_head as expires. bind_head as flags.
    set (s1 := set_base _ (set_base _ s0)).
    assert (m_IsValid (base s1) = false) as Hv1 by done.
    assert (m_StoreType s1 = storeType) as Ht1 by done.
    clearbody s1.
    bind_head as offline eqn:Hoff.
    destruct offline as [[ov o]|]; [|intros [= <-]; congruence].
    assert (match ov with
            | Some (v, key) =>
                ls2_offline_key identity buf
                  (GetFullLen identity + 4 + 2 + 2) v key
            | None => True
            end) as Hov.
    { destruct (Z.testbit flags 0).
      - destruct (ReadOfflineKey _ buf _) as [[[[v key] o']|]|] eqn:Hr; [| |done].
        + cbn in Hoff. injection Hoff as <- <-.
          by apply ReadOfflineKey_Some in Hr.
        + done.
      - by injection Hoff as <- <-. }
    clear Hoff.
    bind_head as [sz s2] eqn:Hpart.
    assert (m_IsValid (base s2) = false ∧ m_StoreType s2 = storeType)
      as [Hv2 Ht2].
    { revert Hpart. case_bool_decide.
      - destruct (ReadStandardLS2TypeSpecificPart _ ts s1) as [[sz' s2']|] eqn:Hr;
          [|done].
        cbn. intros [= <- <-].
        apply ReadStandardLS2TypeSpecificPart_fields in Hr as (-> & -> & _). done.
      - case_bool_decide.
        + destruct (ReadMetaLS2TypeSpecificPart _); [|done]. cbn.
          by intros [= <- <-].
        + by intros [= <- <-]. }
    clear Hpart.
    case_bool_decide; [intros [= <-]; congruence|].
    bind_head as verified eqn:Hver.
    intros [= <-]. cbn. intros ->. rewrite Ht2 in Hver.
    split; [|done]. intros _. cbv zeta. fold identity.
    destruct ov as [[v key]|].
    + apply VerifySignature_true in Hver. right. exists v, key.
      split; [|done].
      replace (GetFullLen identity + 8)%nat
        with (GetFullLen identity + 4 + 2 + 2)%nat by lia.
      exact Hov.
    + apply VerifySignature_true in Hver. by left.
Qed.

End LeaseSet2More.


(** *** LeaseSet2: bounds and store types *)

Section LeaseSet2Bounds.
Context `{!Env}.

Lemma bufbe16toh_ok (buf : list byte) (off : nat) :
  (off + 2 ≤ length buf)%nat →
  bufbe16toh buf off = Ok (be_decode (take 2 (drop off buf))).
Proof. intros Hfit. unfold bufbe16toh. by rewrite read_bytes_ok. Qed.

Lemma bufbe32toh_ok (buf : list byte) (off : nat) :
  (off + 4 ≤ length buf)%nat →
  bufbe32toh buf off = Ok (be_decode (take 4 (drop off buf))).
Proof. intros Hfit. unfold bufbe32toh. by rewrite read_bytes_ok. Qed.

Lemma read8_ok (buf : list byte) (off : nat) :
  (off < length buf)%nat → ∃ b, read8 buf off = Ok b ∧ buf !! off = Some b.
Proof.
  intros Hlt. unfold read8. destruct (lookup_lt_is_Some_2 buf off Hlt) as [b Hb].
  rewrite Hb. eauto.
Qed.

Lemma ReadMetaEntries_bound (buf : list byte) (n offset o : nat) :
  (offset < length buf)%nat →
  ReadMetaEntries buf n offset = Some o → (offset ≤ o < length buf)%nat.
Proof.
  revert offset. induction n as [|n IH]; intros offset Hlt; cbn [ReadMetaEntries].
  - intros [= <-]. lia.
  - case_bool_decide; [done|]. intros Hrun. apply IH in Hrun; lia.
Qed.

Lemma ReadMetaRevocations_bound (buf : list byte) (n offset o : nat) :
  (offset ≤ length buf)%nat →
  ReadMetaRevocations buf n offset = Some o → (offset ≤ o ≤ length buf)%nat.
Proof.
  revert offset. induction n as [|n IH]; intros offset Hlt;
    cbn [ReadMetaRevocations].
  - intros [= <-]. lia.
  - case_bool_decide; [done|]. intros Hrun. apply IH in Hrun; lia.
Qed.

(** X16: on a part of at least two bytes [ReadMetaLS2TypeSpecificPart]
    reads inside the part only, and returns 0 or an offset of at least 4
    that does not exceed the length of the part. *)
Theorem ReadMetaLS2TypeSpecificPart_in_bounds (buf : list byte) :
  (2 ≤ length buf)%nat →
  ∃ sz, ReadMetaLS2TypeSpecificPart buf = Ok sz ∧
        (sz = 0 ∨ 4 ≤ sz ≤ length buf)%nat.
Proof.
  intros Hlen. unfold ReadMetaLS2TypeSpecificPart.
  rewrite bufbe16toh_ok by lia. cbn [mbind result_bind].
  set (propertiesLen := be_decode _).
  case_bool_decide as H1; [eexists; split; [done|by left]|].
  destruct (read8_ok buf (0 + 2 + Z.to_nat propertiesLen)) as (numEntries & -> & _);
    [lia|].
  cbn [mbind result_bind].
  destruct (ReadMetaEntries buf _ _) as [o|] eqn:He;
    [|eexists; split; [done|by left]].
  apply ReadMetaEntries_bound in He; [|lia].
  case_bool_decide as H2; [eexists; split; [done|by left]|].
  destruct (read8_ok buf o) as (numRevocations & -> & _); [lia|].
  cbn [mbind result_bind].
  destruct (ReadMetaRevocations buf _ _) as [o'|] eqn:Hr;
    [|eexists; split; [done|by left]].
  apply ReadMetaRevocations_bound in Hr; [|lia].
  eexists. split; [done|]. right. lia.
Qed.

(** The header of a LeaseSet2 is read inside the buffer. *)
Lemma ReadFromBuffer2_unexpected (buf : list byte) (ts : Z) (s : LeaseSet2) :
  m_StoreType s ≠ NETDB_STORE_TYPE_STANDARD_LEASESET2 →
  m_StoreType s ≠ NETDB_STORE_TYPE_META_LEASESET2 →
  ∃ s', ReadFromBuffer2 buf ts s = Ok s' ∧
    m_IsValid (base s') = m_IsValid (base s) ∧
    m_Leases (base s') = m_Leases (base s) ∧ heap (base s') = heap (base s) ∧
    m_Encryptor s' = m_Encryptor s.
Proof.
  intros Hstd Hmeta. unfold ReadFromBuffer2.
  set (identity := IdentityEx_FromBuffer buf).
  case_bool_decide as Hlen; [by eexists|].
  rewrite bufbe32toh_ok by lia. cbn [mbind result_bind].
  rewrite (bufbe16toh_ok buf (GetFullLen identity + 4)) by lia.
  cbn [mbind result_bind].
  rewrite (bufbe16toh_ok buf (GetFullLen identity + 4 + 2)) by lia.
  cbn [mbind result_bind].
  set (s1 := set_base _ (set_base _ s)).
  assert (m_StoreType s1 = m_StoreType s) as Ht1 by done.
  set (off := match Z.testbit _ 0 with true => _ | false => _ end).
  assert (∃ r, off = Ok r) as [r ->].
  { unfold off. destruct (Z.testbit _ 0); [|by eexists].
    destruct (ReadOfflineKey_in_bounds identity buf
                (GetFullLen identity + 4 + 2 + 2)) as [r ->].
    cbn. by eexists. }
  cbn [mbind result_bind].
  destruct r as [[ov o]|]; [|by eexists].
  rewrite !bool_decide_eq_false_2 by congruence.
  cbn [mbind result_bind]. rewrite bool_decide_eq_true_2 by done.
  by eexists.
Qed.

(** X15: for a store type that is none of standard, meta and encrypted the
    [LeaseSet2] constructor reads the header inside the buffer, decodes no
    type-specific part and leaves the record invalid, without leases. *)
Theorem LeaseSet2_unexpected_store_type (storeType : byte) (buf : list byte)
    (storeLeases : bool) (ts : Z) (h : list Lease) :
  storeType ≠ NETDB_STORE_TYPE_STANDARD_LEASESET2 →
  storeType ≠ NETDB_STORE_TYPE_META_LEASESET2 →
  storeType ≠ NETDB_STORE_TYPE_ENCRYPTED_LEASESET2 →
  ∃ s, LeaseSet2_FromBuffer storeType buf storeLeases ts h = Ok s ∧
       m_IsValid (base s) = false ∧ m_Leases (base s) = ∅ ∧
       heap (base s) = h.
Proof.
  intros Hstd Hmeta Henc. unfold LeaseSet2_FromBuffer.
  rewrite bool_decide_eq_false_2 by done.
  destruct (ReadFromBuffer2_unexpected buf ts
    (mkLeaseSet2 (SetBuffer buf (LeaseSet_empty storeLeases h)) storeType None))
    as (s & -> & Hv & Hm & Hh & _); [done|done|].
  exists s. done.
Qed.

End LeaseSet2Bounds.


Section LeaseSet2Short.
Context `{!Env}.

(** A two-byte read from a part of one byte faults at the end of the
    part. *)
Lemma bufbe16toh_one (part : list byte) :
  length part = 1%nat → bufbe16toh part 0 = OutOfBounds 1%nat.
Proof.
  intros Hlen. unfold bufbe16toh, read_bytes.
  rewrite bool_decide_eq_false_2 by lia. by rewrite Hlen.
Qed.

(** X29: the two-byte reads the [LeaseSet2] constructor makes without a
    check.  For the encrypted type and a buffer of less than two bytes, and
    for the standard and meta types and a buffer that ends one byte after
    a header without offline key, the constructor reads the byte at the
    length of the buffer: the blinded key type in the first case, the
    length of the properties in the second. *)
Theorem LeaseSet2_short_buffer_read_past_end (storeType : byte)
    (buf : list byte) (storeLeases : bool) (ts : Z) (h : list Lease) :
  let identity := IdentityEx_FromBuffer buf in
  (storeType = NETDB_STORE_TYPE_ENCRYPTED_LEASESET2 ∧ (length buf < 2)%nat) ∨
  (storeType ≠ NETDB_STORE_TYPE_ENCRYPTED_LEASESET2 ∧
   (storeType = NETDB_STORE_TYPE_STANDARD_LEASESET2 ∨
    storeType = NETDB_STORE_TYPE_META_LEASESET2) ∧
   length buf = (GetFullLen identity + 9)%nat ∧
   Z.testbit (be_decode (take 2 (drop (GetFullLen identity + 6) buf))) 0
   = false) →
  LeaseSet2_FromBuffer storeType buf storeLeases ts h
  = OutOfBounds (length buf).
Proof.
  intros identity [[-> Hlen]|(Henc & Htype & Hlen & Hflag)];
    unfold LeaseSet2_FromBuffer.
  - rewrite bool_decide_eq_true_2 by done.
    unfold ReadFromBufferEncrypted, bufbe16toh, read_bytes.
    by rewrite bool_decide_eq_false_2 by lia.
  - rewrite bool_decide_eq_false_2 by done.
    set (s0 := mkLeaseSet2 _ storeType None).
    assert (m_StoreType s0 = storeType) as Ht0 by done.
    clearbody s0.
    unfold ReadFromBuffer2. fold identity.
    rewrite bool_decide_eq_false_2 by lia.
    rewrite bufbe32toh_ok by lia. cbn [mbind result_bind].
    rewrite (bufbe16toh_ok buf (GetFullLen identity + 4)) by lia.
    cbn [mbind result_bind].
    rewrite (bufbe16toh_ok buf (GetFullLen identity + 4 + 2)) by lia.
    cbn [mbind result_bind].
    replace (GetFullLen identity + 4 + 2)%nat
      with (GetFullLen identity + 6)%nat by lia.
    rewrite Hflag. cbn [mbind result_bind].
    set (s1 := set_base _ (set_base _ s0)).
    assert (m_StoreType s1 = storeType) as Ht1 by done.
    clearbody s1.
    set (o := (GetFullLen identity + 6 + 2)%nat).
    assert (length (drop o buf) = 1%nat) as Hpart
      by (rewrite length_drop; unfold o; lia).
    assert (length buf = (o + 1)%nat) as Hend by (unfold o; lia).
    rewrite Hend. clear Hend Hlen.
    case_bool_decide as Hstd.
    + unfold ReadStandardLS2TypeSpecificPart.
      by rewrite (bufbe16toh_one _ Hpart).
    + rewrite bool_decide_eq_true_2 by (destruct Htype; congruence).
      unfold ReadMetaLS2TypeSpecificPart.
      by rewrite (bufbe16toh_one _ Hpart).
Qed.

End LeaseSet2Short.


(** *** LeaseSet2: what is stored, and the expiration time *)

Section LeaseSet2Stores.
Context `{!Env}.

Lemma ReadKeySections_not_stored (buf : list byte) (n offset : nat)
    (s s' : LeaseSet2) (r : option nat) :
  m_StoreLeases (base s) = false →
  ReadKeySections buf n offset s = Ok (r, s') → s' = s.
Proof.
  intros Hst. revert offset. induction n as [|n IH]; intros offset;
    cbn [ReadKeySections].
  - by intros [= <- <-].
  - bind_head as keyType. case_bool_decide; [by intros [= <- <-]|].
    bind_head as keyLen. case_bool_decide; [by intros [= <- <-]|].
    rewrite Hst. destruct (m_Encryptor s); apply IH.
Qed.

Lemma ReadStandardLS2TypeSpecificPart_not_stored (buf : list byte) (ts : Z)
    (s s' : LeaseSet2) (sz : nat) :
  m_StoreLeases (base s) = false →
  ReadStandardLS2TypeSpecificPart buf ts s = Ok (sz, s') → s' = s.
Proof.
  intros Hst. unfold ReadStandardLS2TypeSpecificPart.
  bind_head as propertiesLen. case_bool_decide; [by intros [= <- <-]|].
  bind_head as numKeySections.
  bind_head as [r sk] eqn:Hk.
  apply ReadKeySections_not_stored in Hk as ->; [|done].
  destruct r as [offset|]; [|by intros [= <- <-]].
  case_bool_decide; [by intros [= <- <-]|].
  bind_head as numLeases. rewrite Hst. by intros [= <- <-].
Qed.

(** X17: only a standard [LeaseSet2] built to store leases holds any: for
    every other store type, and for a standard one built without storing
    leases, the record has no lease and no encryptor, allocates no [Lease]
    and requests no router. *)
Theorem LeaseSet2_stores_nothing (storeType : byte) (buf : list byte)
    (storeLeases : bool) (ts : Z) (h : list Lease) (s : LeaseSet2) :
  storeType ≠ NETDB_STORE_TYPE_STANDARD_LEASESET2 ∨ storeLeases = false →
  LeaseSet2_FromBuffer storeType buf storeLeases ts h = Ok s →
  m_Leases (base s) = ∅ ∧ heap (base s) = h ∧
  netdb_requests (base s) = [] ∧ m_Encryptor s = None.
Proof.
  intros Hcase. unfold LeaseSet2_FromBuffer.
  set (s0 := mkLeaseSet2 _ storeType None).
  assert (m_Leases (base s0) = ∅ ∧ heap (base s0) = h ∧
          netdb_requests (base s0) = [] ∧ m_Encryptor s0 = None) as Hs0 by done.
  assert (m_StoreType s0 = storeType) as Ht0 by done.
  assert (m_StoreLeases (base s0) = storeLeases) as Hst0 by done.
  clearbody s0. case_bool_decide as Henc.
  - unfold ReadFromBufferEncrypted.
    bind_head as blindedKeyType.
    destruct (CreateVerifier blindedKeyType) as [bv|]; [|by intros [= <-]].
    case_bool_decide; [by intros [= <-]|].
    bind_head as blindedKey.
    case_bool_decide; [by intros [= <-]|].
    bind_head as timestamp. bind_head as expires. bind_head as flags.
    bind_head as offline.
    destruct offline as [[ov o]|]; [|by intros [= <-]].
    case_bool_decide; [by intros [= <-]|].
    bind_head as lenOuter. bind_head as verified. by intros [= <-].
  - unfold ReadFromBuffer2.
    case_bool_decide; [by intros [= <-]|].
    bind_head as timestamp. bind_head as expires. bind_head as flags.
    set (s1 := set_base _ (set_base _ s0)).
    assert (m_Leases (base s1) = ∅ ∧ heap (base s1) = h ∧
            netdb_requests (base s1) = [] ∧ m_Encryptor s1 = None) as Hs1 by done.
    assert (m_StoreType s1 = storeType) as Ht1 by done.
    assert (m_StoreLeases (base s1) = storeLeases) as Hst1 by done.
    clearbody s1.
    bind_head as offline.
    destruct offline as [[ov o]|]; [|by intros [= <-]].
    bind_head as [sz s2] eqn:Hpart.
    assert (s2 = s1) as ->.
    { revert Hpart. case_bool_decide as Hstd.
      - destruct Hcase as [? | ->]; [congruence|].
        destruct (ReadStandardLS2TypeSpecificPart _ ts s1) as [[sz' s2']|] eqn:Hr;
          [|done].
        cbn. intros [= <- <-].
        by apply ReadStandardLS2TypeSpecificPart_not_stored in Hr.
      - case_bool_decide.
        + destruct (ReadMetaLS2TypeSpecificPart _); [|done]. cbn.
          by intros [= <- <-].
        + by intros [= <- <-]. }
    clear Hpart.
    case_bool_decide; [by intros [= <-]|].
    bind_head as verified. by intros [= <-].
Qed.

Lemma ReadLeases2_expiration (buf : list byte) (n offset : nat) (ts : Z)
    (s s' : LeaseSet) (r : option nat) :
  ReadLeases2 buf n offset ts s = Ok (r, s') →
  m_ExpirationTime s ≤ m_ExpirationTime s'.
Proof.
  revert offset s. induction n as [|n IH]; intros offset s; cbn [ReadLeases2].
  - intros [= <- <-]. lia.
  - case_bool_decide; [intros [= <- <-]; lia|].
    bind_head as gw. bind_head as tid. bind_head as ed.
    intros Hrun. apply IH in Hrun.
    destruct (UpdateLease_fields (mkLease gw tid (ed * 1000) false) ts s)
      as (_ & _ & _ & _ & Ee).
    rewrite Ee in Hrun. cbn [endDate] in Hrun.
    destruct (unexpired ts _ && (m_ExpirationTime s <? ed * 1000)) eqn:Hc; [|done].
    apply andb_true_iff in Hc as [_ Hlt]. apply Z.ltb_lt in Hlt. lia.
Qed.

Lemma ReadStandardLS2TypeSpecificPart_expiration (buf : list byte) (ts : Z)
    (s s' : LeaseSet2) (sz : nat) :
  ReadStandardLS2TypeSpecificPart buf ts s = Ok (sz, s') →
  m_ExpirationTime (base s) ≤ m_ExpirationTime (base s').
Proof.
  unfold ReadStandardLS2TypeSpecificPart.
  bind_head as propertiesLen. case_bool_decide; [intros [= <- <-]; lia|].
  bind_head as numKeySections.
  bind_head as [r sk] eqn:Hk.
  apply ReadKeySections_fields in Hk as [Eb Et].
  destruct r as [offset|]; [|intros [= <- <-]; rewrite Eb; lia].
  case_bool_decide; [intros [= <- <-]; rewrite Eb; lia|].
  bind_head as numLeases.
  destruct (m_StoreLeases (base sk)); [|intros [= <- <-]; rewrite Eb; lia].
  bind_head as [r b] eqn:Hl.
  apply ReadLeases2_expiration in Hl.
  destruct (UpdateLeasesBegin_fields (base sk)) as (_ & _ & _ & _ & Ee').
  destruct (UpdateLeasesEnd_fields b) as (_ & _ & _ & _ & Ee'').
  rewrite Ee', Eb in Hl.
  destruct r; intros [= <- <-]; cbn [base set_base]; lia.
Qed.

(** X18: the expiration time of a standard or meta [LeaseSet2] whose header
    fits in the buffer is at least the one its header declares (published
    timestamp plus [expires], in milliseconds), and is exactly that unless
    the record is a standard one that stores leases, where a lease ending
    later moves it to its own end date. *)
Theorem LeaseSet2_expiration_time (storeType : byte) (buf : list byte)
    (storeLeases : bool) (ts : Z) (h : list Lease) (s : LeaseSet2) :
  storeType ≠ NETDB_STORE_TYPE_ENCRYPTED_LEASESET2 →
  (GetFullLen (IdentityEx_FromBuffer buf) + 8 < length buf)%nat →
  LeaseSet2_FromBuffer storeType buf storeLeases ts h = Ok s →
  ls2_header_expiration buf ≤ m_ExpirationTime (base s) ∧
  (storeType ≠ NETDB_STORE_TYPE_STANDARD_LEASESET2 ∨ storeLeases = false →
   m_ExpirationTime (base s) = ls2_header_expiration buf).
Proof.
  intros Henc Hlen. unfold LeaseSet2_FromBuffer, ls2_header_expiration.
  rewrite bool_decide_eq_false_2 by done.
  set (s0 := mkLeaseSet2 _ storeType None).
  assert (m_StoreType s0 = storeType) as Ht0 by done.
  assert (m_StoreLeases (base s0) = storeLeases) as Hst0 by done.
  clearbody s0.
  unfold ReadFromBuffer2. set (identity := IdentityEx_FromBuffer buf) in *.
  rewrite bool_decide_eq_false_2 by lia.
  rewrite bufbe32toh_ok by lia. cbn [mbind result_bind].
  rewrite (bufbe16toh_ok buf (GetFullLen identity + 4)) by lia.
  cbn [mbind result_bind].
  set (e := u32 _ * 1000).
  bind_head as flags.
  set (s1 := set_base _ (set_base _ s0)).
  assert (m_ExpirationTime (base s1) = e) as He1 by done.
  assert (m_StoreType s1 = storeType) as Ht1 by done.
  assert (m_StoreLeases (base s1) = storeLeases) as Hst1 by done.
  clearbody s1.
  bind_head as offline.
  destruct offline as [[ov o]|]; [|intros [= <-]; split; [lia|done]].
  bind_head as [sz s2] eqn:Hpart.
  assert (e ≤ m_ExpirationTime (base s2) ∧
          (storeType ≠ NETDB_STORE_TYPE_STANDARD_LEASESET2 ∨ storeLeases = false →
           m_ExpirationTime (base s2) = e)) as Hs2.
  { revert Hpart. case_bool_decide as Hstd.
    - destruct (ReadStandardLS2TypeSpecificPart _ ts s1) as [[sz' s2']|] eqn:Hr;
        [|done].
      cbn. intros [= <- <-]. split.
      + apply ReadStandardLS2TypeSpecificPart_expiration in Hr. lia.
      + intros [? | ->]; [congruence|].
        by apply ReadStandardLS2TypeSpecificPart_not_stored in Hr as ->.
    - case_bool_decide.
      + destruct (ReadMetaLS2TypeSpecificPart _); [|done]. cbn.
        intros [= <- <-]. split; [lia|done].
      + intros [= <- <-]. split; [lia|done]. }
  clear Hpart.
  case_bool_decide; [by intros [= <-]|].
  bind_head as verified. by intros [= <-].
Qed.

End LeaseSet2Stores.


(** *** LeaseSet2: the leases of a standard record *)

Section LeaseSet2Leases.
Context `{!Env}.







End LeaseSet2Leases.


(** *** The legacy local LeaseSet *)

Section LocalMore.
Context `{!Env}.

Lemma be_decode_cons (b : byte) (bs : list byte) :
  be_decode (b :: bs) = byte_val b * 256 ^ Z.of_nat (length bs) + be_decode bs.
Proof.
  unfold be_decode. cbn [foldl]. rewrite Z.mul_0_l, Z.add_0_l.
  generalize (byte_val b). induction bs as [|c bs IH] using rev_ind; intros v.
  - cbn. lia.
  - rewrite !foldl_app. cbn [foldl]. rewrite IH, length_app. cbn [length].
    rewrite Nat2Z.inj_add, Z.pow_add_r by lia. change (Z.of_nat 1) with 1.
    lia.
Qed.

Lemma be_decode_encode (n : nat) (v : Z) :
  be_decode (be_encode n v) = v mod 256 ^ Z.of_nat n.
Proof.
  induction n as [|n IH].
  - cbn. by rewrite Z.mod_1_r.
  - cbn [be_encode]. rewrite be_decode_cons, IH, length_be_encode, byte_val_of_Z.
    rewrite Nat2Z.inj_succ, Z.pow_succ_r by lia.
    rewrite (Z.mul_comm 256), Z.rem_mul_r by lia. lia.
Qed.

Lemma byte_nat_of_Z (n : nat) :
  (n < 256)%nat → byte_nat (byte_of_Z (Z.of_nat n)) = n.
Proof.
  intros Hn. pose proof (byte_val_of_Z (Z.of_nat n)) as E.
  unfold byte_val in E. unfold byte_nat.
  rewrite Z.mod_small in E by lia. lia.
Qed.

Lemma local_leases_bytes (currentTime : Z) (tunnels : list InboundTunnel) :
  (local_leases currentTime tunnels).1
  = concat ((λ t, (local_lease currentTime t 0).1) <$> tunnels).
Proof.
  unfold local_leases.
  assert (∀ acc, (foldl (λ acc t, let r := local_lease currentTime t acc.2 in
                                  (acc.1 ++ r.1, r.2)) acc tunnels).1
                 = acc.1 ++ concat ((λ t, (local_lease currentTime t 0).1)
                                      <$> tunnels)) as Hgen.
  { induction tunnels as [|t ts IH]; intros acc; cbn [foldl fmap list_fmap concat].
    - by rewrite app_nil_r.
    - rewrite IH. cbn. by rewrite <- app_assoc. }
  by rewrite Hgen.
Qed.

Lemma length_local_lease (currentTime : Z) (t : InboundTunnel) (e : Z) :
  length (GetNextIdentHash t) = 32%nat →
  length (local_lease currentTime t e).1 = LEASE_SIZE.
Proof.
  intros Hh. cbn. rewrite !length_app, length_take, Hh. done.
Qed.

Lemma length_local_leases (currentTime : Z) (tunnels : list InboundTunnel) :
  Forall (λ t, length (GetNextIdentHash t) = 32%nat) tunnels →
  length (local_leases currentTime tunnels).1
  = (length tunnels * LEASE_SIZE)%nat.
Proof.
  intros Hall. rewrite local_leases_bytes.
  induction Hall as [|t ts Ht _ IH]; [done|].
  cbn [fmap list_fmap concat length]. rewrite length_app, IH.
  rewrite (length_local_lease _ _ _ Ht). lia.
Qed.

(** The end date of the [i]-th lease written. *)
Lemma local_leases_end_date (currentTime : Z) (tunnels : list InboundTunnel)
    (rest : list byte) (i : nat) (t : InboundTunnel) :
  Forall (λ t, length (GetNextIdentHash t) = 32%nat) tunnels →
  tunnels !! i = Some t →
  take 8 (drop (i * LEASE_SIZE + 36) ((local_leases currentTime tunnels).1 ++ rest))
  = be_encode 8 (local_lease_end_date currentTime t).
Proof.
  intros Hall. rewrite local_leases_bytes. revert i.
  induction Hall as [|t0 ts Ht0 _ IH]; intros i Hi; [done|].
  cbn [fmap list_fmap concat]. rewrite <- app_assoc.
  destruct i as [|i].
  - injection Hi as ->. cbn [local_lease fst].
    rewrite <- !app_assoc.
    replace (0 * LEASE_SIZE + 36)%nat
      with (length (take 32 (GetNextIdentHash t))
            + length (be_encode 4 (GetNextTunnelID t)))%nat
      by (rewrite length_take, Ht0; done).
    rewrite drop_app_add, drop_app_length.
    by rewrite take_app_length' by done.
  - replace (S i * LEASE_SIZE + 36)%nat
      with (length (local_lease currentTime t0 0).1 + (i * LEASE_SIZE + 36))%nat
      by (rewrite (length_local_lease _ _ _ Ht0); unfold LEASE_SIZE; lia).
    rewrite drop_app_add. by apply IH.
Qed.

End LocalMore.


Section LocalLegacy.
Context `{!Env}.

Lemma take_clamped_min {A} (l : list A) (m : nat) :
  (if bool_decide (m < length l)%nat then m else length l) = length (take m l).
Proof. rewrite length_take. case_bool_decide; lia. Qed.

(** What the constructor returns, when it returns. *)
Lemma LocalLeaseSet_new_inv (identity : IdentityEx)
    (encryptionPublicKey : list byte) (tunnels : list InboundTunnel)
    (currentTime : Z) (l : LocalLeaseSet) :
  let included := take MAX_NUM_LEASES tunnels in
  LocalLeaseSet_new identity encryptionPublicKey tunnels currentTime = Ok l →
  l = mkLocalLeaseSet (local_leases currentTime included).2 identity
        (ToBuffer identity ++ take 256 encryptionPublicKey
           ++ replicate (GetSigningPublicKeyLen identity) x00
           ++ [byte_of_Z (Z.of_nat (length included))]
           ++ (local_leases currentTime included).1
           ++ replicate (GetSignatureLen identity) x00)
        (GetFullLen identity + 256 + GetSigningPublicKeyLen identity + 1
         + length included * LEASE_SIZE + GetSignatureLen identity)%nat ∧
  (256 ≤ length encryptionPublicKey)%nat.
Proof.
  intros included. unfold LocalLeaseSet_new.
  rewrite take_clamped, take_clamped_min. fold included.
  unfold read_bytes. case_bool_decide as Hk; [|done]. cbn [mbind result_bind].
  destruct (local_leases currentTime included) as [leases e].
  intros [= <-]. split; [done|]. destruct Hk; [done|lia].
Qed.

(** What a decoder finds in the buffer of a local lease set: the lease
    count and the end dates. *)
Lemma LocalLeaseSet_new_wire (identity : IdentityEx)
    (encryptionPublicKey : list byte) (tunnels : list InboundTunnel)
    (currentTime : Z) (l : LocalLeaseSet) :
  let included := take MAX_NUM_LEASES tunnels in
  LocalLeaseSet_new identity encryptionPublicKey tunnels currentTime = Ok l →
  length (ToBuffer identity) = GetFullLen identity →
  (MAX_NUM_LEASES < 256)%nat →
  Forall (λ t, length (GetNextIdentHash t) = 32%nat) tunnels →
  length (local_Buffer l) = local_BufferLen l ∧
  legacy_fits identity (local_Buffer l) ∧
  legacy_end_dates identity (local_Buffer l)
  = local_lease_end_date currentTime <$> included.
Proof.
  intros included Hnew Hid Hmax Hhash.
  destruct (LocalLeaseSet_new_inv _ _ _ _ _ Hnew) as [-> Hkey].
  fold included. cbn [local_Buffer local_BufferLen].
  assert (Forall (λ t, length (GetNextIdentHash t) = 32%nat) included) as Hinc
    by (by apply Forall_take).
  assert (length included < 256)%nat as Hn.
  { unfold included. rewrite length_take. lia. }
  set (pre := ToBuffer identity ++ take 256 encryptionPublicKey
                ++ replicate (GetSigningPublicKeyLen identity) x00).
  set (sig := replicate (GetSignatureLen identity) x00).
  set (count := byte_of_Z (Z.of_nat (length included))).
  set (leases := (local_leases currentTime included).1).
  assert (length pre = legacy_count_offset identity) as Hpre.
  { unfold pre, legacy_count_offset.
    rewrite !length_app, length_take, length_replicate. lia. }
  assert (ToBuffer identity ++ take 256 encryptionPublicKey
            ++ replicate (GetSigningPublicKeyLen identity) x00
            ++ [count] ++ leases ++ sig
          = pre ++ [count] ++ leases ++ sig) as ->.
  { unfold pre. by rewrite <- !app_assoc. }
  assert (length leases = (length included * LEASE_SIZE)%nat) as Hleases
    by (by apply length_local_leases).
  assert ((pre ++ [count] ++ leases ++ sig) !! legacy_count_offset identity
          = Some count) as Hcount.
  { rewrite <- Hpre.
    exact (list_lookup_middle pre (leases ++ sig) count (length pre) eq_refl). }
  assert (byte_nat count = length included) as Hbn
    by (by apply byte_nat_of_Z).
  split_and!.
  - rewrite !length_app, Hpre, Hleases. unfold sig. rewrite length_replicate.
    cbn [length]. unfold legacy_count_offset. lia.
  - exists count. split; [done|].
    rewrite !length_app, Hpre, Hleases, Hbn. cbn [length]. lia.
  - unfold legacy_end_dates. rewrite Hcount, Hbn.
    apply list_eq. intros i. rewrite !list_lookup_fmap.
    destruct (included !! i) as [t|] eqn:Hi.
    + apply lookup_lt_Some in Hi as Hlt.
      rewrite lookup_seq_lt by done. cbn.
      assert (pre ++ count :: leases ++ sig = (pre ++ [count]) ++ leases ++ sig)
        as -> by (by rewrite <- app_assoc).
      replace (legacy_count_offset identity + 1 + i * LEASE_SIZE + 36)%nat
        with (length (pre ++ [count]) + (i * LEASE_SIZE + 36))%nat
        by (rewrite length_app, Hpre; cbn [length]; lia).
      rewrite drop_app_add.
      unfold leases. rewrite (local_leases_end_date _ _ _ _ t) by done.
      rewrite be_decode_encode. f_equal. unfold local_lease_end_date, u64.
      change (256 ^ Z.of_nat 8) with (2 ^ 64). apply Z.mod_mod. lia.
    + apply lookup_ge_None in Hi. by rewrite lookup_seq_ge.
Qed.

End LocalLegacy.


Section LocalLegacyTheorems.
Context `{!Env}.

(** X19: the legacy [LocalLeaseSet] constructor fills exactly the
    [m_BufferLen] bytes it allocates, for an identity that serialises to
    [GetFullLen] bytes, and the lease count it writes after the keys is the
    number of tunnels, capped at [MAX_NUM_LEASES]. *)
Theorem LocalLeaseSet_buffer_layout (identity : IdentityEx)
    (encryptionPublicKey : list byte) (tunnels : list InboundTunnel)
    (currentTime : Z) (l : LocalLeaseSet) :
  LocalLeaseSet_new identity encryptionPublicKey tunnels currentTime = Ok l →
  length (ToBuffer identity) = GetFullLen identity →
  Forall (λ t, length (GetNextIdentHash t) = 32%nat) tunnels →
  length (local_Buffer l) = local_BufferLen l ∧
  local_Buffer l !! legacy_count_offset identity
  = Some (byte_of_Z (Z.of_nat (length tunnels `min` MAX_NUM_LEASES)%nat)).
Proof.
  intros Hnew Hid Hhash.
  destruct (LocalLeaseSet_new_inv _ _ _ _ _ Hnew) as [-> Hkey].
  cbn [local_Buffer local_BufferLen].
  set (included := take MAX_NUM_LEASES tunnels).
  assert (length included = (length tunnels `min` MAX_NUM_LEASES)%nat) as Hn
    by (unfold included; rewrite length_take; lia).
  split.
  - rewrite !length_app, length_take, !length_replicate, Hid.
    rewrite length_local_leases by (by apply Forall_take).
    cbn [length]. lia.
  - rewrite <- Hn.
    set (pre := ToBuffer identity ++ take 256 encryptionPublicKey
                  ++ replicate (GetSigningPublicKeyLen identity) x00).
    assert (length pre = legacy_count_offset identity) as <-.
    { unfold pre, legacy_count_offset.
      rewrite !length_app, length_take, length_replicate. lia. }
    assert (∀ c (rest : list byte),
              ToBuffer identity ++ take 256 encryptionPublicKey
                ++ replicate (GetSigningPublicKeyLen identity) x00
                ++ [c] ++ rest = pre ++ c :: rest) as ->
      by (intros; unfold pre; by rewrite <- !app_assoc).
    by apply list_lookup_middle.
Qed.

Lemma local_lease_end_date_window (currentTime : Z) (t : InboundTunnel) :
  0 < TUNNEL_EXPIRATION_TIMEOUT < 2 ^ 31 →
  0 ≤ GetCreationTime t + TUNNEL_EXPIRATION_TIMEOUT
      - TUNNEL_EXPIRATION_THRESHOLD < 2 ^ 32 →
  GetCreationTime t * 1000 ≤ currentTime
    ≤ (GetCreationTime t + TUNNEL_EXPIRATION_TIMEOUT) * 1000 →
  currentTime < 2 ^ 62 →
  local_lease_ts t
  = (GetCreationTime t + TUNNEL_EXPIRATION_TIMEOUT
     - TUNNEL_EXPIRATION_THRESHOLD) * 1000 ∧
  local_lease_end_date currentTime t
  = local_lease_ts t
    + (currentTime - GetCreationTime t * 1000) * 2 / TUNNEL_EXPIRATION_TIMEOUT ∧
  local_lease_ts t ≤ local_lease_end_date currentTime t
    ≤ local_lease_ts t + 2000.
Proof.
  intros HT Hadv Hct Hmax.
  assert (local_lease_ts t
          = (GetCreationTime t + TUNNEL_EXPIRATION_TIMEOUT
             - TUNNEL_EXPIRATION_THRESHOLD) * 1000) as Ets.
  { unfold local_lease_ts, u64, u32. rewrite (Z.mod_small _ (2 ^ 32)) by lia.
    apply Z.mod_small. lia. }
  set (age := currentTime - GetCreationTime t * 1000).
  assert (0 ≤ age * 2 / TUNNEL_EXPIRATION_TIMEOUT ≤ 2000) as Hq.
  { split.
    - apply Z.div_pos; lia.
    - apply Z.div_le_upper_bound; [lia|]. unfold age. lia. }
  assert (local_lease_end_date currentTime t
          = local_lease_ts t + age * 2 / TUNNEL_EXPIRATION_TIMEOUT) as Eed.
  { unfold local_lease_end_date. fold age. unfold u64 at 2 3 4.
    rewrite (Z.mod_small age) by (unfold age; lia).
    rewrite (Z.mod_small (age * 2)) by (unfold age; lia).
    rewrite (Z.mod_small TUNNEL_EXPIRATION_TIMEOUT) by lia.
    apply Z.mod_small. rewrite Ets. lia. }
  split_and!; [done|done|lia|lia].
Qed.

(** X20: every lease end date found in the buffer of a legacy
    [LocalLeaseSet], read as [ExtractTimestamp] and the decoders read it,
    lies between the end the tunnel advertises (creation time plus timeout
    minus threshold, in milliseconds) and two seconds after it, for tunnels
    within their lifetime at the clock of the constructor. *)
Theorem LocalLeaseSet_end_dates_window (identity : IdentityEx)
    (encryptionPublicKey : list byte) (tunnels : list InboundTunnel)
    (currentTime : Z) (l : LocalLeaseSet) :
  LocalLeaseSet_new identity encryptionPublicKey tunnels currentTime = Ok l →
  length (ToBuffer identity) = GetFullLen identity →
  (MAX_NUM_LEASES < 256)%nat →
  0 < TUNNEL_EXPIRATION_TIMEOUT < 2 ^ 31 →
  currentTime < 2 ^ 62 →
  Forall (λ t, length (GetNextIdentHash t) = 32%nat ∧
               0 ≤ GetCreationTime t + TUNNEL_EXPIRATION_TIMEOUT
                   - TUNNEL_EXPIRATION_THRESHOLD < 2 ^ 32 ∧
               GetCreationTime t * 1000 ≤ currentTime
                 ≤ (GetCreationTime t + TUNNEL_EXPIRATION_TIMEOUT) * 1000)
    tunnels →
  Forall2 (λ t ed,
      let advertised := (GetCreationTime t + TUNNEL_EXPIRATION_TIMEOUT
                         - TUNNEL_EXPIRATION_THRESHOLD) * 1000 in
      advertised ≤ ed ≤ advertised + 2000)
    (take MAX_NUM_LEASES tunnels)
    (legacy_end_dates identity (local_Buffer l)).
Proof.
  intros Hnew Hid Hmax HT Hct Hall.
  destruct (LocalLeaseSet_new_wire _ _ _ _ _ Hnew Hid Hmax) as (_ & _ & ->).
  { eapply Forall_impl; [done|]. by intros t (? & _). }
  apply Forall2_fmap_r, Forall_Forall2_diag.
  apply Forall_take. eapply Forall_impl; [done|].
  intros t (_ & Hadv & Hage). cbv zeta.
  destruct (local_lease_end_date_window currentTime t HT Hadv Hage Hct)
    as (<- & _ & ?). done.
Qed.

Lemma foldl_min_lt (a b : list Z) (ea eb : Z) :
  ea < eb → Forall2 Z.lt a b → foldl Z.min ea a < foldl Z.min eb b.
Proof.
  intros He Hab. revert ea eb He.
  induction Hab as [|x y a b Hxy _ IH]; intros ea eb He; [done|].
  cbn [foldl]. apply IH. lia.
Qed.

Lemma spec_min_end_date_lt (a b : list Z) :
  a ≠ [] → Forall2 Z.lt a b → spec_min_end_date a < spec_min_end_date b.
Proof.
  intros Hne Hab. destruct a as [|x a]; [done|].
  destruct b as [|y b]; [by apply Forall2_length in Hab|].
  apply Forall2_cons in Hab as [Hxy Hab]. cbn. by apply foldl_min_lt.
Qed.

(** X21: a legacy [LocalLeaseSet] built again from the same tunnels at
    least half the tunnel timeout, counted in milliseconds, after the first
    is newer, for [IsNewer], than a record that holds the buffer of the
    first: every end date has moved forward, and so has their minimum. *)
Theorem LocalLeaseSet_republished_newer (identity : IdentityEx)
    (encryptionPublicKey : list byte) (tunnels : list InboundTunnel)
    (time1 time2 : Z) (l1 l2 : LocalLeaseSet) (s : LeaseSet) :
  LocalLeaseSet_new identity encryptionPublicKey tunnels time1 = Ok l1 →
  LocalLeaseSet_new identity encryptionPublicKey tunnels time2 = Ok l2 →
  length (ToBuffer identity) = GetFullLen identity →
  (0 < MAX_NUM_LEASES < 256)%nat →
  0 < TUNNEL_EXPIRATION_TIMEOUT < 2 ^ 31 →
  tunnels ≠ [] →
  Forall (λ t, length (GetNextIdentHash t) = 32%nat ∧
               0 < GetCreationTime t + TUNNEL_EXPIRATION_TIMEOUT
                   - TUNNEL_EXPIRATION_THRESHOLD < 2 ^ 32 ∧
               GetCreationTime t * 1000 ≤ time1 ∧
               time2 ≤ (GetCreationTime t + TUNNEL_EXPIRATION_TIMEOUT) * 1000)
    tunnels →
  time2 < 2 ^ 62 →
  TUNNEL_EXPIRATION_TIMEOUT ≤ 2 * (time2 - time1) →
  m_Identity s = Some identity → m_Buffer s = local_Buffer l1 →
  IsNewer (local_Buffer l2) s = Ok true.
Proof.
  intros Hnew1 Hnew2 Hid Hmax HT Hne Hall Ht2 Hgap Hsi Hsb.
  assert (Forall (λ t, length (GetNextIdentHash t) = 32%nat) tunnels) as Hhash.
  { eapply Forall_impl; [done|]. by intros t (? & _). }
  destruct (LocalLeaseSet_new_wire _ _ _ _ _ Hnew1 Hid) as (_ & Hfit1 & Eed1);
    [lia|done|].
  destruct (LocalLeaseSet_new_wire _ _ _ _ _ Hnew2 Hid) as (_ & Hfit2 & Eed2);
    [lia|done|].
  set (included := take MAX_NUM_LEASES tunnels) in *.
  assert (Forall (λ t,
            0 < local_lease_end_date time1 t < local_lease_end_date time2 t)
            included) as Hlt.
  { apply Forall_take. eapply Forall_impl; [exact Hall|].
    intros t (_ & Hadv & Hc1 & Hc2).
    destruct (local_lease_end_date_window time1 t) as (E1 & -> & _); try lia.
    destruct (local_lease_end_date_window time2 t) as (_ & -> & _); try lia.
    rewrite E1. split.
    - assert (0 ≤ (time1 - GetCreationTime t * 1000) * 2
                   / TUNNEL_EXPIRATION_TIMEOUT) by (apply Z.div_pos; lia).
      lia.
    - apply Z.add_lt_mono_l.
      assert ((time1 - GetCreationTime t * 1000) * 2 / TUNNEL_EXPIRATION_TIMEOUT + 1
              ≤ (time2 - GetCreationTime t * 1000) * 2 / TUNNEL_EXPIRATION_TIMEOUT);
        [|lia].
      replace ((time1 - GetCreationTime t * 1000) * 2 / TUNNEL_EXPIRATION_TIMEOUT + 1)
        with (((time1 - GetCreationTime t * 1000) * 2
               + 1 * TUNNEL_EXPIRATION_TIMEOUT) / TUNNEL_EXPIRATION_TIMEOUT)
        by (rewrite Z.div_add by lia; done).
      apply Z.div_le_mono; lia. }
  assert (included ≠ []) as Hine.
  { unfold included. destruct tunnels; [done|].
    destruct MAX_NUM_LEASES; [lia|done]. }
  unfold IsNewer.
  rewrite Hsb.
  rewrite (ExtractTimestamp_fits (local_Buffer l2) _ identity) by done.
  rewrite (ExtractTimestamp_fits (local_Buffer l1) _ identity) by done.
  cbn [mbind result_bind]. rewrite Eed1, Eed2.
  rewrite !extract_fold_spec.
  - f_equal. apply Z.ltb_lt. apply spec_min_end_date_lt.
    + by destruct included.
    + apply Forall2_fmap, Forall_Forall2_diag.
      eapply Forall_impl; [exact Hlt|]. intros t Ht. cbv beta in Ht |- *.
      unfold compose. lia.
  - apply Forall_fmap. eapply Forall_impl; [exact Hlt|]. intros t Ht. cbv beta in Ht |- *.
      unfold compose. lia.
  - apply Forall_fmap. eapply Forall_impl; [exact Hlt|]. intros t Ht. cbv beta in Ht |- *.
      unfold compose. lia.
Qed.

Lemma local_leases_expiration (currentTime : Z) (tunnels : list InboundTunnel)
    (t : InboundTunnel) :
  t ∈ tunnels → local_lease_ts t ≤ (local_leases currentTime tunnels).2.
Proof.
  unfold local_leases.
  assert (∀ acc : list byte * Z,
    acc.2 ≤ (foldl (λ acc t, let r := local_lease currentTime t acc.2 in
                             (acc.1 ++ r.1, r.2)) acc tunnels).2 ∧
    (t ∈ tunnels →
     local_lease_ts t
     ≤ (foldl (λ acc t, let r := local_lease currentTime t acc.2 in
                        (acc.1 ++ r.1, r.2)) acc tunnels).2)) as Hgen.
  { induction tunnels as [|t0 ts IH]; intros acc; cbn [foldl].
    - split; [lia|]. by intros ?%elem_of_nil.
    - destruct (IH (acc.1 ++ (local_lease currentTime t0 acc.2).1,
                   (local_lease currentTime t0 acc.2).2)) as [Hmono Hin].
      cbn [snd local_lease] in Hmono, Hin |- *.
      assert (acc.2 ≤ (if acc.2 <? local_lease_ts t0 then local_lease_ts t0
                       else acc.2) ∧
              local_lease_ts t0 ≤ (if acc.2 <? local_lease_ts t0
                                   then local_lease_ts t0 else acc.2)) as [? ?].
      { destruct (Z.ltb_spec acc.2 (local_lease_ts t0)); lia. }
      split; [lia|]. intros [->|Ht]%elem_of_cons; [lia|]. by apply Hin. }
  intros Hin. by apply Hgen.
Qed.

(** X22: a legacy [LocalLeaseSet] is not expired, for its [IsExpired], up
    to the end that any one of the tunnels it includes advertises. *)
Theorem LocalLeaseSet_not_expired (identity : IdentityEx)
    (encryptionPublicKey : list byte) (tunnels : list InboundTunnel)
    (currentTime ts : Z) (l : LocalLeaseSet) (t : InboundTunnel) :
  LocalLeaseSet_new identity encryptionPublicKey tunnels currentTime = Ok l →
  t ∈ take MAX_NUM_LEASES tunnels →
  ts ≤ local_lease_ts t →
  LocalLeaseSet_IsExpired ts l = false.
Proof.
  intros Hnew Hin Hts.
  destruct (LocalLeaseSet_new_inv _ _ _ _ _ Hnew) as [-> _].
  unfold LocalLeaseSet_IsExpired. cbn [local_ExpirationTime].
  apply Z.ltb_ge.
  pose proof (local_leases_expiration currentTime _ t Hin). lia.
Qed.

End LocalLegacyTheorems.


Section LocalLegacyRoundTrip.
Context `{!Env}.

(** Buffers that agree on their first [n] bytes agree on what is read
    before [n]. *)
Lemma take_drop_agree {A} (b1 b2 : list A) (n off k : nat) :
  take n b1 = take n b2 → (off + k ≤ n)%nat →
  take k (drop off b1) = take k (drop off b2).
Proof.
  intros Heq Hle. rewrite !take_drop_commute.
  replace (off + k)%nat with ((off + k) `min` n)%nat by lia.
  by rewrite <- !take_take, Heq.
Qed.

Lemma lookup_agree {A} (b1 b2 : list A) (n i : nat) :
  take n b1 = take n b2 → (i < n)%nat → b1 !! i = b2 !! i.
Proof.
  intros Heq Hlt.
  rewrite <- (lookup_take_lt b1 n i), <- (lookup_take_lt b2 n i) by done.
  by rewrite Heq.
Qed.

(** X27: what the legacy [LocalLeaseSet] lays out, the validator reads
    back.  On the published form of a local lease set built from at least
    one tunnel, [LeaseSetBufferValidate] reads inside the buffer only,
    answers what the identity's [Verify] says of the signature for the
    bytes the constructor wrote before it, and leaves in [expires] the
    latest of the end dates written for the tunnels included. *)
Theorem LocalLeaseSet_published_validates (identity : IdentityEx)
    (encryptionPublicKey : list byte) (tunnels : list InboundTunnel)
    (currentTime : Z) (l : LocalLeaseSet) (signature : list byte) :
  let buf := ls_published l signature in
  LocalLeaseSet_new identity encryptionPublicKey tunnels currentTime = Ok l →
  length (ToBuffer identity) = GetFullLen identity →
  IdentityEx_FromBuffer buf = identity →
  length signature = GetSignatureLen identity →
  (0 < MAX_NUM_LEASES < 256)%nat →
  tunnels ≠ [] →
  Forall (λ t, length (GetNextIdentHash t) = 32%nat) tunnels →
  LeaseSetBufferValidate buf
  = Ok (Verify identity
          (take (local_BufferLen l - length signature) (local_Buffer l))
          signature,
        Some (spec_max_end_date
                (local_lease_end_date currentTime
                   <$> take MAX_NUM_LEASES tunnels))).
Proof.
  intros buf Hnew Hid Hident Hsig Hmax Hne Hhash.
  destruct (LocalLeaseSet_new_wire _ _ _ _ _ Hnew Hid ltac:(lia) Hhash)
    as (Hlen & (num & Hnum & Hfit) & Heds).
  cbv zeta in Heds.
  destruct (LocalLeaseSet_new_inv _ _ _ _ _ Hnew) as [El _].
  cbv zeta in El.
  assert (local_BufferLen l
          = (legacy_count_offset identity + 1
             + length (take MAX_NUM_LEASES tunnels) * LEASE_SIZE
             + GetSignatureLen identity)%nat) as Hbl.
  { rewrite El. cbn [local_BufferLen]. unfold legacy_count_offset. lia. }
  assert (byte_nat num = length (take MAX_NUM_LEASES tunnels)) as Hbn.
  { apply (f_equal length) in Heds. unfold legacy_end_dates in Heds.
    rewrite Hnum in Heds. by rewrite !length_fmap, length_seq in Heds. }
  assert (0 < byte_nat num ≤ MAX_NUM_LEASES)%nat as Hrange.
  { rewrite Hbn, length_take. destruct tunnels; [done|]. cbn [length]. lia. }
  set (B := local_Buffer l) in *.
  set (n := (local_BufferLen l - length signature)%nat) in *.
  assert (n = legacy_count_offset identity + 1 + byte_nat num * LEASE_SIZE)%nat
    as Hn by (unfold n; lia).
  assert (n ≤ length B)%nat as HnB by lia.
  assert (length (take n B) = n) as Hlt by (rewrite length_take; lia).
  assert (take n buf = take n B) as Hagree.
  { unfold buf, ls_published. fold B n. by rewrite take_app_length' by done. }
  assert (buf !! legacy_count_offset identity = Some num) as Hnum'.
  { rewrite (lookup_agree buf B n) by (done || lia). done. }
  assert (legacy_signature_offset identity buf = n) as Hso.
  { unfold legacy_signature_offset. rewrite Hnum'. lia. }
  assert (legacy_end_dates identity buf = legacy_end_dates identity B) as Heb.
  { unfold legacy_end_dates. rewrite Hnum', Hnum.
    apply list_fmap_ext. intros i x Hx. cbv beta.
    apply lookup_seq in Hx as [-> Hi]. f_equal.
    apply (take_drop_agree buf B n); [done|]. unfold LEASE_SIZE in *. nia. }
  rewrite (LeaseSetBufferValidate_fits buf num); rewrite ?Hident; try done.
  - rewrite Hso, Heb, Heds.
    assert (read_bytes buf n (GetSignatureLen identity) = Ok signature) as ->.
    { rewrite read_bytes_ok.
      - unfold buf, ls_published. fold B n.
        rewrite drop_app_length' by done. by rewrite <- Hsig, firstn_all.
      - unfold buf, ls_published. fold B n. rewrite length_app. lia. }
    cbn [mbind result_bind]. by rewrite Hagree.
  - rewrite Hso. unfold buf, ls_published. fold B n. rewrite length_app. lia.
Qed.

End LocalLegacyRoundTrip.


(** *** The local LeaseSet2 *)

Section Local2.
Context `{!Env}.

Lemma local_leases2_bytes (tunnels : list InboundTunnel) :
  (local_leases2 tunnels).1
  = concat ((λ t, (local_lease2 t 0).1) <$> tunnels).
Proof.
  unfold local_leases2.
  assert (∀ acc, (foldl (λ acc t, let r := local_lease2 t acc.2 in
                                  (acc.1 ++ r.1, r.2)) acc tunnels).1
                 = acc.1 ++ concat ((λ t, (local_lease2 t 0).1) <$> tunnels))
    as Hgen.
  { induction tunnels as [|t ts IH]; intros acc; cbn [foldl fmap list_fmap concat].
    - by rewrite app_nil_r.
    - rewrite IH. cbn. by rewrite <- app_assoc. }
  by rewrite Hgen.
Qed.

Lemma length_local_leases2 (tunnels : list InboundTunnel) :
  Forall (λ t, length (GetNextIdentHash t) = 32%nat) tunnels →
  length (local_leases2 tunnels).1 = (length tunnels * LEASE2_SIZE)%nat.
Proof.
  intros Hall. rewrite local_leases2_bytes.
  induction Hall as [|t ts Ht _ IH]; [done|].
  cbn [fmap list_fmap concat length]. rewrite length_app, IH.
  cbn. rewrite !length_app, length_take, Ht. done.
Qed.

(** What the constructor returns, when it returns. *)
Lemma LocalLeaseSet2_new_inv (storeType : byte) (identity : IdentityEx)
    (keyType keyLen : Z) (encryptionPublicKey : list byte)
    (tunnels : list InboundTunnel) (timestamp : Z) (l : LocalLeaseSet) :
  let included := take MAX_NUM_LEASES tunnels in
  let expirationTime := (local_leases2 included).2 in
  let expires := u64 (expirationTime - timestamp) in
  LocalLeaseSet2_new storeType identity keyType keyLen encryptionPublicKey
    tunnels timestamp = Ok l →
  l = mkLocalLeaseSet (expirationTime * 1000) identity
        ([storeType] ++ ToBuffer identity
           ++ be_encode 4 timestamp
           ++ be_encode 2 (if 0 <? expires then expires else 0)
           ++ be_encode 2 0 ++ be_encode 2 0
           ++ [byte_of_Z 1] ++ be_encode 2 keyType ++ be_encode 2 keyLen
           ++ take (Z.to_nat keyLen) encryptionPublicKey
           ++ [byte_of_Z (Z.of_nat (length included))]
           ++ (local_leases2 included).1
           ++ replicate (GetSignatureLen identity) x00)
        (GetFullLen identity + 4 + 2 + 2 + 2 + 1 + 2 + 2 + Z.to_nat keyLen + 1
         + length included * LEASE2_SIZE + GetSignatureLen identity)%nat ∧
  (Z.to_nat keyLen ≤ length encryptionPublicKey)%nat.
Proof.
  intros included expirationTime expires. unfold LocalLeaseSet2_new.
  rewrite take_clamped, take_clamped_min. fold included.
  unfold read_bytes. case_bool_decide as Hk; [|done]. cbn [mbind result_bind].
  subst expires expirationTime.
  destruct (local_leases2 included) as [leases e].
  intros [= <-]. split; [done|]. destruct Hk as [Hk|Hk]; lia.
Qed.

(** X23: the [LocalLeaseSet2] constructor fills exactly the
    [m_BufferLen + 1] bytes it allocates, for an identity that serialises
    to [GetFullLen] bytes, the first being the store type. *)
Theorem LocalLeaseSet2_buffer_layout (storeType : byte) (identity : IdentityEx)
    (keyType keyLen : Z) (encryptionPublicKey : list byte)
    (tunnels : list InboundTunnel) (timestamp : Z) (l : LocalLeaseSet) :
  LocalLeaseSet2_new storeType identity keyType keyLen encryptionPublicKey
    tunnels timestamp = Ok l →
  length (ToBuffer identity) = GetFullLen identity →
  Forall (λ t, length (GetNextIdentHash t) = 32%nat) tunnels →
  length (local_Buffer l) = S (local_BufferLen l) ∧
  local_Buffer l !! 0%nat = Some storeType.
Proof.
  intros Hnew Hid Hhash.
  destruct (LocalLeaseSet2_new_inv _ _ _ _ _ _ _ _ Hnew) as [-> Hkey].
  cbn [local_Buffer local_BufferLen]. split; [|done].
  rewrite !length_app, !length_be_encode, length_take, length_replicate, Hid.
  rewrite length_local_leases2 by (by apply Forall_take).
  cbn [length]. lia.
Qed.

End Local2.


Section Local2RoundTrip.
Context `{!Env}.

Lemma read_bytes_app (pre bs post : list byte) (off n : nat) :
  off = length pre → n = length bs →
  read_bytes (pre ++ bs ++ post) off n = Ok bs.
Proof.
  intros -> ->. rewrite read_bytes_ok by (rewrite !length_app; lia).
  by rewrite drop_app_length, take_app_length.
Qed.

Lemma read8_app (pre : list byte) (b : byte) (post : list byte) (off : nat) :
  off = length pre → read8 (pre ++ [b] ++ post) off = Ok b.
Proof.
  intros ->. unfold read8.
  change (pre ++ [b] ++ post) with (pre ++ b :: post).
  by rewrite (list_lookup_middle pre post b (length pre) eq_refl).
Qed.

Lemma bufbe16toh_app (pre post : list byte) (v : Z) (off : nat) :
  off = length pre →
  bufbe16toh (pre ++ be_encode 2 v ++ post) off = Ok (u16 v).
Proof.
  intros ->. unfold bufbe16toh. rewrite (read_bytes_app pre (be_encode 2 v)) by done.
  cbn [fmap result_fmap]. by rewrite be_decode_encode_2.
Qed.

Lemma bufbe32toh_app (pre post : list byte) (v : Z) (off : nat) :
  off = length pre →
  bufbe32toh (pre ++ be_encode 4 v ++ post) off = Ok (u32 v).
Proof.
  intros ->. unfold bufbe32toh. rewrite (read_bytes_app pre (be_encode 4 v)) by done.
  cbn [fmap result_fmap]. by rewrite be_decode_encode.
Qed.

(** The type-specific part the local constructor lays out, read back
    without storing leases. *)
Lemma ReadStandardLS2TypeSpecificPart_local (keyType keyLen : Z)
    (key leases signature : list byte) (n : nat) (ts : Z) (s : LeaseSet2) :
  m_StoreLeases (base s) = false →
  0 ≤ keyLen < 2 ^ 16 → length key = Z.to_nat keyLen →
  (n < 256)%nat → length leases = (n * LEASE2_SIZE)%nat →
  (0 < length signature)%nat →
  ReadStandardLS2TypeSpecificPart
    (be_encode 2 0 ++ [byte_of_Z 1] ++ be_encode 2 keyType ++ be_encode 2 keyLen
       ++ key ++ [byte_of_Z (Z.of_nat n)] ++ leases ++ signature) ts s
  = Ok ((8 + Z.to_nat keyLen + n * LEASE2_SIZE)%nat, s).
Proof.
  intros Hst HkeyLen Hkey Hn Hleases Hsig.
  set (part := be_encode 2 0 ++ _).
  assert (length part = (8 + Z.to_nat keyLen + n * LEASE2_SIZE
                         + length signature)%nat) as Hlen.
  { unfold part. rewrite !length_app, !length_be_encode, Hkey, Hleases.
    cbn [length]. lia. }
  unfold ReadStandardLS2TypeSpecificPart.
  assert (bufbe16toh part 0 = Ok 0) as ->.
  { apply (bufbe16toh_app [] _ 0). done. }
  cbn [mbind result_bind]. change (Z.to_nat 0) with 0%nat.
  rewrite bool_decide_eq_false_2 by lia.
  assert (read8 part (0 + 2 + 0) = Ok (byte_of_Z 1)) as ->.
  { apply (read8_app (be_encode 2 0)). done. }
  cbn [mbind result_bind].
  change (byte_nat (byte_of_Z 1)) with 1%nat. cbn [ReadKeySections].
  assert (bufbe16toh part (0 + 2 + 0 + 1) = Ok (u16 keyType)) as ->.
  { unfold part.
    assert (∀ rest, be_encode 2 0 ++ [byte_of_Z 1] ++ be_encode 2 keyType ++ rest
                    = (be_encode 2 0 ++ [byte_of_Z 1])
                        ++ be_encode 2 keyType ++ rest) as ->
      by (intros; by rewrite <- !app_assoc).
    by apply bufbe16toh_app. }
  cbn [mbind result_bind]. rewrite bool_decide_eq_false_2 by lia.
  assert (bufbe16toh part (0 + 2 + 0 + 1 + 2) = Ok keyLen) as ->.
  { unfold part.
    assert (∀ rest, be_encode 2 0 ++ [byte_of_Z 1] ++ be_encode 2 keyType
                      ++ be_encode 2 keyLen ++ rest
                    = (be_encode 2 0 ++ [byte_of_Z 1] ++ be_encode 2 keyType)
                        ++ be_encode 2 keyLen ++ rest) as ->
      by (intros; by rewrite <- !app_assoc).
    rewrite bufbe16toh_app by done. f_equal. apply Z.mod_small. lia. }
  cbn [mbind result_bind]. rewrite bool_decide_eq_false_2 by lia.
  rewrite Hst.
  assert (match m_Encryptor s with Some _ => s | None => s end = s) as ->
    by (by destruct (m_Encryptor s)).
  cbn [mbind result_bind]. rewrite bool_decide_eq_false_2 by lia.
  assert (read8 part (0 + 2 + 0 + 1 + 2 + 2 + Z.to_nat keyLen)
          = Ok (byte_of_Z (Z.of_nat n))) as ->.
  { unfold part.
    assert (∀ rest, be_encode 2 0 ++ [byte_of_Z 1] ++ be_encode 2 keyType
                      ++ be_encode 2 keyLen ++ key ++ [byte_of_Z (Z.of_nat n)]
                      ++ rest
                    = (be_encode 2 0 ++ [byte_of_Z 1] ++ be_encode 2 keyType
                         ++ be_encode 2 keyLen ++ key)
                        ++ [byte_of_Z (Z.of_nat n)] ++ rest) as ->
      by (intros; by rewrite <- !app_assoc).
    apply read8_app. rewrite !length_app, !length_be_encode, Hkey.
    cbn [length]. lia. }
  cbn [mbind result_bind]. rewrite Hst, byte_nat_of_Z by done.
  do 2 f_equal. lia.
Qed.

Lemma local_leases2_range (tunnels : list InboundTunnel) :
  0 ≤ (local_leases2 tunnels).2 < 2 ^ 32.
Proof.
  unfold local_leases2.
  assert (∀ acc : list byte * Z, 0 ≤ acc.2 < 2 ^ 32 →
    0 ≤ (foldl (λ acc t, let r := local_lease2 t acc.2 in
                         (acc.1 ++ r.1, r.2)) acc tunnels).2 < 2 ^ 32) as Hgen.
  { induction tunnels as [|t ts IH]; intros acc Hacc; [done|].
    cbn [foldl]. apply IH. cbn [snd local_lease2].
    pose proof (Z.mod_pos_bound (GetCreationTime t + TUNNEL_EXPIRATION_TIMEOUT
                                 - TUNNEL_EXPIRATION_THRESHOLD) (2 ^ 32)).
    unfold u32. destruct (_ <? _); lia. }
  apply Hgen. cbn. lia.
Qed.

(** X24: what [LocalLeaseSet2] lays out, [LeaseSet2] reads back.  The
    published form of a local standard LeaseSet2, decoded without storing
    leases, gives a record that is valid exactly when the identity accepts
    the signature for the first bytes of the local buffer, store type
    included, and whose expiration time is that of the local lease set, as
    long as the timestamp is not past the latest end date advertised and
    less than 2^16 seconds before it. *)
Theorem LocalLeaseSet2_published_decodes (storeType : byte)
    (identity : IdentityEx) (keyType keyLen : Z)
    (encryptionPublicKey : list byte) (tunnels : list InboundTunnel)
    (timestamp : Z) (l : LocalLeaseSet) (signature : list byte) (ts : Z)
    (h : list Lease) :
  let buf := ls2_published l signature in
  let expirationTime := (local_leases2 (take MAX_NUM_LEASES tunnels)).2 in
  LocalLeaseSet2_new storeType identity keyType keyLen encryptionPublicKey
    tunnels timestamp = Ok l →
  storeType = NETDB_STORE_TYPE_STANDARD_LEASESET2 →
  storeType ≠ NETDB_STORE_TYPE_ENCRYPTED_LEASESET2 →
  length (ToBuffer identity) = GetFullLen identity →
  IdentityEx_FromBuffer buf = identity →
  length signature = GetSignatureLen identity → (0 < length signature)%nat →
  0 ≤ keyLen < 2 ^ 16 → (MAX_NUM_LEASES < 256)%nat →
  Forall (λ t, length (GetNextIdentHash t) = 32%nat) tunnels →
  0 ≤ timestamp → timestamp ≤ expirationTime < timestamp + 2 ^ 16 →
  ∃ s, LeaseSet2_FromBuffer storeType buf false ts h = Ok s ∧
    m_IsValid (base s)
    = Verify identity
        (take (S (local_BufferLen l) - length signature) (local_Buffer l))
        signature ∧
    m_ExpirationTime (base s) = local_ExpirationTime l.
Proof.
  intros buf expirationTime Hnew Hstd Henc Hid Hfrom Hsig Hsig0 HkeyLen Hmax
    Hhash Hts Hexp.
  destruct (LocalLeaseSet2_new_inv _ _ _ _ _ _ _ _ Hnew) as [El Hkey].
  cbv zeta in El. fold expirationTime in El.
  set (included := take MAX_NUM_LEASES tunnels) in *.
  pose proof (local_leases2_range included) as Hrange. fold expirationTime in Hrange.
  assert (u64 (expirationTime - timestamp) = expirationTime - timestamp) as Eu
    by (apply Z.mod_small; lia).
  rewrite Eu in El.
  assert ((if 0 <? expirationTime - timestamp then expirationTime - timestamp
           else 0) = expirationTime - timestamp) as Ee
    by (destruct (Z.ltb_spec 0 (expirationTime - timestamp)); lia).
  rewrite Ee in El.
  set (key := take (Z.to_nat keyLen) encryptionPublicKey) in *.
  set (leases := (local_leases2 included).1) in *.
  set (n := length included) in *.
  assert (length key = Z.to_nat keyLen) as Hlkey
    by (unfold key; rewrite length_take; lia).
  assert (length leases = (n * LEASE2_SIZE)%nat) as Hlleases
    by (apply length_local_leases2; by apply Forall_take).
  assert (n < 256)%nat as Hn by (unfold n, included; rewrite length_take; lia).
  set (part := be_encode 2 0 ++ [byte_of_Z 1] ++ be_encode 2 keyType
                 ++ be_encode 2 keyLen ++ key ++ [byte_of_Z (Z.of_nat n)]
                 ++ leases ++ signature).
  set (body := ToBuffer identity ++ be_encode 4 timestamp
                 ++ be_encode 2 (expirationTime - timestamp) ++ be_encode 2 0
                 ++ be_encode 2 0 ++ [byte_of_Z 1] ++ be_encode 2 keyType
                 ++ be_encode 2 keyLen ++ key ++ [byte_of_Z (Z.of_nat n)]
                 ++ leases).
  assert (length body = (local_BufferLen l - length signature)%nat) as Hlbody.
  { rewrite El. cbn [local_BufferLen]. unfold body.
    rewrite !length_app, !length_be_encode, Hlkey, Hlleases, Hid, Hsig.
    cbn [length]. lia. }
  assert (length signature ≤ local_BufferLen l)%nat as Hle.
  { rewrite El. cbn [local_BufferLen]. lia. }
  assert (local_Buffer l
          = ([storeType] ++ body) ++ replicate (GetSignatureLen identity) x00)
    as Ebuf.
  { rewrite El. cbn [local_Buffer]. unfold body. by rewrite <- !app_assoc. }
  assert (buf = ToBuffer identity ++ be_encode 4 timestamp
                  ++ be_encode 2 (expirationTime - timestamp) ++ be_encode 2 0
                  ++ part) as Ebuf'.
  { unfold buf, ls2_published. rewrite Ebuf, <- app_assoc. cbn [app drop].
    rewrite drop_0, <- Hlbody, take_app_length. unfold body, part.
    by rewrite <- !app_assoc. }
  assert (take (S (local_BufferLen l) - length signature) (local_Buffer l)
          = storeType :: body) as Esigned.
  { rewrite Ebuf.
    replace (S (local_BufferLen l) - length signature)%nat
      with (length ([storeType] ++ body))
      by (rewrite length_app; cbn [length]; lia).
    by rewrite take_app_length. }
  rewrite Esigned.
  assert (length part = (8 + Z.to_nat keyLen + n * LEASE2_SIZE
                         + length signature)%nat) as Hlpart.
  { unfold part. rewrite !length_app, !length_be_encode, Hlkey, Hlleases.
    cbn [length]. lia. }
  assert (length buf = (GetFullLen identity + 8 + length part)%nat) as Hlbuf.
  { rewrite Ebuf', !length_app, !length_be_encode, Hid. lia. }
  unfold LeaseSet2_FromBuffer. rewrite bool_decide_eq_false_2 by done.
  set (s0 := mkLeaseSet2 _ storeType None).
  unfold ReadFromBuffer2. rewrite Hfrom.
  rewrite bool_decide_eq_false_2 by lia.
  assert (bufbe32toh buf (GetFullLen identity) = Ok timestamp) as ->.
  { rewrite Ebuf', bufbe32toh_app by done. f_equal. apply Z.mod_small. lia. }
  cbn [mbind result_bind].
  assert (bufbe16toh buf (GetFullLen identity + 4)
          = Ok (expirationTime - timestamp)) as ->.
  { rewrite Ebuf', (app_assoc (ToBuffer identity)).
    rewrite bufbe16toh_app by (rewrite length_app, length_be_encode; lia).
    f_equal. apply Z.mod_small. lia. }
  cbn [mbind result_bind].
  assert (bufbe16toh buf (GetFullLen identity + 4 + 2) = Ok 0) as ->.
  { rewrite Ebuf'.
    assert (∀ rest, ToBuffer identity ++ be_encode 4 timestamp
                      ++ be_encode 2 (expirationTime - timestamp)
                      ++ be_encode 2 0 ++ rest
                    = (ToBuffer identity ++ be_encode 4 timestamp
                         ++ be_encode 2 (expirationTime - timestamp))
                        ++ be_encode 2 0 ++ rest) as ->
      by (intros; by rewrite <- !app_assoc).
    rewrite bufbe16toh_app; [done|].
    rewrite !length_app, !length_be_encode. lia. }
  cbn [mbind result_bind]. change (Z.testbit 0 0) with false.
  set (s1 := set_base _ (set_base _ s0)).
  assert (m_StoreType s1 = storeType) as Ht1 by done.
  cbn [mbind result_bind].
  rewrite Ht1, bool_decide_eq_true_2 by done.
  assert (drop (GetFullLen identity + 4 + 2 + 2) buf = part) as ->.
  { rewrite Ebuf'.
    assert (∀ rest, ToBuffer identity ++ be_encode 4 timestamp
                      ++ be_encode 2 (expirationTime - timestamp)
                      ++ be_encode 2 0 ++ rest
                    = (ToBuffer identity ++ be_encode 4 timestamp
                         ++ be_encode 2 (expirationTime - timestamp)
                         ++ be_encode 2 0) ++ rest) as ->
      by (intros; by rewrite <- !app_assoc).
    apply drop_app_length'. rewrite !length_app, !length_be_encode. lia. }
  unfold part.
  rewrite ReadStandardLS2TypeSpecificPart_local by done.
  cbn [at_offset mbind result_bind].
  rewrite bool_decide_eq_false_2 by lia.
  unfold VerifySignature. cbn [signature_len IdentityEx_verifier verify_signature].
  rewrite bool_decide_eq_false_2 by lia.
  assert (buf = body ++ signature ++ []) as Ebs.
  { rewrite app_nil_r. unfold buf, ls2_published.
    rewrite Ebuf, <- app_assoc. cbn [app drop].
    by rewrite drop_0, <- Hlbody, take_app_length. }
  assert (GetFullLen identity + 4 + 2 + 2
          + (8 + Z.to_nat keyLen + n * LEASE2_SIZE) = length body)%nat as ->.
  { rewrite Hlbody, El. cbn [local_BufferLen]. fold n. lia. }
  assert (read_bytes buf (length body) (GetSignatureLen identity) = Ok signature)
    as -> by (rewrite Ebs; by apply read_bytes_app).
  assert (take (length body) buf = body) as ->
    by (rewrite Ebs; apply take_app_length).
  cbn [mbind result_bind]. eexists. split; [done|].
  cbn [base set_base m_IsValid SetIsValid m_ExpirationTime].
  split; [by rewrite Ht1|].
  unfold s1. cbn. rewrite El. cbn [local_ExpirationTime].
  f_equal. unfold u32. rewrite Z.mod_small by lia. lia.
Qed.

End Local2RoundTrip.


(** *** The properties above on the samples *)

Lemma ExtractTimestamp_fault_only_at_count_witness :
  ∃ ident, m_Identity (sample_decoded sample_200_300 0) = Some ident ∧
    length (take 771 sample_200_300) = legacy_count_offset ident ∧
    771%nat = length (take 771 sample_200_300).
Proof.
  apply (ExtractTimestamp_fault_only_at_count
           (take 771 sample_200_300) (sample_decoded sample_200_300 0) 771).
  reflexivity.
Defined.

Lemma IsNewer_asymmetric_witness :
  IsNewer (m_Buffer (sample_decoded sample_100_900 0))
    (sample_decoded sample_200_300 0) = Ok false.
Proof.
  apply (IsNewer_asymmetric (sample_decoded sample_100_900 0)
           (sample_decoded sample_200_300 0)).
  - reflexivity.
  - reflexivity.
Defined.

Lemma LeaseSetBufferValidate_max_end_date_witness :
  let ident := @IdentityEx_FromBuffer sample_env sample_two_leases in
  let sigoff := legacy_signature_offset ident sample_two_leases in
  @LeaseSetBufferValidate sample_env sample_two_leases =
    Ok (Verify ident (take sigoff sample_two_leases)
          (take (GetSignatureLen ident) (drop sigoff sample_two_leases)),
        Some (spec_max_end_date (legacy_end_dates ident sample_two_leases))).
Proof.
  apply (@LeaseSetBufferValidate_max_end_date sample_env sample_two_leases x02).
  - reflexivity.
  - vm_compute. lia.
  - vm_compute. lia.
Defined.

Lemma LeaseSet_valid_LeaseSetBufferValidate_witness :
  @LeaseSetBufferValidate sample_env sample_two_leases
  = Ok (true, Some (spec_max_end_date
                      (legacy_end_dates
                         (@IdentityEx_FromBuffer sample_env sample_two_leases)
                         sample_two_leases))).
Proof.
  apply (@LeaseSet_valid_LeaseSetBufferValidate sample_env sample_two_leases
           true 200000 [] sample_late).
  - vm_compute. reflexivity.
  - reflexivity.
Defined.

Lemma ReadFromBuffer_valid_not_expired_witness :
  IsExpired 250000 sample_updated = false.
Proof.
  apply (@ReadFromBuffer_valid_not_expired sample_env false true 250000
           (SetBuffer sample_AD sample_ABC) sample_updated).
  - apply leases_keyedb_correct. vm_compute. reflexivity.
  - vm_compute. reflexivity.
  - reflexivity.
Defined.

Lemma ReadFromBuffer_valid_leases_unexpired_witness :
  3%nat ∈ @GetNonExpiredLeases sample_env true 250000 sample_updated.
Proof.
  apply (@ReadFromBuffer_valid_leases_unexpired sample_env false true 250000
           (SetBuffer sample_AD sample_ABC) sample_updated
           (lease_key sample_lease_D) 3).
  - apply leases_keyedb_correct. vm_compute. reflexivity.
  - reflexivity.
  - vm_compute. reflexivity.
  - reflexivity.
  - vm_compute. reflexivity.
Defined.

Lemma ReadFromBuffer_reconciles_witness :
  let s := SetBuffer sample_AD sample_ABC in
  let ls := legacy_leases (@decode_identity sample_env false s) (m_Buffer s) in
  (∀ k, is_Some (m_Leases sample_updated !! k) ↔
        ∃ l, l ∈ ls ∧ @unexpired sample_env 250000 l = true ∧ lease_key l = k) ∧
  (∀ k p, m_Leases sample_updated !! k = Some p →
     ∃ l, l ∈ ls ∧ @unexpired sample_env 250000 l = true ∧ lease_key l = k ∧
          heap sample_updated !! p = Some (set_isUpdated true l)) ∧
  (∀ k p, m_Leases s !! k = Some p → is_Some (m_Leases sample_updated !! k) →
     m_Leases sample_updated !! k = Some p) ∧
  (∀ k p x, m_Leases s !! k = Some p → heap s !! p = Some x →
     m_Leases sample_updated !! k = None →
     heap sample_updated !! p = Some (set_endDate 0 (set_isUpdated false x))).
Proof.
  intros s ls.
  apply (@ReadFromBuffer_reconciles sample_env false true 250000 s sample_updated).
  - apply leases_keyedb_correct. vm_compute. reflexivity.
  - reflexivity.
  - vm_compute. reflexivity.
  - reflexivity.
Defined.

Lemma ReadFromBuffer_all_expired_witness :
  let s := SetBuffer sample_AD sample_ABC in
  ∃ s1, @ReadFromBuffer sample_env false true 1000000 s = Ok s1 ∧
    m_IsValid s1 = false ∧ m_ExpirationTime s1 = 0 ∧
    m_Leases s1 = m_Leases s ∧
    ∀ k p x, m_Leases s !! k = Some p → heap s !! p = Some x →
      heap s1 !! p = Some (set_isUpdated false x).
Proof.
  intros s.
  apply (@ReadFromBuffer_all_expired sample_env false true 1000000 s x02).
  - reflexivity.
  - vm_compute. reflexivity.
  - vm_compute. lia.
  - vm_compute. lia.
  - apply Forall_forall.
    apply (bool_decide_unpack
             (Forall (λ l, @unexpired sample_env 1000000 l = false)
                (legacy_leases (@decode_identity sample_env false s) (m_Buffer s)))).
    vm_compute. exact I.
Defined.

Lemma ReadFromBuffer_netdb_requests_witness :
  let s := mkLeaseSet true true 0 sample_AD None [] ∅ [] [] in
  let ls := legacy_leases (@decode_identity sample_env_unknown true s)
              (m_Buffer s) in
  netdb_requests sample_gateways_unknown
  = netdb_requests s ++
      (if m_StoreLeases s then @requested_gateways sample_env_unknown 250000 ls
       else []).
Proof.
  intros s ls.
  apply (@ReadFromBuffer_netdb_requests sample_env_unknown true true 250000
           s sample_gateways_unknown x02).
  - vm_compute. reflexivity.
  - vm_compute. lia.
  - vm_compute. reflexivity.
Defined.

(** In that sample the gateways of A and of D are asked for, in that
    order. *)
Lemma sample_gateways_unknown_requests :
  netdb_requests sample_gateways_unknown
  = [replicate 32 x0a; replicate 32 x0d].
Proof. vm_compute. reflexivity. Qed.

Lemma HasExpiredLeases_false_all_returned_witness :
  0%nat ∈ @GetNonExpiredLeases sample_env true 250000 sample_late.
Proof.
  apply (@HasExpiredLeases_false_all_returned sample_env 250000 sample_late
           (replicate 32 x0a, 1) 0).
  - lia.
  - vm_compute. congruence.
  - apply (bool_decide_unpack
      (map_Forall (λ (_ : LeaseKey) (p : nat),
         endDate (heap sample_late !!! p) + 51000 < 2 ^ 64)
         (m_Leases sample_late))).
    vm_compute. exact I.
  - vm_compute. reflexivity.
  - vm_compute. reflexivity.
Defined.

Lemma ExpiresSoon_monotone_witness :
  ExpiresSoon 1000 500 450500 12345 sample_late = true.
Proof.
  apply (ExpiresSoon_monotone 600 1000 500 450500 12345 sample_late).
  - lia.
  - lia.
  - lia.
  - lia.
  - vm_compute. split; congruence.
  - lia.
  - vm_compute. reflexivity.
Defined.

Lemma ReadFromBuffer_not_stored_witness :
  let s := mkLeaseSet true false 0 sample_two_leases None [] ∅ [] [] in
  heap sample_not_stored = heap s ∧
  netdb_requests sample_not_stored = netdb_requests s ∧
  (m_Leases sample_not_stored = ∅ ∨
   m_IsValid sample_not_stored = false ∧ m_Leases sample_not_stored = m_Leases s).
Proof.
  intros s.
  apply (@ReadFromBuffer_not_stored sample_env true true 200000 s
           sample_not_stored).
  - reflexivity.
  - vm_compute. reflexivity.
Defined.

Lemma PopulateLeases_materialises_witness :
  @PopulateLeases sample_env 200000 sample_not_stored
  = @LeaseSet_FromBuffer sample_env sample_two_leases true 200000 [].
Proof.
  apply (@PopulateLeases_materialises sample_env sample_two_leases 200000 []
           sample_not_stored).
  - vm_compute. reflexivity.
  - reflexivity.
Defined.

Lemma LeaseSet2_valid_signed_witness :
  ls2_signed_by (@IdentityEx_FromBuffer sample_env (sample_ls2 0 [])) x03
    (sample_ls2 0 []) ∨
  ∃ (v : Verifier) (key : list byte),
    @ls2_offline_key sample_env _ _
      (@IdentityEx_FromBuffer sample_env (sample_ls2 0 []))
      (sample_ls2 0 [])
      (GetFullLen (@IdentityEx_FromBuffer sample_env (sample_ls2 0 [])) + 8)
      v key ∧
    ls2_signed_by (v, key) x03 (sample_ls2 0 []).
Proof.
  refine (proj1 (@LeaseSet2_valid_signed sample_env x03 (sample_ls2 0 []) true
                   200000 [] (sample_decoded2 (sample_ls2 0 [])) _ _) _).
  - vm_compute. reflexivity.
  - reflexivity.
  - discriminate.
Defined.

Lemma LeaseSet2_unexpected_store_type_witness :
  ∃ s, @LeaseSet2_FromBuffer sample_env x09 (sample_ls2 0 []) true 200000 []
       = Ok s ∧
       m_IsValid (base s) = false ∧ m_Leases (base s) = ∅ ∧
       heap (base s) = [].
Proof.
  apply (@LeaseSet2_unexpected_store_type sample_env x09 (sample_ls2 0 []) true
           200000 []); discriminate.
Defined.

Lemma ReadMetaLS2TypeSpecificPart_in_bounds_witness :
  ∃ sz, ReadMetaLS2TypeSpecificPart [x00; x00; x00; x00; x00] = Ok sz ∧
        (sz = 0 ∨ 4 ≤ sz ≤ length [x00; x00; x00; x00; x00])%nat.
Proof.
  apply (ReadMetaLS2TypeSpecificPart_in_bounds [x00; x00; x00; x00; x00]).
  cbn. lia.
Defined.

Lemma LeaseSet2_stores_nothing_witness :
  m_Leases (base sample_decoded2_unstored) = ∅ ∧
  heap (base sample_decoded2_unstored) = [] ∧
  netdb_requests (base sample_decoded2_unstored) = [] ∧
  m_Encryptor sample_decoded2_unstored = None.
Proof.
  apply (@LeaseSet2_stores_nothing sample_env x03 (sample_ls2 0 []) false
           200000 [] sample_decoded2_unstored).
  - by right.
  - vm_compute. reflexivity.
Defined.

Lemma LeaseSet2_expiration_time_witness :
  let s := sample_decoded2 sample_ls2_late_lease in
  @ls2_header_expiration sample_env sample_ls2_late_lease
    ≤ m_ExpirationTime (base s) ∧
  (x03 ≠ @NETDB_STORE_TYPE_STANDARD_LEASESET2 sample_env ∨ true = false →
   m_ExpirationTime (base s)
   = @ls2_header_expiration sample_env sample_ls2_late_lease).
Proof.
  intros s.
  apply (@LeaseSet2_expiration_time sample_env x03 sample_ls2_late_lease true
           200000 [] s).
  - discriminate.
  - vm_compute. lia.
  - vm_compute. reflexivity.
Defined.

(** In that sample the lease, which ends after the expiration the header
    declares, has moved the expiration time of the record to its own end
    date. *)
Lemma sample_ls2_late_lease_expiration :
  @ls2_header_expiration sample_env sample_ls2_late_lease = 1600000 ∧
  m_IsValid (base (sample_decoded2 sample_ls2_late_lease)) = true ∧
  m_ExpirationTime (base (sample_decoded2 sample_ls2_late_lease)) = 1700000.
Proof. split_and!; vm_compute; reflexivity. Qed.

Lemma LocalLeaseSet2_buffer_layout_witness :
  length (local_Buffer sample_local2) = S (local_BufferLen sample_local2) ∧
  local_Buffer sample_local2 !! 0%nat = Some x03.
Proof.
  apply (@LocalLeaseSet2_buffer_layout sample_env x03 sample_identity 0 32
           (replicate 32 x22) [sample_tunnel] 1700000500 sample_local2).
  - reflexivity.
  - reflexivity.
  - repeat constructor.
Defined.

Lemma LocalLeaseSet_buffer_layout_witness :
  length (local_Buffer (sample_local_legacy 1700000200000))
  = local_BufferLen (sample_local_legacy 1700000200000) ∧
  local_Buffer (sample_local_legacy 1700000200000)
    !! legacy_count_offset sample_identity
  = Some (byte_of_Z (Z.of_nat (length sample_tunnels
                               `min` @MAX_NUM_LEASES sample_env)%nat)).
Proof.
  apply (@LocalLeaseSet_buffer_layout sample_env sample_identity
           (replicate 256 x11) sample_tunnels 1700000200000
           (sample_local_legacy 1700000200000)).
  - reflexivity.
  - reflexivity.
  - repeat constructor.
Defined.

Lemma LocalLeaseSet_end_dates_window_witness :
  Forall2 (λ t ed,
      let advertised := (GetCreationTime t + @TUNNEL_EXPIRATION_TIMEOUT sample_env
                         - @TUNNEL_EXPIRATION_THRESHOLD sample_env) * 1000 in
      advertised ≤ ed ≤ advertised + 2000)
    (take (@MAX_NUM_LEASES sample_env) sample_tunnels)
    (legacy_end_dates sample_identity
       (local_Buffer (sample_local_legacy 1700000200000))).
Proof.
  apply (@LocalLeaseSet_end_dates_window sample_env sample_identity
           (replicate 256 x11) sample_tunnels 1700000200000
           (sample_local_legacy 1700000200000)).
  - reflexivity.
  - reflexivity.
  - vm_compute. lia.
  - vm_compute. split; congruence.
  - vm_compute. reflexivity.
  - repeat constructor; vm_compute; congruence.
Defined.

Lemma LocalLeaseSet_republished_newer_witness :
  IsNewer (local_Buffer (sample_local_legacy 1700000201000))
    (mkLeaseSet true false 0 (local_Buffer (sample_local_legacy 1700000200000))
       (Some sample_identity) [] ∅ [] [])
  = Ok true.
Proof.
  apply (@LocalLeaseSet_republished_newer sample_env sample_identity
           (replicate 256 x11) sample_tunnels 1700000200000 1700000201000
           (sample_local_legacy 1700000200000)
           (sample_local_legacy 1700000201000)).
  - reflexivity.
  - reflexivity.
  - reflexivity.
  - vm_compute. lia.
  - vm_compute. split; congruence.
  - discriminate.
  - repeat constructor; vm_compute; congruence.
  - vm_compute. reflexivity.
  - vm_compute. congruence.
  - reflexivity.
  - reflexivity.
Defined.

Lemma LocalLeaseSet_not_expired_witness :
  LocalLeaseSet_IsExpired 1700000200000 (sample_local_legacy 1700000200000)
  = false.
Proof.
  apply (@LocalLeaseSet_not_expired sample_env sample_identity
           (replicate 256 x11) sample_tunnels 1700000200000 1700000200000
           (sample_local_legacy 1700000200000) sample_tunnel).
  - reflexivity.
  - by left.
  - vm_compute. congruence.
Defined.

Lemma LocalLeaseSet2_published_decodes_witness :
  ∃ s, @LeaseSet2_FromBuffer sample_env x03
         (ls2_published sample_local2 (replicate 40 x01)) false 0 [] = Ok s ∧
    m_IsValid (base s)
    = Verify sample_identity
        (take (S (local_BufferLen sample_local2) - length (replicate 40 x01))
           (local_Buffer sample_local2))
        (replicate 40 x01) ∧
    m_ExpirationTime (base s) = local_ExpirationTime sample_local2.
Proof.
  apply (@LocalLeaseSet2_published_decodes sample_env x03 sample_identity 0 32
           (replicate 32 x22) [sample_tunnel] 1700000500 sample_local2
           (replicate 40 x01) 0 []).
  - reflexivity.
  - reflexivity.
  - discriminate.
  - reflexivity.
  - reflexivity.
  - reflexivity.
  - vm_compute. lia.
  - vm_compute. split; congruence.
  - vm_compute. lia.
  - repeat constructor.
  - vm_compute. congruence.
  - vm_compute. split; congruence.
Defined.

Lemma ReadFromBuffer_valid_invariant_witness :
  let s := SetBuffer sample_AD sample_ABC in
  let ident := @decode_identity sample_env false s in
  let buf := m_Buffer s in
  let ls := legacy_leases ident buf in
  let sigoff := legacy_signature_offset ident buf in
  (∃ num, buf !! legacy_count_offset ident = Some num ∧
          (0 < byte_nat num ≤ @MAX_NUM_LEASES sample_env)%nat) ∧
  (sigoff ≤ length buf)%nat ∧
  (GetSignatureLen ident = 0 ∨ sigoff + GetSignatureLen ident ≤ length buf)%nat ∧
  Verify ident (take sigoff buf) (take (GetSignatureLen ident) (drop sigoff buf))
    = true ∧
  ∃ l, l ∈ ls ∧ @unexpired sample_env 250000 l = true ∧ endDate l ≠ 0 ∧
    (∀ l', l' ∈ ls → @unexpired sample_env 250000 l' = true →
           endDate l' ≤ endDate l) ∧
    m_ExpirationTime sample_updated
    = u64 (endDate l + @LEASE_ENDDATE_THRESHOLD sample_env).
Proof.
  apply (@ReadFromBuffer_valid_invariant sample_env false 250000
           (SetBuffer sample_AD sample_ABC) sample_updated).
  - vm_compute. reflexivity.
  - reflexivity.
Defined.


Lemma LocalLeaseSet_published_validates_witness :
  let l := sample_local_legacy 1700000200000 in
  @LeaseSetBufferValidate sample_env (ls_published l (replicate 40 x01))
  = Ok (Verify sample_identity
          (take (local_BufferLen l - length (replicate 40 x01))
             (local_Buffer l))
          (replicate 40 x01),
        Some (spec_max_end_date
                (@local_lease_end_date sample_env 1700000200000
                   <$> take (@MAX_NUM_LEASES sample_env) sample_tunnels))).
Proof.
  intros l.
  apply (@LocalLeaseSet_published_validates sample_env sample_identity
           (replicate 256 x11) sample_tunnels 1700000200000 l
           (replicate 40 x01)).
  - reflexivity.
  - reflexivity.
  - reflexivity.
  - reflexivity.
  - vm_compute. lia.
  - discriminate.
  - repeat constructor.
Defined.

Lemma LeaseSet2_short_buffer_read_past_end_witness :
  @LeaseSet2_FromBuffer sample_env x03 (replicate 396 x00) true 200000 []
  = OutOfBounds (length (replicate 396 x00)).
Proof.
  apply (@LeaseSet2_short_buffer_read_past_end sample_env x03
           (replicate 396 x00) true 200000 []).
  right. split_and!; [discriminate|by left|reflexivity|reflexivity].
Defined.
